(** * State-graph runtime: expression language, single-phase and
      multi-phase stepping.

    A shallow embedding of the C++ headers [value.hpp], [node.hpp],
    [expression.hpp], [edge.hpp], [phase_edge.hpp], [state_graph.hpp] and
    [multi_phase_state_graph.hpp].

    - [std::variant<int64_t,double,bool,std::string>] is the inductive
      [Value]; a [double] is an IEEE-754 binary64 value of the Standard
      Library's [spec_float].
    - [std::unordered_map<std::string,V>] is [gmap string V];
      [std::vector<T>] is [list T] read with [!!].
    - A C++ function that may throw returns an [outcome]; a member
      function that mutates its object returns the outcome together with
      the object as the call leaves it (also when it throws). *)

From Stdlib Require Import ZArith String Ascii List Bool Lia.
From Stdlib Require Import Floats.SpecFloat.
From Stdlib Require Sorting.Sorted Structures.OrderedTypeEx.
From stdpp Require Import gmap strings list fin_maps.

Local Open Scope string_scope.
Local Open Scope Z_scope.

(** ** Exceptions and outcomes *)

(** The exceptions the headers throw; [what] gives the message of the
    [std::runtime_error]. *)
Inductive error : Type :=
  | Unterminated_string
  | Unexpected_char (c : ascii)
  | Expected_rparen
  | Unexpected_token_in_primary
  | Stod_failure
  | Unknown_var (name : string)
  | Unknown_property (name : string)
  | Non_numeric
  | Unknown_comparison_op
  | Expected_leaf
  | Invalid_leaf
  | No_current_state
  | No_current_phase
  | Phase_edge_to_unknown_phase (to : string)
  | Duplicate_node_id (id : string)
  | Edge_references_unknown_node
  | Missing_phases_array
  | Duplicate_phase_id (id : string)
  | Phase_edge_references_unknown_phase
  | Unsupported_value_type
  | Unsupported_action_value_type
  | Json_exception.

Definition what (e : error) : string :=
  match e with
  | Unterminated_string => "Unterminated string literal"
  | Unexpected_char c => "Unexpected char: " +:+ String c EmptyString
  | Expected_rparen => "Expected ')'"
  | Unexpected_token_in_primary => "Unexpected token in primary"
  | Stod_failure => "stod"
  | Unknown_var name => "Unknown var: " +:+ name
  | Unknown_property name => "Unknown property: " +:+ name
  | Non_numeric => "Non-numeric in numeric comparison"
  | Unknown_comparison_op => "Unknown comparison op"
  | Expected_leaf => "Expected leaf"
  | Invalid_leaf => "Invalid leaf"
  | No_current_state => "No current state"
  | No_current_phase => "No current phase"
  | Phase_edge_to_unknown_phase to => "Phase edge to unknown phase: " +:+ to
  | Duplicate_node_id id => "Duplicate node id: " +:+ id
  | Edge_references_unknown_node => "Edge references unknown node"
  | Missing_phases_array => "Missing phases array"
  | Duplicate_phase_id id => "Duplicate phase id: " +:+ id
  | Phase_edge_references_unknown_phase => "Phase edge references unknown phase"
  | Unsupported_value_type => "Unsupported value type"
  | Unsupported_action_value_type => "Unsupported action value type"
  | Json_exception => "json"
  end.

(** The runtime evaluation errors of the expression evaluator: an unknown
    name used as a comparison operand and a non-numeric operand of an
    ordering comparison. *)
Definition is_eval_error (e : error) : bool :=
  match e with
  | Unknown_var _ | Unknown_property _ | Non_numeric => true
  | _ => false
  end.

(** [Ret a]: the call returns [a].  [Throw e]: it throws.  [Undefined]: it
    indexes a vector out of range, which C++ leaves undefined. *)
Inductive outcome (A : Type) : Type :=
  | Ret (a : A)
  | Throw (e : error)
  | Undefined.
Arguments Ret {A} a.
Arguments Throw {A} e.
Arguments Undefined {A}.

Definition bind {A B : Type} (m : outcome A) (k : A -> outcome B) : outcome B :=
  match m with
  | Ret a => k a
  | Throw e => Throw e
  | Undefined => Undefined
  end.

Notation "x <- m ;; k" := (bind m (fun x => k))
  (at level 100, m at next level, right associativity).

(** A member function is a computation on its object: it returns an
    outcome and the object as it leaves it. *)
Definition M (S A : Type) : Type := S -> outcome A * S.

Definition mret {S A : Type} (a : A) : M S A := fun s => (Ret a, s).
Definition lift {S A : Type} (o : outcome A) : M S A := fun s => (o, s).
Definition gets {S A : Type} (f : S -> A) : M S A := fun s => (Ret (f s), s).
Definition modify {S : Type} (f : S -> S) : M S unit := fun s => (Ret tt, f s).
Definition mbind {S A B : Type} (m : M S A) (k : A -> M S B) : M S B :=
  fun s =>
    match m s with
    | (Ret a, s') => k a s'
    | (Throw e, s') => (Throw e, s')
    | (Undefined, s') => (Undefined, s')
    end.

Notation "x <~ m ;; k" := (mbind m (fun x => k))
  (at level 100, m at next level, right associativity).

(** [for (auto& x : l) body(x);] *)
Fixpoint for_each {S A : Type} (body : A -> M S unit) (l : list A) : M S unit :=
  match l with
  | [] => mret tt
  | x :: l' => _ <~ body x ;; for_each body l'
  end.

(** [v[i]] on a [std::vector]: undefined when out of range. *)
Definition at_index {A : Type} (v : list A) (i : nat) : outcome A :=
  match v !! i with
  | Some x => Ret x
  | None => Undefined
  end.

(** ** value.hpp *)

Definition double : Set := spec_float.

Inductive Value : Type :=
  | VInt (i : Z)            (* int64_t, index 0 *)
  | VDouble (d : double)    (* double, index 1 *)
  | VBool (b : bool)        (* bool, index 2 *)
  | VString (s : string).   (* std::string, index 3 *)

Definition index (v : Value) : nat :=
  match v with VInt _ => 0 | VDouble _ => 1 | VBool _ => 2 | VString _ => 3 end%nat.

(** [static_cast<double>(int64_t)]: round to nearest, ties to even. *)
Definition double_of_int (i : Z) : double := binary_normalize 53 1024 i 0 false.

Definition dzero : double := S754_zero false.

(** The comparison operators of C++ on [double]. *)
Definition deq (a b : double) : bool := SFeqb a b.
Definition dlt (a b : double) : bool := SFltb a b.
Definition dle (a b : double) : bool := SFleb a b.

(** The doubles on which [==] is not identity of the contents: a NaN
    equals nothing and the two zeros are equal. *)
Definition is_nan_or_zero (d : double) : bool :=
  match d with
  | S754_nan | S754_zero _ => true
  | _ => false
  end.

(** [std::string::substr(pos)] for [pos <= size]. *)
Fixpoint substr_from (pos : nat) (s : string) : string :=
  match pos, s with
  | O, _ => s
  | S p, String _ s' => substr_from p s'
  | S _, EmptyString => EmptyString
  end.

(** ** node.hpp *)

Module DefaultNode.
Record t : Type := mk {
  id : string;
  params : gmap string Value;
  vars : gmap string Value;
  properties : gmap string Value
}.

Definition hasParam (k : string) (n : t) : bool := bool_decide (is_Some (params n !! k)).
Definition getParam (k : string) (n : t) : option Value := params n !! k.
Definition hasVar (k : string) (n : t) : bool := bool_decide (is_Some (vars n !! k)).
Definition getVar (k : string) (n : t) : option Value := vars n !! k.
Definition setVar (k : string) (v : Value) (n : t) : t :=
  mk (id n) (params n) (<[k := v]> (vars n)) (properties n).
Definition hasProperty (k : string) (n : t) : bool :=
  bool_decide (is_Some (properties n !! k)).
Definition getProperty (k : string) (n : t) : option Value := properties n !! k.
End DefaultNode.

(** ** expression.hpp: the tree and its evaluator *)

Inductive ASTType : Set := IDENT | NUMBER | STRING | BOOLEAN.

Record ASTValue : Type := mkAST {
  type : ASTType;
  text : string;
  num : double;
  b : bool
}.

Inductive ExprNode : Type :=
  | LEAF (leaf : ASTValue)
  | NOT (left : ExprNode)
  | AND (left right : ExprNode)
  | OR (left right : ExprNode)
  | CMP (cmpOp : string) (left right : ExprNode).

Definition has_properties_prefix (text : string) : bool :=
  String.eqb (substring 0 11 text) "properties.".

(** The lookup both [eval] and [extractLeaf] perform for an identifier. *)
Definition lookup_ident (text : string) (node : DefaultNode.t) : option Value :=
  if has_properties_prefix text
  then DefaultNode.getProperty (substr_from 11 text) node
  else DefaultNode.getVar text node.

Definition toNumberPromote (v : Value) : outcome double :=
  match v with
  | VInt i => Ret (double_of_int i)
  | VDouble d => Ret d
  | _ => Throw Non_numeric
  end.

Definition is_numeric (v : Value) : bool :=
  match v with VInt _ | VDouble _ => true | _ => false end.

(** [a==b] of two variants holding the same alternative. *)
Definition variant_eq (a b : Value) : bool :=
  match a, b with
  | VInt x, VInt y => Z.eqb x y
  | VDouble x, VDouble y => deq x y
  | VBool x, VBool y => Bool.eqb x y
  | VString x, VString y => String.eqb x y
  | _, _ => false
  end.

Definition valueEquals (a b : Value) : bool :=
  if negb (Nat.eqb (index a) (index b)) then
    if is_numeric a && is_numeric b then
      match toNumberPromote a, toNumberPromote b with
      | Ret x, Ret y => deq x y
      | _, _ => false
      end
    else false
  else variant_eq a b.

(** The exception [extractLeaf] throws for an identifier that is bound
    nowhere. *)
Definition unknown_name (name : string) : error :=
  if has_properties_prefix name
  then Unknown_property (substr_from 11 name)
  else Unknown_var name.

Definition extractLeaf (n : ExprNode) (node : DefaultNode.t) : outcome Value :=
  match n with
  | LEAF leaf =>
      match type leaf with
      | BOOLEAN => Ret (VBool (b leaf))
      | NUMBER => Ret (VDouble (num leaf))
      | STRING => Ret (VString (text leaf))
      | IDENT =>
          match lookup_ident (text leaf) node with
          | Some v => Ret v
          | None =>
              if has_properties_prefix (text leaf)
              then Throw (Unknown_property (substr_from 11 (text leaf)))
              else Throw (Unknown_var (text leaf))
          end
      end
  | _ => Throw Expected_leaf
  end.

(** The truth value [eval] gives to the value bound to an identifier. *)
Definition truthy (v : Value) : bool :=
  match v with
  | VBool x => x
  | VInt x => negb (Z.eqb x 0)
  | VDouble x => negb (deq x dzero)
  | VString x => negb (String.eqb x "")
  end.

Definition compare (cmpOp : string) (lv rv : Value) : outcome bool :=
  if String.eqb cmpOp "==" || String.eqb cmpOp "!=" then
    let eq := valueEquals lv rv in
    Ret (if String.eqb cmpOp "==" then eq else negb eq)
  else
    ln <- toNumberPromote lv ;;
    rn <- toNumberPromote rv ;;
    if String.eqb cmpOp "<" then Ret (dlt ln rn)
    else if String.eqb cmpOp "<=" then Ret (dle ln rn)
    else if String.eqb cmpOp ">" then Ret (dlt rn ln)
    else if String.eqb cmpOp ">=" then Ret (dle rn ln)
    else Throw Unknown_comparison_op.

Fixpoint eval (n : ExprNode) (node : DefaultNode.t) : outcome bool :=
  match n with
  | LEAF leaf =>
      match type leaf with
      | BOOLEAN => Ret (b leaf)
      | NUMBER => Ret (negb (deq (num leaf) dzero))
      | STRING => Ret (negb (String.eqb (text leaf) ""))
      | IDENT =>
          match lookup_ident (text leaf) node with
          | None => Ret false
          | Some v => Ret (truthy v)
          end
      end
  | NOT lhs => r <- eval lhs node ;; Ret (negb r)
  | AND lhs rhs =>
      l <- eval lhs node ;; if l then eval rhs node else Ret false
  | OR lhs rhs =>
      l <- eval lhs node ;; if l then Ret true else eval rhs node
  | CMP cmpOp lhs rhs =>
      lv <- match lhs with
            | LEAF _ => extractLeaf lhs node
            | _ => r <- eval lhs node ;; Ret (VBool r)
            end ;;
      rv <- match rhs with
            | LEAF _ => extractLeaf rhs node
            | _ => r <- eval rhs node ;; Ret (VBool r)
            end ;;
      compare cmpOp lv rv
  end.

Definition extractValue (n : ExprNode) (node : DefaultNode.t) : outcome Value :=
  match n with
  | LEAF _ => extractLeaf n node
  | _ => r <- eval n node ;; Ret (VBool r)
  end.

(** ** expression.hpp: the lexer *)

Inductive TokKind : Set := ID | NUM | STR | BOOL | OP | LP | RP | END.

Definition TokKind_eqb (x y : TokKind) : bool :=
  match x, y with
  | ID, ID | NUM, NUM | STR, STR | BOOL, BOOL
  | OP, OP | LP, LP | RP, RP | END, END => true
  | _, _ => false
  end.

Module Token.
Record t : Type := mk { kind : TokKind; text : string }.
End Token.

(** [<cctype>] in the "C" locale, on [unsigned char]. *)
Definition char_in (lo hi : N) (c : ascii) : bool :=
  (N.leb lo (N_of_ascii c) && N.leb (N_of_ascii c) hi)%N.

Definition isspace (c : ascii) : bool := char_in 9 13 c || N.eqb (N_of_ascii c) 32.
Definition isdigit (c : ascii) : bool := char_in 48 57 c.
Definition isalpha (c : ascii) : bool := char_in 65 90 c || char_in 97 122 c.
Definition isalnum (c : ascii) : bool := isalpha c || isdigit c.

(** The double quote that delimits a string literal. *)
Definition dquote : ascii := ascii_of_nat 34.

Module Lexer.
(** The lexer reads [s] from index [i] on; its state is the unread
    suffix [s.substr(i)]. *)

Fixpoint skip_space (s : string) : string :=
  match s with
  | String c s' => if isspace c then skip_space s' else s
  | EmptyString => s
  end.

(** [while (i<s.size() && p(s[i])) ++i]: the characters passed over and
    what follows them. *)
Fixpoint scan (p : ascii -> bool) (s : string) : string * string :=
  match s with
  | String c s' =>
      if p c then let '(w, r) := scan p s' in (String c w, r)
      else (EmptyString, s)
  | EmptyString => (EmptyString, EmptyString)
  end.

(** The body of a string literal up to the closing quote, and what
    follows the quote; [None] when no quote closes it. *)
Fixpoint scan_quote (s : string) : option (string * string) :=
  match s with
  | String c s' =>
      if Ascii.eqb c dquote then Some (EmptyString, s')
      else match scan_quote s' with
           | Some (w, r) => Some (String c w, r)
           | None => None
           end
  | EmptyString => None
  end.

Definition ident_char (c : ascii) : bool :=
  isalnum c || Ascii.eqb c "_" || Ascii.eqb c ".".
Definition number_char (c : ascii) : bool :=
  isdigit c || Ascii.eqb c ".".

Definition match2 (a b : ascii) (s : string) : bool :=
  match s with
  | String x (String y _) => Ascii.eqb x a && Ascii.eqb y b
  | _ => false
  end.

Definition next (s : string) : outcome (Token.t * string) :=
  match skip_space s with
  | EmptyString => Ret (Token.mk END "", EmptyString)
  | String c s' as s0 =>
      if isalpha c || Ascii.eqb c "_" then
        let '(w, r) := scan ident_char s' in
        let id := String c w in
        if String.eqb id "true" || String.eqb id "false"
        then Ret (Token.mk BOOL id, r)
        else Ret (Token.mk ID id, r)
      else if isdigit c then
        let '(w, r) := scan number_char s' in
        Ret (Token.mk NUM (String c w), r)
      else if Ascii.eqb c dquote then
        match scan_quote s' with
        | None => Throw Unterminated_string
        | Some (str, r) => Ret (Token.mk STR str, r)
        end
      else if match2 "&" "&" s0 then Ret (Token.mk OP "&&", substr_from 2 s0)
      else if match2 "|" "|" s0 then Ret (Token.mk OP "||", substr_from 2 s0)
      else if match2 "=" "=" s0 then Ret (Token.mk OP "==", substr_from 2 s0)
      else if match2 "!" "=" s0 then Ret (Token.mk OP "!=", substr_from 2 s0)
      else if match2 "<" "=" s0 then Ret (Token.mk OP "<=", substr_from 2 s0)
      else if match2 ">" "=" s0 then Ret (Token.mk OP ">=", substr_from 2 s0)
      else if Ascii.eqb c "<" || Ascii.eqb c ">" || Ascii.eqb c "!"
      then Ret (Token.mk OP (String c EmptyString), s')
      else if Ascii.eqb c "(" then Ret (Token.mk LP "(", s')
      else if Ascii.eqb c ")" then Ret (Token.mk RP ")", s')
      else Throw (Unexpected_char c)
  end.
End Lexer.

(** ** expression.hpp: the parser *)

(** The recursive descent of [Parser] is written with a bound [fuel] on
    the depth of its calls; [None] says the bound was reached.
    [parse_result] is the result of one parsing function: the tree and
    the parser as the call leaves it. *)
Module Parser.
Record t : Type := mk { lex : string; cur : Token.t }.

Definition size (p : t) : nat :=
  (String.length (lex p) +
   if TokKind_eqb (Token.kind (cur p)) END then 0 else 1)%nat.

(** [cur=lex.next()] *)
Definition advance (p : t) : outcome t :=
  x <- Lexer.next (lex p) ;; Ret (mk (snd x) (fst x)).

(** The constructor: [lex(s)], then [cur=lex.next()]. *)
Definition make (s : string) : outcome t :=
  x <- Lexer.next s ;; Ret (mk (snd x) (fst x)).

Definition consume (k : TokKind) (msg : error) (p : t) : outcome t :=
  if negb (TokKind_eqb (Token.kind (cur p)) k) then Throw msg else advance p.

Definition isOp (op : string) (p : t) : bool :=
  TokKind_eqb (Token.kind (cur p)) OP && String.eqb (Token.text (cur p)) op.

Definition is_cmp_op (p : t) : bool :=
  TokKind_eqb (Token.kind (cur p)) OP &&
  let x := Token.text (cur p) in
  (String.eqb x "==" || String.eqb x "!=" || String.eqb x "<" ||
   String.eqb x "<=" || String.eqb x ">" || String.eqb x ">=").

Definition parse_result : Type := option (outcome (ExprNode * t)).

Definition pbind (m : parse_result) (k : ExprNode -> t -> parse_result)
  : parse_result :=
  match m with
  | Some (Ret (e, p)) => k e p
  | Some (Throw x) => Some (Throw x)
  | Some Undefined => Some Undefined
  | None => None
  end.

(** A call of the lexer or of [std::stod] inside a parsing function. *)
Definition lbind {A : Type} (m : outcome A) (k : A -> parse_result)
  : parse_result :=
  match m with
  | Ret a => k a
  | Throw x => Some (Throw x)
  | Undefined => Some Undefined
  end.

(** [std::make_unique<ExprNode>()] leaves [leaf] value-initialised. *)
Definition leaf0 : ASTValue := mkAST IDENT "" dzero false.

Section WithStod.
(** [std::stod], which throws [std::out_of_range] when the value does
    not fit a [double]. *)
Variable stod : string -> outcome double.

Fixpoint parseOr (fuel : nat) (p : t) : parse_result :=
  match fuel with
  | O => None
  | S n => pbind (parseAnd n p) (fun left p1 => parseOr_loop n left p1)
  end
with parseOr_loop (fuel : nat) (left : ExprNode) (p : t) : parse_result :=
  match fuel with
  | O => None
  | S n =>
      if isOp "||" p then
        lbind (advance p) (fun p1 =>
        pbind (parseAnd n p1) (fun right p2 =>
        parseOr_loop n (OR left right) p2))
      else Some (Ret (left, p))
  end
with parseAnd (fuel : nat) (p : t) : parse_result :=
  match fuel with
  | O => None
  | S n => pbind (parseNot n p) (fun left p1 => parseAnd_loop n left p1)
  end
with parseAnd_loop (fuel : nat) (left : ExprNode) (p : t) : parse_result :=
  match fuel with
  | O => None
  | S n =>
      if isOp "&&" p then
        lbind (advance p) (fun p1 =>
        pbind (parseNot n p1) (fun right p2 =>
        parseAnd_loop n (AND left right) p2))
      else Some (Ret (left, p))
  end
with parseNot (fuel : nat) (p : t) : parse_result :=
  match fuel with
  | O => None
  | S n =>
      if isOp "!" p then
        lbind (advance p) (fun p1 =>
        pbind (parseNot n p1) (fun child p2 =>
        Some (Ret (NOT child, p2))))
      else parseCmp n p
  end
with parseCmp (fuel : nat) (p : t) : parse_result :=
  match fuel with
  | O => None
  | S n =>
      pbind (parsePrimary n p) (fun left p1 =>
      if is_cmp_op p1 then
        let op := Token.text (cur p1) in
        lbind (advance p1) (fun p2 =>
        pbind (parsePrimary n p2) (fun right p3 =>
        Some (Ret (CMP op left right, p3))))
      else Some (Ret (left, p1)))
  end
with parsePrimary (fuel : nat) (p : t) : parse_result :=
  match fuel with
  | O => None
  | S n =>
      match Token.kind (cur p) with
      | LP =>
          lbind (advance p) (fun p1 =>
          pbind (parseOr n p1) (fun e p2 =>
          lbind (consume RP Expected_rparen p2) (fun p3 =>
          Some (Ret (e, p3)))))
      | BOOL =>
          let n0 := mkAST BOOLEAN (text leaf0) (num leaf0)
                          (String.eqb (Token.text (cur p)) "true") in
          lbind (advance p) (fun p1 => Some (Ret (LEAF n0, p1)))
      | NUM =>
          lbind (stod (Token.text (cur p))) (fun x =>
          let n0 := mkAST NUMBER (text leaf0) x (b leaf0) in
          lbind (advance p) (fun p1 => Some (Ret (LEAF n0, p1))))
      | STR =>
          let n0 := mkAST STRING (Token.text (cur p)) (num leaf0) (b leaf0) in
          lbind (advance p) (fun p1 => Some (Ret (LEAF n0, p1)))
      | ID =>
          let n0 := mkAST IDENT (Token.text (cur p)) (num leaf0) (b leaf0) in
          lbind (advance p) (fun p1 => Some (Ret (LEAF n0, p1)))
      | _ => Some (Throw Unexpected_token_in_primary)
      end
  end.

(** Enough for every parser of that [size]: see [parseOr_terminates]. *)
Definition fuel_of (p : t) : nat := (5 * size p + 5)%nat.

Definition parse (p : t) : parse_result := parseOr (fuel_of p) p.
End WithStod.
End Parser.

(** What the termination argument records of a parsing call on [p]: it
    has a result, and a parser it returns has less input left than [p]
    ([smaller]) or no more ([not_larger]). *)
Definition smaller (p : Parser.t) (r : Parser.parse_result) : Prop :=
  match r with
  | Some (Ret (_, q)) => (Parser.size q < Parser.size p)%nat
  | Some _ => True
  | None => False
  end.

Definition not_larger (p : Parser.t) (r : Parser.parse_result) : Prop :=
  match r with
  | Some (Ret (_, q)) => (Parser.size q <= Parser.size p)%nat
  | Some _ => True
  | None => False
  end.

(** The fuel that is enough for each parsing function on a parser of
    size at most [m]. *)
Definition fuel_enough (stod : string -> outcome double) (m : nat) : Prop :=
  forall p, (Parser.size p <= m)%nat ->
    (forall n, (5 * m + 1 <= n)%nat -> smaller p (Parser.parsePrimary stod n p)) /\
    (forall n, (5 * m + 2 <= n)%nat -> smaller p (Parser.parseCmp stod n p)) /\
    (forall n, (5 * m + 3 <= n)%nat -> smaller p (Parser.parseNot stod n p)) /\
    (forall n left, (5 * m + 1 <= n)%nat ->
       not_larger p (Parser.parseAnd_loop stod n left p)) /\
    (forall n, (5 * m + 4 <= n)%nat -> smaller p (Parser.parseAnd stod n p)) /\
    (forall n left, (5 * m + 1 <= n)%nat ->
       not_larger p (Parser.parseOr_loop stod n left p)) /\
    (forall n, (5 * m + 5 <= n)%nat -> smaller p (Parser.parseOr stod n p)).

(** More fuel does not change a result. *)
Definition fuel_monotone (stod : string -> outcome double) (n : nat) : Prop :=
  forall k, (n <= k)%nat ->
    (forall p r, Parser.parsePrimary stod n p = Some r ->
                 Parser.parsePrimary stod k p = Some r) /\
    (forall p r, Parser.parseCmp stod n p = Some r ->
                 Parser.parseCmp stod k p = Some r) /\
    (forall p r, Parser.parseNot stod n p = Some r ->
                 Parser.parseNot stod k p = Some r) /\
    (forall left p r, Parser.parseAnd_loop stod n left p = Some r ->
                      Parser.parseAnd_loop stod k left p = Some r) /\
    (forall p r, Parser.parseAnd stod n p = Some r ->
                 Parser.parseAnd stod k p = Some r) /\
    (forall left p r, Parser.parseOr_loop stod n left p = Some r ->
                      Parser.parseOr_loop stod k left p = Some r) /\
    (forall p r, Parser.parseOr stod n p = Some r ->
                 Parser.parseOr stod k p = Some r).

(** A token that continues an expression which is complete before it: a
    binary operator. *)
Definition continues_expression (tok : Token.t) : bool :=
  let p := Parser.mk EmptyString tok in
  Parser.isOp "||" p || Parser.isOp "&&" p || Parser.is_cmp_op p.

(** The parser on the input [s ++ " " ++ t] that corresponds to the parser
    [p] on the input [s], where [tok_t] is the first token of [t] and [r_t]
    what follows it: the same current token with [" " ++ t] after the unread
    input or, when [p] is at the end of [s], the first token of [t]. *)
Definition follows (t r_t : string) (tok_t : Token.t) (p p' : Parser.t) : Prop :=
  if TokKind_eqb (Token.kind (Parser.cur p)) END
  then p' = Parser.mk r_t tok_t
  else p' = Parser.mk (Parser.lex p ++ String " " t) (Parser.cur p).

(** A parsing function that returns a tree on [p] returns the same tree on
    a parser that follows [p], and the parsers they return correspond. *)
Definition simulated (t r_t : string) (tok_t : Token.t)
    (f : Parser.t -> Parser.parse_result) : Prop :=
  forall p p' e q, follows t r_t tok_t p p' -> f p = Some (Ret (e, q)) ->
    exists q', f p' = Some (Ret (e, q')) /\ follows t r_t tok_t q q'.

(** [compileExpression]: construct the parser (which reads the first
    token) and [parse].  The fuel never runs out
    ([parseOr_terminates]), so the last case is never taken. *)
Definition compileExpression (stod : string -> outcome double) (expr : string)
  : outcome ExprNode :=
  p <- Parser.make expr ;;
  match Parser.parse stod p with
  | Some r => x <- r ;; Ret (fst x)
  | None => Undefined
  end.

(** [std::stod] on the number tokens of the lexer: digits with dots
    among them, starting with a digit.  The token is read up to a second
    dot, as [strtod] does.  The digits [n] with [k] of them after the dot
    stand for [n / 10^k]; the result is the double nearest to it (ties to
    even), and [std::out_of_range], whose message is [stod], where
    [strtod] reports [ERANGE]: when the value overflows, and when the
    result is zero or subnormal and not exact.

    [round_decimal] computes the quotient with [1100 + 4k] binary digits
    after the point and one more below them, set when the division leaves
    a remainder; [binary_normalize] rounds that to the format, and every
    position it can round at is above the added digit. *)
Definition digit_val (c : ascii) : Z := Z.of_N (N_of_ascii c) - 48.

Fixpoint read_digits (acc : Z) (s : string) : Z * string :=
  match s with
  | String c s' => if isdigit c then read_digits (10 * acc + digit_val c) s' else (acc, s)
  | EmptyString => (acc, s)
  end.

Definition round_decimal (n k : Z) : outcome double :=
  if n =? 0 then Ret (S754_zero false)
  else
    let s := 1100 + 4 * k in
    let q := (n * 2 ^ s) / 10 ^ k in
    let sticky := if (n * 2 ^ s) mod 10 ^ k =? 0 then 0 else 1 in
    match binary_normalize 53 1024 (2 * q + sticky) (- s - 1) false with
    | S754_finite sg m e =>
        if (Z.pos m <? 2 ^ 52) && negb (Z.pos m * 2 ^ (e + s + 1) =? 2 * q + sticky)
        then Throw Stod_failure
        else Ret (S754_finite sg m e)
    | _ => Throw Stod_failure
    end.

Definition stod_short (s : string) : outcome double :=
  let '(ip, r) := read_digits 0 s in
  match r with
  | String "." f =>
      let '(m, r') := read_digits ip f in
      round_decimal m (Z.of_nat (String.length f - String.length r'))
  | _ => round_decimal ip 0
  end.


(** ** json.hpp: the part of [nlohmann::json] the loaders use *)

(** A parsed document; [json.hpp] is the library of that name and not
    among the sources.  [JInt i] is an integer as the parser stores it, a
    [number_integer] or a [number_unsigned]: [-2^63 <= i < 2^64] (an
    integer outside is parsed as a float).  [JObject m] lists the members
    in the order of the document; the object is a [std::map]
    ([Json.members]): it holds one value for a key, the last the document
    gives, and is visited in the order of its keys. *)
#[warnings="-register-all"]
Inductive json : Type :=
  | JNull
  | JBool (b : bool)
  | JInt (i : Z)
  | JFloat (d : double)
  | JString (s : string)
  | JArray (l : list json)
  | JObject (m : list (string * json)).

Module Json.
(** [object[k] = v] on the map in key order ([std::less<std::string>]:
    bytes compared as unsigned). *)
Fixpoint insert_member (k : string) (v : json) (l : list (string * json))
  : list (string * json) :=
  match l with
  | [] => [(k, v)]
  | (k', v') :: l' =>
      match String.compare k k' with
      | Lt => (k, v) :: l
      | Eq => (k, v) :: l'
      | Gt => (k', v') :: insert_member k v l'
      end
  end.

(** The map of an object, from first key to last. *)
Definition members (m : list (string * json)) : list (string * json) :=
  fold_left (fun acc kv => insert_member (fst kv) (snd kv) acc) m [].

Fixpoint assoc (key : string) (m : list (string * json)) : option json :=
  match m with
  | [] => None
  | (k, v) :: m' => if String.eqb k key then Some v else assoc key m'
  end.

Definition contains (key : string) (j : json) : bool :=
  match j with
  | JObject m => bool_decide (is_Some (assoc key (members m)))
  | _ => false
  end.

(** [j.at(key)], and [j[key]] where [contains(key)] guards it. *)
Definition at_ (key : string) (j : json) : outcome json :=
  match j with
  | JObject m =>
      match assoc key (members m) with
      | Some v => Ret v
      | None => Throw Json_exception
      end
  | _ => Throw Json_exception
  end.

(** [j.get<std::string>()] *)
Definition get_string (j : json) : outcome string :=
  match j with JString s => Ret s | _ => Throw Json_exception end.

(** [j.get<int64_t>()] on an integer: a [number_unsigned] from 2^63 on
    is converted to [int64_t], which wraps. *)
Definition get_int64 (i : Z) : Z := (i + 2 ^ 63) mod 2 ^ 64 - 2 ^ 63.

Definition is_array (j : json) : bool :=
  match j with JArray _ => true | _ => false end.

(** What an iteration from [begin()] to [end()] visits: the values of an
    object in key order, each with its key; the elements of an array,
    nothing on null, and any other value itself, once; on these
    [it.key()] throws. *)
Definition entries (j : json) : list (option string * json) :=
  match j with
  | JObject m => map (fun kv => (Some (fst kv), snd kv)) (members m)
  | JArray l => map (fun v => (None, v)) l
  | JNull => []
  | _ => [(None, j)]
  end.

(** The elements a range-for visits: those of an array in its order,
    the values of an object in the order of their keys, nothing on null,
    and any other value itself, once. *)
Definition elements (j : json) : list json :=
  match j with
  | JArray l => l
  | JObject m => map snd (members m)
  | JNull => []
  | _ => [j]
  end.
End Json.

(** [for (it ...) bag[it.key()] = parseValue(it.value());]: the right
    operand of the assignment is evaluated first. *)
Fixpoint fill_bag (parseValue : json -> outcome Value)
    (l : list (option string * json)) (bag : gmap string Value)
  : outcome (gmap string Value) :=
  match l with
  | [] => Ret bag
  | (key, j) :: l' =>
      v <- parseValue j ;;
      k <- match key with Some k => Ret k | None => Throw Json_exception end ;;
      fill_bag parseValue l' (<[k := v]> bag)
  end.

Definition load_bag (parseValue : json -> outcome Value) (key : string) (j : json)
  : outcome (gmap string Value) :=
  if Json.contains key j then
    o <- Json.at_ key j ;;
    fill_bag parseValue (Json.entries o) ∅
  else Ret ∅.

Module NodeJson.
Definition parseValue (j : json) : outcome Value :=
  match j with
  | JInt i => Ret (VInt (Json.get_int64 i))
  | JFloat d => Ret (VDouble d)
  | JBool x => Ret (VBool x)
  | JString s => Ret (VString s)
  | _ => Throw Unsupported_value_type
  end.

Definition from_json (j : json) : outcome DefaultNode.t :=
  i <- Json.at_ "id" j ;;
  id <- Json.get_string i ;;
  params <- load_bag parseValue "params" j ;;
  vars <- load_bag parseValue "vars" j ;;
  properties <- load_bag parseValue "properties" j ;;
  Ret (DefaultNode.mk id params vars properties).
End NodeJson.

(** ** edge.hpp *)

Module DefaultEdge.
Record t : Type := mk {
  from : string;
  to : string;
  condition_expr : string;
  compiled : option ExprNode;
  actions : gmap string Value
}.

Definition parseValue (j : json) : outcome Value :=
  match j with
  | JInt i => Ret (VInt (Json.get_int64 i))
  | JFloat d => Ret (VDouble d)
  | JBool x => Ret (VBool x)
  | JString s => Ret (VString s)
  | _ => Throw Unsupported_action_value_type
  end.

Definition from_json (stod : string -> outcome double) (j : json) : outcome t :=
  f <- (x <- Json.at_ "from" j ;; Json.get_string x) ;;
  t <- (x <- Json.at_ "to" j ;; Json.get_string x) ;;
  c <- (x <- Json.at_ "condition" j ;; Json.get_string x) ;;
  e <- compileExpression stod c ;;
  a <- load_bag parseValue "actions" j ;;
  Ret (mk f t c (Some e) a).

Definition evaluate (e : t) (current : DefaultNode.t) : outcome bool :=
  match compiled e with
  | Some c => eval c current
  | None => Ret true
  end.
End DefaultEdge.

(** ** phase_edge.hpp *)

Module DefaultPhaseEdge.
Record t : Type := mk {
  from : string;
  to : string;
  condition_expr : string;
  compiled : option ExprNode
}.

Definition from_json (stod : string -> outcome double) (j : json) : outcome t :=
  f <- (x <- Json.at_ "from" j ;; Json.get_string x) ;;
  t <- (x <- Json.at_ "to" j ;; Json.get_string x) ;;
  c <- (x <- Json.at_ "condition" j ;; Json.get_string x) ;;
  e <- compileExpression stod c ;;
  Ret (mk f t c (Some e)).

Definition evaluate (e : t) (currentNode : DefaultNode.t) : outcome bool :=
  match compiled e with
  | Some c => eval c currentNode
  | None => Ret false
  end.
End DefaultPhaseEdge.

(** ** state_graph.hpp *)

Module StateGraph.
Record t : Type := mk {
  nodes_ : list DefaultNode.t;
  edges_ : list DefaultEdge.t;
  node_index_ : gmap string nat;
  adjacency_ : list (list nat);
  current_index_ : option nat
}.

Definition empty : t := mk [] [] ∅ [] None.

Definition set_nodes (v : list DefaultNode.t) (g : t) : t :=
  mk v (edges_ g) (node_index_ g) (adjacency_ g) (current_index_ g).
Definition set_edges (v : list DefaultEdge.t) (g : t) : t :=
  mk (nodes_ g) v (node_index_ g) (adjacency_ g) (current_index_ g).
Definition set_node_index (v : gmap string nat) (g : t) : t :=
  mk (nodes_ g) (edges_ g) v (adjacency_ g) (current_index_ g).
Definition set_adjacency (v : list (list nat)) (g : t) : t :=
  mk (nodes_ g) (edges_ g) (node_index_ g) v (current_index_ g).
Definition set_current_index (v : option nat) (g : t) : t :=
  mk (nodes_ g) (edges_ g) (node_index_ g) (adjacency_ g) v.

Definition clear : M t unit := modify (fun _ => empty).

Definition addNode (n : DefaultNode.t) : M t unit :=
  fun g =>
    if bool_decide (is_Some (node_index_ g !! DefaultNode.id n))
    then (Throw (Duplicate_node_id (DefaultNode.id n)), g)
    else
      (Ret tt,
       mk (nodes_ g ++ [n])%list (edges_ g)
          (<[DefaultNode.id n := length (nodes_ g)]> (node_index_ g))
          (adjacency_ g ++ [[]])%list (current_index_ g)).

Definition addEdge (e : DefaultEdge.t) : M t unit :=
  fun g =>
    match node_index_ g !! DefaultEdge.from e, node_index_ g !! DefaultEdge.to e with
    | Some fi, Some _ =>
        let idx := length (edges_ g) in
        let g1 := set_edges (edges_ g ++ [e])%list g in
        match adjacency_ g1 !! fi with
        | Some a => (Ret tt, set_adjacency (<[fi := (a ++ [idx])%list]> (adjacency_ g1)) g1)
        | None => (Undefined, g1)
        end
    | _, _ => (Throw Edge_references_unknown_node, g)
    end.

Definition setInitialState (id : string) : M t bool :=
  fun g =>
    match node_index_ g !! id with
    | None => (Ret false, g)
    | Some i => (Ret true, set_current_index (Some i) g)
    end.

Definition hasCurrentState (g : t) : bool :=
  match current_index_ g with Some _ => true | None => false end.

Definition currentNode (g : t) : outcome DefaultNode.t :=
  match current_index_ g with
  | None => Throw No_current_state
  | Some i => at_index (nodes_ g) i
  end.

Definition currentStateId (g : t) : outcome string :=
  match current_index_ g with
  | None => Throw No_current_state
  | Some i => n <- at_index (nodes_ g) i ;; Ret (DefaultNode.id n)
  end.

(** [node_index_[key]]: [operator[]] adds the key with index 0 when it
    is missing. *)
Definition node_index_subscript (key : string) : M t nat :=
  fun g =>
    match node_index_ g !! key with
    | Some i => (Ret i, g)
    | None => (Ret O, set_node_index (<[key := O]> (node_index_ g)) g)
    end.

(** [for (auto& [k,v]: e.actions) dest.setVar(k,v);] *)
Definition apply_actions (actions : gmap string Value) (dest : DefaultNode.t)
  : DefaultNode.t :=
  map_fold (fun k v n => DefaultNode.setVar k v n) dest actions.

(** The body of the [if (e.evaluate(cur))] of [step]. *)
Definition take (e : DefaultEdge.t) : M t (option string) :=
  i <~ node_index_subscript (DefaultEdge.to e) ;;
  _ <~ modify (set_current_index (Some i)) ;;
  dest <~ (fun g => (at_index (nodes_ g) i, g)) ;;
  let dest' := apply_actions (DefaultEdge.actions e) dest in
  _ <~ modify (fun g => set_nodes (<[i := dest']> (nodes_ g)) g) ;;
  mret (Some (DefaultNode.id dest')).

Fixpoint step_loop (cur : DefaultNode.t) (adj : list nat) : M t (option string) :=
  match adj with
  | [] => mret None
  | edgeIdx :: rest =>
      e <~ (fun g => (at_index (edges_ g) edgeIdx, g)) ;;
      fires <~ lift (DefaultEdge.evaluate e cur) ;;
      if fires : bool then take e else step_loop cur rest
  end.

Definition step : M t (option string) :=
  fun g =>
    match current_index_ g with
    | None => (Ret None, g)
    | Some fromIdx =>
        (cur <~ lift (at_index (nodes_ g) fromIdx) ;;
         adj <~ lift (at_index (adjacency_ g) fromIdx) ;;
         step_loop cur adj) g
    end.

(** [opened] is what the file gives: [None] when the stream does not
    open, otherwise the outcome of [in >> j]. *)
Definition loadFromJson (stod : string -> outcome double)
    (opened : option (outcome json)) : M t bool :=
  match opened with
  | None => mret false
  | Some parsed =>
      j <~ lift parsed ;;
      _ <~ clear ;;
      ns <~ lift (Json.at_ "nodes" j) ;;
      _ <~ for_each (fun nj => n <~ lift (NodeJson.from_json nj) ;; addNode n)
                    (Json.elements ns) ;;
      es <~ lift (Json.at_ "edges" j) ;;
      _ <~ for_each (fun ej => e <~ lift (DefaultEdge.from_json stod ej) ;; addEdge e)
                    (Json.elements es) ;;
      _ <~ modify (fun g => match nodes_ g with
                            | [] => g
                            | _ => set_current_index (Some O) g
                            end) ;;
      mret true
  end.
End StateGraph.

(** Edge [j] of the graph exists and its condition evaluates to [v] on
    [cur]. *)
Definition edge_evaluates (g : StateGraph.t) (cur : DefaultNode.t) (v : bool)
    (j : nat) : Prop :=
  exists e, StateGraph.edges_ g !! j = Some e /\ DefaultEdge.evaluate e cur = Ret v.

(** The destination node after the actions of an edge are written. *)
Definition written (actions : gmap string Value) (dest : DefaultNode.t)
  : DefaultNode.t :=
  DefaultNode.mk (DefaultNode.id dest) (DefaultNode.params dest)
    (actions ∪ DefaultNode.vars dest) (DefaultNode.properties dest).

(** ** multi_phase_state_graph.hpp *)

Module MultiPhaseStateGraph.
Module Phase.
Record t : Type := mk {
  id : string;
  graph : StateGraph.t;
  initial_state : string
}.
Definition set_graph (g : StateGraph.t) (p : t) : t := mk (id p) g (initial_state p).
End Phase.

Record t : Type := mk {
  phases_ : list Phase.t;
  phase_index_ : gmap string nat;
  phase_edges_ : list DefaultPhaseEdge.t;
  phase_adj_ : list (list nat);
  current_phase_ : option nat
}.

Record StepResult : Type := mkStepResult {
  phase_changed : bool;
  state_changed : bool;
  phase_id : string;
  state_id : string
}.

Definition empty : t := mk [] ∅ [] [] None.

Definition set_phases (v : list Phase.t) (mp : t) : t :=
  mk v (phase_index_ mp) (phase_edges_ mp) (phase_adj_ mp) (current_phase_ mp).
Definition set_current_phase (v : option nat) (mp : t) : t :=
  mk (phases_ mp) (phase_index_ mp) (phase_edges_ mp) (phase_adj_ mp) v.

Definition clear : M t unit := modify (fun _ => empty).

(** A member function of [phases_[i].graph] run inside the multi-phase
    graph. *)
Definition on_graph {A : Type} (i : nat) (m : M StateGraph.t A) : M t A :=
  fun mp =>
    match phases_ mp !! i with
    | None => (Undefined, mp)
    | Some ph =>
        let '(o, g) := m (Phase.graph ph) in
        (o, set_phases (<[i := Phase.set_graph g ph]> (phases_ mp)) mp)
    end.

Definition phase_at (i : nat) : M t Phase.t :=
  fun mp => (at_index (phases_ mp) i, mp).

Definition currentPhaseId : M t string :=
  fun mp =>
    match current_phase_ mp with
    | None => (Throw No_current_phase, mp)
    | Some i => (p <~ phase_at i ;; mret (Phase.id p)) mp
    end.

Definition currentStateId : M t string :=
  fun mp =>
    match current_phase_ mp with
    | None => (Throw No_current_phase, mp)
    | Some i => (p <~ phase_at i ;; lift (StateGraph.currentStateId (Phase.graph p))) mp
    end.

Definition currentNode : M t DefaultNode.t :=
  fun mp =>
    match current_phase_ mp with
    | None => (Throw No_current_phase, mp)
    | Some i => (p <~ phase_at i ;; lift (StateGraph.currentNode (Phase.graph p))) mp
    end.

Definition setInitialPhase (phaseId : string) : M t bool :=
  fun mp =>
    match phase_index_ mp !! phaseId with
    | None => (Ret false, mp)
    | Some i =>
        (_ <~ modify (set_current_phase (Some i)) ;;
         p <~ phase_at i ;;
         _ <~ (if negb (String.eqb (Phase.initial_state p) "")
               then on_graph i (StateGraph.setInitialState (Phase.initial_state p))
               else mret false) ;;
         mret true) mp
    end.

(** The body of the [if (pe.evaluate(curNode))] of [step]. *)
Definition switch_phase (pe : DefaultPhaseEdge.t) : M t unit :=
  fun mp =>
    match phase_index_ mp !! DefaultPhaseEdge.to pe with
    | None => (Throw (Phase_edge_to_unknown_phase (DefaultPhaseEdge.to pe)), mp)
    | Some target =>
        (_ <~ modify (set_current_phase (Some target)) ;;
         newPhase <~ phase_at target ;;
         if negb (StateGraph.hasCurrentState (Phase.graph newPhase)) &&
            negb (String.eqb (Phase.initial_state newPhase) "")
         then _ <~ on_graph target
                     (StateGraph.setInitialState (Phase.initial_state newPhase)) ;;
              mret tt
         else mret tt) mp
    end.

(** The loop over [phase_adj_[*current_phase_]]; the result is
    [r.phase_changed]. *)
Fixpoint phase_loop (curNode : DefaultNode.t) (adj : list nat) : M t bool :=
  match adj with
  | [] => mret false
  | peIdx :: rest =>
      pe <~ (fun mp => (at_index (phase_edges_ mp) peIdx, mp)) ;;
      fires <~ lift (DefaultPhaseEdge.evaluate pe curNode) ;;
      if fires : bool
      then _ <~ switch_phase pe ;; mret true
      else phase_loop curNode rest
  end.

Definition step : M t (option StepResult) :=
  fun mp =>
    match current_phase_ mp with
    | None => (Ret None, mp)
    | Some ci =>
        (phase <~ phase_at ci ;;
         prevState <~ lift (StateGraph.currentStateId (Phase.graph phase)) ;;
         ns <~ on_graph ci StateGraph.step ;;
         curNode <~ on_graph ci (fun g => (StateGraph.currentNode g, g)) ;;
         adj <~ (fun mp1 => (at_index (phase_adj_ mp1) ci, mp1)) ;;
         changed <~ phase_loop curNode adj ;;
         pid <~ currentPhaseId ;;
         sid <~ currentStateId ;;
         mret (Some (mkStepResult changed
                       (match ns with Some _ => true | None => false end)
                       pid sid))) mp
    end.

(** The nodes and edges of one element of [j["phases"]], added to the
    graph of the local [Phase p]. *)
Definition load_graph (stod : string -> outcome double) (pj : json)
  : M StateGraph.t unit :=
  _ <~ (if Json.contains "nodes" pj then
          ns <~ lift (Json.at_ "nodes" pj) ;;
          for_each (fun nj => n <~ lift (NodeJson.from_json nj) ;;
                              StateGraph.addNode n)
                   (Json.elements ns)
        else mret tt) ;;
  if Json.contains "edges" pj then
    es <~ lift (Json.at_ "edges" pj) ;;
    for_each (fun ej => e <~ lift (DefaultEdge.from_json stod ej) ;;
                        StateGraph.addEdge e)
             (Json.elements es)
  else mret tt.

(** A computation on a local object, which is dropped when it throws. *)
Definition run_local {S A : Type} (m : M S A) (s : S) : outcome S :=
  match m s with
  | (Ret _, s') => Ret s'
  | (Throw e, _) => Throw e
  | (Undefined, _) => Undefined
  end.

(** The body of the loop over [j["phases"]]. *)
Definition load_phase (stod : string -> outcome double) (pj : json) : M t unit :=
  id <~ lift (x <- Json.at_ "id" pj ;; Json.get_string x) ;;
  _ <~ (fun mp => if bool_decide (is_Some (phase_index_ mp !! id))
                  then (Throw (Duplicate_phase_id id), mp)
                  else (Ret tt, mp)) ;;
  g <~ lift (run_local (load_graph stod pj) StateGraph.empty) ;;
  initial_state <~ lift (if Json.contains "initial_state" pj
                         then x <- Json.at_ "initial_state" pj ;; Json.get_string x
                         else Ret "") ;;
  let g' := if negb (String.eqb initial_state "")
            then snd (StateGraph.setInitialState initial_state g)
            else g in
  modify (fun mp =>
    mk (phases_ mp ++ [Phase.mk id g' initial_state])%list
       (<[id := length (phases_ mp)]> (phase_index_ mp))
       (phase_edges_ mp)
       (phase_adj_ mp ++ [[]])%list
       (current_phase_ mp)).

(** The body of the loop over [j["phase_edges"]]. *)
Definition load_phase_edge (stod : string -> outcome double) (fe : json)
  : M t unit :=
  edge <~ lift (DefaultPhaseEdge.from_json stod fe) ;;
  fun mp =>
    match phase_index_ mp !! DefaultPhaseEdge.from edge,
          phase_index_ mp !! DefaultPhaseEdge.to edge with
    | Some fi, Some _ =>
        let idx := length (phase_edges_ mp) in
        let mp1 := mk (phases_ mp) (phase_index_ mp)
                      (phase_edges_ mp ++ [edge])%list
                      (phase_adj_ mp) (current_phase_ mp) in
        match phase_adj_ mp1 !! fi with
        | Some a =>
            (Ret tt,
             mk (phases_ mp1) (phase_index_ mp1) (phase_edges_ mp1)
                (<[fi := (a ++ [idx])%list]> (phase_adj_ mp1)) (current_phase_ mp1))
        | None => (Undefined, mp1)
        end
    | _, _ => (Throw Phase_edge_references_unknown_phase, mp)
    end.

(** [opened] is what the file gives: [None] when the stream does not
    open, otherwise the outcome of [in >> j]. *)
Definition loadFromJson (stod : string -> outcome double)
    (opened : option (outcome json)) : M t bool :=
  _ <~ clear ;;
  match opened with
  | None => mret false
  | Some parsed =>
      j <~ lift parsed ;;
      ps <~ lift (if negb (Json.contains "phases" j) then Throw Missing_phases_array
                  else x <- Json.at_ "phases" j ;;
                       if negb (Json.is_array x) then Throw Missing_phases_array
                       else Ret x) ;;
      _ <~ for_each (load_phase stod) (Json.elements ps) ;;
      _ <~ (if Json.contains "phase_edges" j then
              es <~ lift (Json.at_ "phase_edges" j) ;;
              for_each (load_phase_edge stod) (Json.elements es)
            else mret tt) ;;
      _ <~ (fun mp =>
              match phases_ mp with
              | [] => (Ret tt, mp)
              | p :: _ =>
                  (_ <~ modify (set_current_phase (Some O)) ;;
                   if negb (StateGraph.hasCurrentState (Phase.graph p)) &&
                      negb (String.eqb (Phase.initial_state p) "")
                   then _ <~ on_graph O
                               (StateGraph.setInitialState (Phase.initial_state p)) ;;
                        mret tt
                   else mret tt) mp
              end) ;;
      mret true
  end.
End MultiPhaseStateGraph.

(** The multi-phase graph with the graph of phase [i] replaced. *)
Definition with_phase_graph (i : nat) (g : StateGraph.t)
    (mp : MultiPhaseStateGraph.t) : MultiPhaseStateGraph.t :=
  match MultiPhaseStateGraph.phases_ mp !! i with
  | Some ph =>
      MultiPhaseStateGraph.set_phases
        (<[i := MultiPhaseStateGraph.Phase.set_graph g ph]>
           (MultiPhaseStateGraph.phases_ mp)) mp
  | None => mp
  end.

(** A computation that keeps a property of its object, however it ends. *)
Definition preserves {S A : Type} (P : S -> Prop) (m : M S A) : Prop :=
  forall s, P s -> P (snd (m s)).

(** Phase [ia] of the multi-phase graph is [pa]. *)
Definition phase_is (ia : nat) (pa : MultiPhaseStateGraph.Phase.t)
    (mp : MultiPhaseStateGraph.t) : Prop :=
  MultiPhaseStateGraph.phases_ mp !! ia = Some pa.

(** [steps_outside ia mp mp']: hierarchical steps lead from [mp] to [mp'],
    each taken while a phase other than [ia] is current (the last of them
    may make [ia] current again). *)
Inductive steps_outside (ia : nat)
  : MultiPhaseStateGraph.t -> MultiPhaseStateGraph.t -> Prop :=
  | steps_outside_refl (mp : MultiPhaseStateGraph.t) : steps_outside ia mp mp
  | steps_outside_step (mp mp1 mp2 : MultiPhaseStateGraph.t) (ib : nat)
      (o : outcome (option MultiPhaseStateGraph.StepResult)) :
      MultiPhaseStateGraph.current_phase_ mp = Some ib ->
      ib <> ia ->
      MultiPhaseStateGraph.step mp = (o, mp1) ->
      steps_outside ia mp1 mp2 ->
      steps_outside ia mp mp2.

(** ** Sample configurations *)

Module Sample.
Definition leaf_bool (x : bool) : ExprNode := LEAF (mkAST BOOLEAN "" dzero x).
Definition leaf_ident (name : string) : ExprNode := LEAF (mkAST IDENT name dzero false).
Definition leaf_num (i : Z) : ExprNode := LEAF (mkAST NUMBER "" (double_of_int i) false).

(** A node [A] with [vars.x = 0] and a node [B] with [vars.k = 7]. *)
Definition nodeA : DefaultNode.t :=
  DefaultNode.mk "A" ∅ {["x" := VInt 0]} {["name" := VString "TestNode"]}.
Definition nodeB : DefaultNode.t :=
  DefaultNode.mk "B" ∅ {["k" := VInt 7; "old" := VBool true]} ∅.

(** [A -> B] on [flag] (unbound, so false); [A -> B] on [true] setting
    [k = 1] and [n = "s"]; [A -> A] on [true]. *)
Definition edge0 : DefaultEdge.t :=
  DefaultEdge.mk "A" "B" "flag" (Some (leaf_ident "flag")) ∅.
Definition edge1 : DefaultEdge.t :=
  DefaultEdge.mk "A" "B" "true" (Some (leaf_bool true))
    {["k" := VInt 1; "n" := VString "s"]}.
Definition edge2 : DefaultEdge.t :=
  DefaultEdge.mk "A" "A" "true" (Some (leaf_bool true)) ∅.

Definition graphAB : StateGraph.t :=
  StateGraph.mk [nodeA; nodeB] [edge0; edge1; edge2]
    {["A" := 0%nat; "B" := 1%nat]} [[0; 1; 2]%nat; []] (Some 0%nat).

(** The same graph with only the edge that never fires. *)
Definition graphStuck : StateGraph.t :=
  StateGraph.mk [nodeA; nodeB] [edge0]
    {["A" := 0%nat; "B" := 1%nat]} [[0%nat]; []] (Some 0%nat).

(** The same nodes before any edge is added. *)
Definition graphNodes : StateGraph.t :=
  StateGraph.mk [nodeA; nodeB] [] {["A" := 0%nat; "B" := 1%nat]} [[]; []] None.

(** A phase whose graph has no current node: no [initial_state]. *)
Definition phaseIdle : MultiPhaseStateGraph.Phase.t :=
  MultiPhaseStateGraph.Phase.mk "P" graphNodes "".

Definition mpIdle : MultiPhaseStateGraph.t :=
  MultiPhaseStateGraph.mk [phaseIdle] {["P" := 0%nat]} [] [[]] (Some 0%nat).

(** One phase [P] over [graphAB] with a phase edge [P -> P] on
    [missing > 0], whose operand [missing] is bound nowhere. *)
Definition edgeMissing : DefaultPhaseEdge.t :=
  DefaultPhaseEdge.mk "P" "P" "missing > 0"
    (Some (CMP ">" (leaf_ident "missing") (leaf_num 0))).

Definition mpThrow : MultiPhaseStateGraph.t :=
  MultiPhaseStateGraph.mk [MultiPhaseStateGraph.Phase.mk "P" graphAB "A"]
    {["P" := 0%nat]} [edgeMissing] [[0%nat]] (Some 0%nat).

(** One phase [P] over the nodes [A] and [B] with the node edge [A -> B] on
    [missing > 0], and no phase edge. *)
Definition edgeNodeMissing : DefaultEdge.t :=
  DefaultEdge.mk "A" "B" "missing > 0"
    (Some (CMP ">" (leaf_ident "missing") (leaf_num 0))) {["k" := VInt 1]}.

Definition graphNodeThrow : StateGraph.t :=
  StateGraph.mk [nodeA; nodeB] [edgeNodeMissing]
    {["A" := 0%nat; "B" := 1%nat]} [[0%nat]; []] (Some 0%nat).

Definition mpNodeThrow : MultiPhaseStateGraph.t :=
  MultiPhaseStateGraph.mk [MultiPhaseStateGraph.Phase.mk "P" graphNodeThrow "A"]
    {["P" := 0%nat]} [] [[]] (Some 0%nat).

(** Two phases.  [PA]: [a0 -> a1] on [true], initial state [a0], left
    for [PB] on [go] (bound in [a1]).  [PB]: the node [b0], initial state
    [b0], left for [PA] on [back]. *)
Definition a0 : DefaultNode.t := DefaultNode.mk "a0" ∅ ∅ ∅.
Definition a1 : DefaultNode.t := DefaultNode.mk "a1" ∅ {["go" := VBool true]} ∅.
Definition b0 : DefaultNode.t := DefaultNode.mk "b0" ∅ {["back" := VBool true]} ∅.

Definition graphA : StateGraph.t :=
  StateGraph.mk [a0; a1]
    [DefaultEdge.mk "a0" "a1" "true" (Some (leaf_bool true)) ∅]
    {["a0" := 0%nat; "a1" := 1%nat]} [[0%nat]; []] (Some 0%nat).
Definition graphB : StateGraph.t :=
  StateGraph.mk [b0] [] {["b0" := 0%nat]} [[]] None.

Definition phaseA : MultiPhaseStateGraph.Phase.t :=
  MultiPhaseStateGraph.Phase.mk "PA" graphA "a0".
Definition phaseB : MultiPhaseStateGraph.Phase.t :=
  MultiPhaseStateGraph.Phase.mk "PB" graphB "b0".

Definition mpResume : MultiPhaseStateGraph.t :=
  MultiPhaseStateGraph.mk [phaseA; phaseB] {["PA" := 0%nat; "PB" := 1%nat]}
    [DefaultPhaseEdge.mk "PA" "PB" "go" (Some (leaf_ident "go"));
     DefaultPhaseEdge.mk "PB" "PA" "back" (Some (leaf_ident "back"))]
    [[0%nat]; [1%nat]] (Some 0%nat).

(** After the first step ([PA] left for [PB]) and after the second
    ([PA] entered again). *)
Definition mpLeft : MultiPhaseStateGraph.t := snd (MultiPhaseStateGraph.step mpResume).
Definition mpBack : MultiPhaseStateGraph.t := snd (MultiPhaseStateGraph.step mpLeft).

(** The configuration of two phases [Main] and [Recovery] as a document:
    [Idle -> Active] on [enabled && count >= 0] setting [count = 1],
    [Active -> Active] on [count < 2 && enabled] setting [count = 2],
    [Active -> Error] on [!enabled || count >= 2], and the phase edge
    [Main -> Recovery] on [count >= 2]. *)
Definition node_doc (id : string) (vars : list (string * json)) : json :=
  JObject [("id", JString id); ("vars", JObject vars)].
Definition edge_doc (f t c : string) (acts : list (string * json)) : json :=
  JObject [("from", JString f); ("to", JString t); ("condition", JString c);
           ("actions", JObject acts)].

Definition docMain : json :=
  JObject
    [("phases", JArray
        [JObject
           [("id", JString "Main"); ("initial_state", JString "Idle");
            ("nodes", JArray
               [node_doc "Idle" [("enabled", JBool true); ("count", JInt 0)];
                node_doc "Active" [("enabled", JBool true); ("count", JInt 0)];
                node_doc "Error" []]);
            ("edges", JArray
               [edge_doc "Idle" "Active" "enabled && count >= 0" [("count", JInt 1)];
                edge_doc "Active" "Active" "count < 2 && enabled" [("count", JInt 2)];
                edge_doc "Active" "Error" "!enabled || count >= 2" []])];
         JObject
           [("id", JString "Recovery"); ("initial_state", JString "R0");
            ("nodes", JArray [node_doc "R0" []])]]);
     ("phase_edges", JArray
        [JObject [("from", JString "Main"); ("to", JString "Recovery");
                  ("condition", JString "count >= 2")]])].

Definition mpMain : MultiPhaseStateGraph.t :=
  snd (MultiPhaseStateGraph.loadFromJson stod_short (Some (Ret docMain))
         MultiPhaseStateGraph.empty).
End Sample.

(** ** Well-formed graphs *)

(** The invariant of a [StateGraph]: one adjacency list per node; the
    index maps the id of every node, and nothing else, to its position;
    the endpoints of every edge are indexed; an adjacency list holds
    positions of edges that leave its node; the current index is a
    position of a node. *)
Record StateGraph_wf (g : StateGraph.t) : Prop := {
  wf_adjacency :
    length (StateGraph.adjacency_ g) = length (StateGraph.nodes_ g);
  wf_index : forall id i,
    StateGraph.node_index_ g !! id = Some i ->
    exists n, StateGraph.nodes_ g !! i = Some n /\ DefaultNode.id n = id;
  wf_indexed : forall i n,
    StateGraph.nodes_ g !! i = Some n ->
    StateGraph.node_index_ g !! DefaultNode.id n = Some i;
  wf_edges : forall j e,
    StateGraph.edges_ g !! j = Some e ->
    is_Some (StateGraph.node_index_ g !! DefaultEdge.from e) /\
    is_Some (StateGraph.node_index_ g !! DefaultEdge.to e);
  wf_adj_edges : forall i a j,
    StateGraph.adjacency_ g !! i = Some a -> j ∈ a ->
    exists e, StateGraph.edges_ g !! j = Some e /\
              StateGraph.node_index_ g !! DefaultEdge.from e = Some i;
  wf_current : forall i,
    StateGraph.current_index_ g = Some i ->
    (i < length (StateGraph.nodes_ g))%nat
}.

(** [g.currentNode().setVar(k,v)]: a write of the driver through the
    mutable reference [currentNode()] returns. *)
Definition setCurrentVar (k : string) (v : Value) : M StateGraph.t unit :=
  fun g =>
    match StateGraph.current_index_ g with
    | None => (Throw No_current_state, g)
    | Some i =>
        match StateGraph.nodes_ g !! i with
        | None => (Undefined, g)
        | Some n =>
            (Ret tt,
             StateGraph.set_nodes (<[i := DefaultNode.setVar k v n]> (StateGraph.nodes_ g)) g)
        end
    end.

(** The graphs a program reaches from an empty [StateGraph] through its
    member functions, however each call ends. *)
Inductive built : StateGraph.t -> Prop :=
  | built_empty : built StateGraph.empty
  | built_addNode n g : built g -> built (snd (StateGraph.addNode n g))
  | built_addEdge e g : built g -> built (snd (StateGraph.addEdge e g))
  | built_setInitialState id g :
      built g -> built (snd (StateGraph.setInitialState id g))
  | built_setCurrentVar k v g : built g -> built (snd (setCurrentVar k v g))
  | built_step g : built g -> built (snd (StateGraph.step g))
  | built_clear g : built g -> built (snd (StateGraph.clear g))
  | built_loadFromJson stod opened g :
      built g -> built (snd (StateGraph.loadFromJson stod opened g)).

(** Two nodes that differ at most in their vars. *)
Definition same_but_vars (n n' : DefaultNode.t) : Prop :=
  DefaultNode.id n' = DefaultNode.id n /\
  DefaultNode.params n' = DefaultNode.params n /\
  DefaultNode.properties n' = DefaultNode.properties n.

(** ** Lexemes and parsed trees *)

(** Every character of [s] satisfies [p]. *)
Fixpoint all_chars (p : ascii -> bool) (s : string) : bool :=
  match s with
  | EmptyString => true
  | String c s' => p c && all_chars p s'
  end.

(** [s] is empty or starts with a character that fails [p]. *)
Definition stops_at (p : ascii -> bool) (s : string) : bool :=
  match s with
  | EmptyString => true
  | String c _ => negb (p c)
  end.

Definition not_dquote (c : ascii) : bool := negb (Ascii.eqb c dquote).

(** The characters the lexer read for a token: the text of the token,
    between quotes for a string literal. *)
Definition lexeme (tok : Token.t) : string :=
  match Token.kind tok with
  | STR => String dquote (Token.text tok ++ String dquote EmptyString)
  | _ => Token.text tok
  end.

(** The text of a token is of the form its kind has. *)
Definition token_shape (tok : Token.t) : bool :=
  let x := Token.text tok in
  match Token.kind tok with
  | ID =>
      match x with
      | String c w =>
          (isalpha c || Ascii.eqb c "_") && all_chars Lexer.ident_char w &&
          negb (String.eqb x "true" || String.eqb x "false")
      | EmptyString => false
      end
  | BOOL => String.eqb x "true" || String.eqb x "false"
  | NUM =>
      match x with
      | String c w => isdigit c && all_chars Lexer.number_char w
      | EmptyString => false
      end
  | STR => all_chars not_dquote x
  | OP =>
      String.eqb x "&&" || String.eqb x "||" || String.eqb x "==" ||
      String.eqb x "!=" || String.eqb x "<=" || String.eqb x ">=" ||
      String.eqb x "<" || String.eqb x ">" || String.eqb x "!"
  | LP => String.eqb x "("
  | RP => String.eqb x ")"
  | END => String.eqb x ""
  end.

(** An identifier of the expression language that is not a boolean
    literal. *)
Definition is_identifier (name : string) : bool :=
  match name with
  | String c w =>
      (isalpha c || Ascii.eqb c "_") && all_chars Lexer.ident_char w &&
      negb (String.eqb name "true" || String.eqb name "false")
  | EmptyString => false
  end.

Definition is_cmp_text (op : string) : bool :=
  String.eqb op "==" || String.eqb op "!=" || String.eqb op "<" ||
  String.eqb op "<=" || String.eqb op ">" || String.eqb op ">=".

(** Every comparison of the tree carries one of the six operators. *)
Fixpoint cmp_ops_valid (e : ExprNode) : bool :=
  match e with
  | LEAF _ => true
  | NOT l => cmp_ops_valid l
  | AND l r | OR l r => cmp_ops_valid l && cmp_ops_valid r
  | CMP op l r => is_cmp_text op && cmp_ops_valid l && cmp_ops_valid r
  end.

Definition is_ordering_text (op : string) : bool :=
  String.eqb op "<" || String.eqb op "<=" || String.eqb op ">" || String.eqb op ">=".

(** ** Well-formed multi-phase graphs *)

(** Every condition of the graph's edges is a tree with valid comparison
    operators. *)
Definition conditions_valid (g : StateGraph.t) : Prop :=
  forall j e c, StateGraph.edges_ g !! j = Some e ->
    DefaultEdge.compiled e = Some c -> cmp_ops_valid c = true.

(** The invariant of a [MultiPhaseStateGraph]: every phase has a
    well-formed graph with valid conditions; there is one adjacency list per
    phase; the index maps the id of every phase, and nothing else, to its
    position; the endpoints of every phase edge are indexed and its
    condition is valid; an adjacency list holds positions of phase edges
    that leave its phase; the current phase is a position of a phase. *)
Record MP_wf (mp : MultiPhaseStateGraph.t) : Prop := {
  mwf_graphs : forall i p,
    MultiPhaseStateGraph.phases_ mp !! i = Some p ->
    StateGraph_wf (MultiPhaseStateGraph.Phase.graph p) /\
    conditions_valid (MultiPhaseStateGraph.Phase.graph p);
  mwf_adjacency :
    length (MultiPhaseStateGraph.phase_adj_ mp) =
    length (MultiPhaseStateGraph.phases_ mp);
  mwf_index : forall id i,
    MultiPhaseStateGraph.phase_index_ mp !! id = Some i ->
    exists p, MultiPhaseStateGraph.phases_ mp !! i = Some p /\
              MultiPhaseStateGraph.Phase.id p = id;
  mwf_indexed : forall i p,
    MultiPhaseStateGraph.phases_ mp !! i = Some p ->
    MultiPhaseStateGraph.phase_index_ mp !! MultiPhaseStateGraph.Phase.id p = Some i;
  mwf_edges : forall j pe,
    MultiPhaseStateGraph.phase_edges_ mp !! j = Some pe ->
    is_Some (MultiPhaseStateGraph.phase_index_ mp !! DefaultPhaseEdge.from pe) /\
    is_Some (MultiPhaseStateGraph.phase_index_ mp !! DefaultPhaseEdge.to pe) /\
    (forall c, DefaultPhaseEdge.compiled pe = Some c -> cmp_ops_valid c = true);
  mwf_adj_edges : forall i a j,
    MultiPhaseStateGraph.phase_adj_ mp !! i = Some a -> j ∈ a ->
    exists pe, MultiPhaseStateGraph.phase_edges_ mp !! j = Some pe /\
               MultiPhaseStateGraph.phase_index_ mp !! DefaultPhaseEdge.from pe = Some i;
  mwf_current : forall i,
    MultiPhaseStateGraph.current_phase_ mp = Some i ->
    (i < length (MultiPhaseStateGraph.phases_ mp))%nat
}.

(** A well-formed graph whose conditions are valid trees. *)
Definition graph_ok (g : StateGraph.t) : Prop :=
  StateGraph_wf g /\ conditions_valid g.

(** [mp.currentNode().setVar(k,v)]: a write of the driver through the
    mutable reference [currentNode()] returns. *)
Definition setCurrentVarMP (k : string) (v : Value) : M MultiPhaseStateGraph.t unit :=
  fun mp =>
    match MultiPhaseStateGraph.current_phase_ mp with
    | None => (Throw No_current_phase, mp)
    | Some i => MultiPhaseStateGraph.on_graph i (setCurrentVar k v) mp
    end.

(** The multi-phase graphs a program reaches through the member
    functions, however each call ends.  [loadFromJson] clears the graph
    first, so it starts from any graph. *)
Inductive loaded : MultiPhaseStateGraph.t -> Prop :=
  | loaded_empty : loaded MultiPhaseStateGraph.empty
  | loaded_loadFromJson stod opened mp :
      loaded (snd (MultiPhaseStateGraph.loadFromJson stod opened mp))
  | loaded_setInitialPhase id mp :
      loaded mp -> loaded (snd (MultiPhaseStateGraph.setInitialPhase id mp))
  | loaded_setCurrentVar k v mp : loaded mp -> loaded (snd (setCurrentVarMP k v mp))
  | loaded_step mp : loaded mp -> loaded (snd (MultiPhaseStateGraph.step mp))
  | loaded_clear mp : loaded mp -> loaded (snd (MultiPhaseStateGraph.clear mp)).

(** The graph of a phase as the loader leaves it: its current node is the
    node [initial_state] names, if it is not empty and names one. *)
Definition initial_current (p : MultiPhaseStateGraph.Phase.t) : Prop :=
  StateGraph.current_index_ (MultiPhaseStateGraph.Phase.graph p) =
  if String.eqb (MultiPhaseStateGraph.Phase.initial_state p) ""
  then None
  else StateGraph.node_index_ (MultiPhaseStateGraph.Phase.graph p)
         !! MultiPhaseStateGraph.Phase.initial_state p.

(** The multi-phase graph while the loader reads phases and phase edges:
    no phase is current yet. *)
Definition loading (mp : MultiPhaseStateGraph.t) : Prop :=
  MultiPhaseStateGraph.current_phase_ mp = None /\
  forall i p, MultiPhaseStateGraph.phases_ mp !! i = Some p -> initial_current p.

(** What the stepping functions leave as it is in a graph: the edges, the
    adjacency lists, and the position, id, params and properties of every
    node. *)
Definition graph_static (g g' : StateGraph.t) : Prop :=
  StateGraph.edges_ g' = StateGraph.edges_ g /\
  StateGraph.adjacency_ g' = StateGraph.adjacency_ g /\
  forall i n, StateGraph.nodes_ g !! i = Some n ->
    exists n', StateGraph.nodes_ g' !! i = Some n' /\ same_but_vars n n'.

(** The same of a multi-phase graph: the phase index, the phase edges,
    their adjacency lists, and the position, id and initial state of every
    phase, whose graph keeps what [graph_static] says. *)
Definition MP_static (mp mp' : MultiPhaseStateGraph.t) : Prop :=
  MultiPhaseStateGraph.phase_index_ mp' = MultiPhaseStateGraph.phase_index_ mp /\
  MultiPhaseStateGraph.phase_edges_ mp' = MultiPhaseStateGraph.phase_edges_ mp /\
  MultiPhaseStateGraph.phase_adj_ mp' = MultiPhaseStateGraph.phase_adj_ mp /\
  forall i p, MultiPhaseStateGraph.phases_ mp !! i = Some p ->
    exists p', MultiPhaseStateGraph.phases_ mp' !! i = Some p' /\
      MultiPhaseStateGraph.Phase.id p' = MultiPhaseStateGraph.Phase.id p /\
      MultiPhaseStateGraph.Phase.initial_state p' =
        MultiPhaseStateGraph.Phase.initial_state p /\
      graph_static (MultiPhaseStateGraph.Phase.graph p)
                   (MultiPhaseStateGraph.Phase.graph p').

(** ** More sample configurations *)

Module Scenario.
(** The nodes [A] and [B] of [Sample] added to an empty graph, the edge
    [A -> B] on [true] between them, and [A] made current. *)
Definition builtAB : StateGraph.t :=
  snd (StateGraph.setInitialState "A"
    (snd (StateGraph.addEdge Sample.edge1
      (snd (StateGraph.addNode Sample.nodeB
        (snd (StateGraph.addNode Sample.nodeA StateGraph.empty))))))).

(** A single-graph document: [Idle -> Active] on [count >= 0] setting
    [count = 1]. *)
Definition docGraph : json :=
  JObject
    [("nodes", JArray [Sample.node_doc "Idle" [("count", JInt 0)];
                       Sample.node_doc "Active" []]);
     ("edges", JArray [Sample.edge_doc "Idle" "Active" "count >= 0" [("count", JInt 1)]])].

Definition graphLoaded : StateGraph.t :=
  snd (StateGraph.loadFromJson stod_short (Some (Ret docGraph)) StateGraph.empty).

(** The vars of a node document, one of them the largest unsigned
    integer, and the node read from it. *)
Definition idleVars : list (string * json) :=
  [("enabled", JBool true); ("count", JInt 0); ("mask", JInt 18446744073709551615)].

Definition nodeIdle : DefaultNode.t :=
  DefaultNode.mk "Idle" ∅
    {["enabled" := VBool true; "count" := VInt 0; "mask" := VInt (-1)]} ∅.
End Scenario.

(** ** The order of the members of an object *)

(** [a < b] on keys, as [std::map] compares them. *)
Definition key_lt (a b : string) : Prop := String.compare a b = Lt.

(** The keys of a member list grow strictly. *)
Definition keys_sorted (l : list (string * json)) : Prop :=
  Sorted.StronglySorted key_lt (map fst l).

(** * Properties *)

(** ** The model on the scenarios of the specification *)

Example load_and_two_steps :
  fst (MultiPhaseStateGraph.loadFromJson stod_short (Some (Ret Sample.docMain))
         MultiPhaseStateGraph.empty) = Ret true /\
  fst (MultiPhaseStateGraph.step Sample.mpMain) =
    Ret (Some (MultiPhaseStateGraph.mkStepResult false true "Main" "Active")) /\
  fst (MultiPhaseStateGraph.step (snd (MultiPhaseStateGraph.step Sample.mpMain))) =
    Ret (Some (MultiPhaseStateGraph.mkStepResult true true "Recovery" "R0")).
Proof. vm_compute. repeat split. Qed.

Example properties_name_comparison :
  (e <- compileExpression stod_short
          ("properties.name == " ++ String dquote ("TestNode" ++ String dquote "")) ;;
   eval e Sample.nodeA) = Ret true.
Proof. vm_compute. reflexivity. Qed.

Example numeric_comparisons :
  (e <- compileExpression stod_short "x < 1.5 && x >= 0" ;; eval e Sample.nodeA)
    = Ret true /\
  (e <- compileExpression stod_short "x == 0.0" ;; eval e Sample.nodeA) = Ret true /\
  (e <- compileExpression stod_short "name > 1" ;; eval e Sample.nodeA)
    = Throw (Unknown_var "name") /\
  (e <- compileExpression stod_short "properties.name > 1" ;; eval e Sample.nodeA)
    = Throw Non_numeric.
Proof. vm_compute. repeat split. Qed.

(** ** Strings *)

Lemma substring_prefix_iff (p s : string) :
  substring 0 (String.length p) s = p <-> exists rest, s = (p ++ rest)%string.
Proof.
  revert s. induction p as [|c p IH]; intros s; simpl.
  - split; [intros _; exists s; reflexivity|intros _].
    destruct s; reflexivity.
  - destruct s as [|d s]; simpl.
    + split; [discriminate|intros [rest H]; discriminate].
    + split.
      * intros H. injection H as -> H. apply IH in H as [rest ->].
        exists rest. reflexivity.
      * intros [rest H]. injection H as -> ->. f_equal.
        apply IH. exists rest. reflexivity.
Qed.

Lemma substr_from_app (p rest : string) :
  substr_from (String.length p) (p ++ rest)%string = rest.
Proof. induction p as [|c p IH]; simpl; [destruct rest; reflexivity|exact IH]. Qed.

Lemma has_properties_prefix_iff (name : string) :
  has_properties_prefix name = true <->
  exists rest, name = ("properties." ++ rest)%string.
Proof.
  unfold has_properties_prefix. rewrite String.eqb_eq.
  apply (substring_prefix_iff "properties." name).
Qed.

(** ** The evaluator *)

Lemma extractValue_leaf (a : ASTValue) (node : DefaultNode.t) :
  extractValue (LEAF a) node = extractLeaf (LEAF a) node.
Proof. reflexivity. Qed.

Lemma eval_CMP (op : string) (l r : ExprNode) (node : DefaultNode.t) :
  eval (CMP op l r) node =
  (lv <- extractValue l node ;; rv <- extractValue r node ;; compare op lv rv).
Proof. destruct l, r; reflexivity. Qed.

Lemma lookup_ident_properties (rest : string) (node : DefaultNode.t) :
  lookup_ident ("properties." ++ rest) node = DefaultNode.properties node !! rest.
Proof.
  unfold lookup_ident.
  assert (H : has_properties_prefix ("properties." ++ rest) = true)
    by (apply has_properties_prefix_iff; eauto).
  rewrite H. apply (f_equal (fun s => DefaultNode.properties node !! s)).
  apply (substr_from_app "properties." rest).
Qed.

Lemma lookup_ident_vars (name : string) (node : DefaultNode.t) :
  has_properties_prefix name = false ->
  lookup_ident name node = DefaultNode.vars node !! name.
Proof. unfold lookup_ident. intros ->. reflexivity. Qed.

Lemma unknown_name_is_eval_error (name : string) :
  is_eval_error (unknown_name name) = true.
Proof. unfold unknown_name. destruct (has_properties_prefix name); reflexivity. Qed.

Lemma extractLeaf_unknown (a : ASTValue) (node : DefaultNode.t) :
  type a = IDENT ->
  lookup_ident (text a) node = None ->
  extractLeaf (LEAF a) node = Throw (unknown_name (text a)).
Proof.
  intros Ht H. cbn [extractLeaf]. rewrite Ht, H. unfold unknown_name.
  destruct (has_properties_prefix (text a)); reflexivity.
Qed.

(** C6: an identifier that starts with [properties.] is looked up, without
    that prefix, in the properties of the node, any other identifier in its
    vars; when the name is bound, evaluation gives the truth value of the
    binding and the operand is the binding; when the name is absent,
    evaluation in boolean position returns false, and as the operand of a
    comparison (on either side) it throws the unknown-name error. *)
Theorem ident_leaf_lookup (a : ASTValue) (node : DefaultNode.t) :
  type a = IDENT ->
  (forall rest, text a = ("properties." ++ rest)%string ->
     lookup_ident (text a) node = DefaultNode.properties node !! rest) /\
  ((forall rest, text a <> ("properties." ++ rest)%string) ->
     lookup_ident (text a) node = DefaultNode.vars node !! text a) /\
  (forall v, lookup_ident (text a) node = Some v ->
     eval (LEAF a) node = Ret (truthy v) /\
     extractValue (LEAF a) node = Ret v) /\
  (lookup_ident (text a) node = None ->
     eval (LEAF a) node = Ret false /\
     extractValue (LEAF a) node = Throw (unknown_name (text a)) /\
     (forall op rhs, eval (CMP op (LEAF a) rhs) node = Throw (unknown_name (text a))) /\
     (forall op lhs lv, extractValue lhs node = Ret lv ->
        eval (CMP op lhs (LEAF a)) node = Throw (unknown_name (text a)))).
Proof.
  intros Ht. repeat split.
  - intros rest ->. apply lookup_ident_properties.
  - intros Hno. apply lookup_ident_vars.
    destruct (has_properties_prefix (text a)) eqn:E; [|reflexivity].
    apply has_properties_prefix_iff in E as [rest E]. destruct (Hno rest E).
  - cbn [eval]. rewrite Ht, H. reflexivity.
  - cbn [extractValue extractLeaf]. rewrite Ht, H. reflexivity.
  - cbn [eval]. rewrite Ht, H. reflexivity.
  - apply extractLeaf_unknown; assumption.
  - intros op rhs. rewrite eval_CMP, extractValue_leaf, extractLeaf_unknown by assumption.
    reflexivity.
  - intros op lhs lv Hl.
    rewrite eval_CMP, Hl, extractValue_leaf, extractLeaf_unknown by assumption.
    reflexivity.
Qed.

Lemma deq_identity (x y : double) :
  is_nan_or_zero x = false -> (deq x y = true <-> x = y).
Proof.
  unfold deq, SFeqb.
  destruct x as [s| s | |s m e]; cbn [is_nan_or_zero]; try discriminate; intros _.
  - destruct y as [s'| s' | |s' m' e']; cbn; try (destruct s; split; discriminate).
    destruct s, s'; cbn; split; congruence.
  - destruct y as [s'| s' | |s' m' e']; cbn;
      try (destruct s; split; discriminate);
      try (destruct s'; split; discriminate).
    change (Pos.compare_cont Eq m m') with (Pos.compare m m').
    destruct s, s'; cbn; try (split; discriminate);
      destruct (Z.compare_spec e e') as [->| |]; cbn;
      try (split; [discriminate|intros [= ? ?]; lia]);
      destruct (Pos.compare_spec m m') as [->| |]; cbn;
      try (split; [discriminate|intros [= ?]; lia]);
      split; reflexivity.
Qed.

Lemma deq_sym (x y : double) : deq x y = deq y x.
Proof.
  unfold deq, SFeqb, SFcompare.
  destruct x as [s| s | |s m e], y as [s'| s' | |s' m' e']; try reflexivity;
    try (destruct s; reflexivity); try (destruct s'; reflexivity);
    try (destruct s, s'; reflexivity).
  change (Pos.compare_cont Eq m m') with (Pos.compare m m').
  change (Pos.compare_cont Eq m' m) with (Pos.compare m' m).
  rewrite (Z.compare_antisym e e'), (Pos.compare_antisym m m').
  destruct s, s'; try reflexivity;
    destruct (e ?= e'); cbn; try reflexivity;
    destruct (Pos.compare m m'); reflexivity.
Qed.

(** ** Widening an integer to [double] *)

Lemma digits2_pos_size (p : positive) : digits2_pos p = Pos.size p.
Proof. induction p as [p IH|p IH|]; cbn; [rewrite IH|rewrite IH|]; reflexivity. Qed.

Lemma digits2_log2 (p : positive) : Z.pos (digits2_pos p) = Z.log2 (Z.pos p) + 1.
Proof.
  rewrite digits2_pos_size. destruct p as [p|p|]; cbn [Pos.size Z.log2]; lia.
Qed.

Lemma digits2_iter_xO (p n : positive) :
  digits2_pos (Pos.iter xO p n) = (digits2_pos p + n)%positive.
Proof.
  induction n as [|n IH] using Pos.peano_ind.
  - cbn. lia.
  - rewrite Pos.iter_succ. cbn [digits2_pos]. rewrite IH. lia.
Qed.

Lemma iter_xO_pow2 (p n : positive) :
  Z.pos (Pos.iter xO p n) = Z.pos p * 2 ^ Z.pos n.
Proof.
  induction n as [|n IH] using Pos.peano_ind.
  - cbn. lia.
  - rewrite Pos.iter_succ, Pos2Z.inj_xO, IH, Pos2Z.inj_succ, Z.pow_succ_r by lia. lia.
Qed.

Lemma binary_round_aux_exact (sx : bool) (m : positive) (e : Z) :
  Z.pos (digits2_pos m) = 53 -> -1074 <= e <= 971 ->
  binary_round_aux 53 1024 sx (Z.pos m) e loc_Exact = S754_finite sx m e.
Proof.
  intros Hd He. unfold binary_round_aux, shr_fexp, fexp, emin. cbn [Zdigits2].
  rewrite Hd. replace (Z.max (53 + e - 53) (3 - 1024 - 53) - e) with 0 by lia.
  cbn [shr shr_record_of_loc shr_m loc_of_shr_record round_nearest_even Zdigits2].
  rewrite Hd. replace (Z.max (53 + e - 53) (3 - 1024 - 53) - e) with 0 by lia.
  cbn [shr shr_record_of_loc shr_m].
  replace (e <=? 1024 - 53) with true by (symmetry; apply Z.leb_le; lia).
  reflexivity.
Qed.

Lemma binary_round_small (sx : bool) (p : positive) :
  Z.pos p < 2 ^ 53 ->
  binary_round 53 1024 sx p 0 =
  S754_finite sx (Z.to_pos (Z.pos p * 2 ^ (52 - Z.log2 (Z.pos p))))
    (Z.log2 (Z.pos p) - 52).
Proof.
  intros Hp.
  assert (Hlog : 0 <= Z.log2 (Z.pos p) < 53).
  { split; [apply Z.log2_nonneg|]. apply Z.log2_lt_pow2; lia. }
  pose proof (digits2_log2 p) as Hd.
  unfold binary_round, shl_align, fexp, emin. rewrite Hd.
  replace (Z.max (Z.log2 (Z.pos p) + 1 + 0 - 53) (3 - 1024 - 53) - 0)
    with (Z.log2 (Z.pos p) - 52) by lia.
  replace (Z.max (Z.log2 (Z.pos p) + 1 + 0 - 53) (3 - 1024 - 53))
    with (Z.log2 (Z.pos p) - 52) by lia.
  destruct (Z.log2 (Z.pos p) - 52) as [|k|k] eqn:Ek; [|lia|].
  - rewrite binary_round_aux_exact by lia.
    replace (52 - Z.log2 (Z.pos p)) with 0 by lia.
    rewrite Z.mul_1_r. reflexivity.
  - rewrite binary_round_aux_exact.
    + f_equal. apply Pos2Z.inj. rewrite iter_xO_pow2.
      replace (52 - Z.log2 (Z.pos p)) with (Z.pos k) by lia.
      rewrite Z2Pos.id; [reflexivity|]. apply Z.mul_pos_pos; [lia|].
      apply Z.pow_pos_nonneg; lia.
    + rewrite digits2_iter_xO, Pos2Z.inj_add, Hd. lia.
    + lia.
Qed.

(** [static_cast<double>] is exact on the integers below 2^53 in
    magnitude: the double has the sign of [i], and its mantissa [m] and
    exponent [e] are those of 53 binary digits with [m * 2^e = |i|]. *)
Lemma double_of_int_exact (i : Z) :
  0 < Z.abs i < 2 ^ 53 ->
  double_of_int i =
  S754_finite (i <? 0) (Z.to_pos (Z.abs i * 2 ^ (52 - Z.log2 (Z.abs i))))
    (Z.log2 (Z.abs i) - 52).
Proof.
  intros Hi. unfold double_of_int, binary_normalize. destruct i as [|p|p]; [lia| |].
  - apply binary_round_small. cbn in Hi. lia.
  - cbn [Z.abs Z.ltb Z.compare]. apply binary_round_small. cbn in Hi. lia.
Qed.

Lemma double_of_int_inj (i j : Z) :
  Z.abs i < 2 ^ 53 -> Z.abs j < 2 ^ 53 ->
  (deq (double_of_int i) (double_of_int j) = true <-> i = j).
Proof.
  intros Hi Hj. split; [|intros <-].
  - destruct (Z.eq_dec i 0) as [->|Hi0], (Z.eq_dec j 0) as [->|Hj0]; [reflexivity| | |].
    + rewrite (double_of_int_exact j) by lia.
      change (double_of_int 0) with (S754_zero false). unfold deq, SFeqb, SFcompare.
      destruct (j <? 0); discriminate.
    + rewrite (double_of_int_exact i) by lia.
      change (double_of_int 0) with (S754_zero false). unfold deq, SFeqb, SFcompare.
      destruct (i <? 0); discriminate.
    + rewrite !double_of_int_exact by lia. rewrite deq_identity by reflexivity.
      intros [= Hs Hm He].
      assert (Hl : Z.log2 (Z.abs i) = Z.log2 (Z.abs j)) by lia.
      rewrite Hl in Hm. apply Z2Pos.inj in Hm.
      * assert (Z.abs i = Z.abs j).
        { apply Z.mul_reg_r in Hm; [exact Hm|].
          apply Z.pow_nonzero; [lia|]. pose proof (Z.log2_lt_pow2 (Z.abs j) 53). lia. }
        destruct (Z.ltb_spec i 0), (Z.ltb_spec j 0); try discriminate; lia.
      * apply Z.mul_pos_pos; [lia|]. apply Z.pow_pos_nonneg; [lia|].
        pose proof (Z.log2_lt_pow2 (Z.abs j) 53). lia.
      * apply Z.mul_pos_pos; [lia|]. apply Z.pow_pos_nonneg; [lia|].
        pose proof (Z.log2_lt_pow2 (Z.abs j) 53). lia.
  - destruct (Z.eq_dec i 0) as [->|Hi0]; [reflexivity|].
    rewrite double_of_int_exact by lia. unfold deq, SFeqb, SFcompare.
    rewrite Z.compare_refl.
    change (Pos.compare_cont Eq ?a ?b) with (Pos.compare a b). rewrite Pos.compare_refl.
    destruct (i <? 0); reflexivity.
Qed.

(** C8 as the code has it: [==] and [!=] compare with [valueEquals].
    Two integers, two booleans or two strings are equal exactly when
    their contents are.  Two doubles are compared with the [==] of
    [double]: a NaN equals nothing, itself included, the two zeros are
    equal, and otherwise the contents must be identical.  An integer and a
    double are equal exactly when they are after the integer is widened to
    [double]; below 2^53 in magnitude the widening is exact, so that the
    double must be the one whose value is the integer, and from there on
    it rounds to the nearest double, ties to even (2^53 + 1 equals the
    double 2^53, and 2^63 - 1 the double 2^63).  Any other pair of
    different alternatives is unequal, so [true == 1] is false. *)
Theorem valueEquals_spec :
  (forall a b, compare "==" a b = Ret (valueEquals a b) /\
               compare "!=" a b = Ret (negb (valueEquals a b))) /\
  (forall x y, valueEquals (VInt x) (VInt y) = true <-> x = y) /\
  (forall x y, valueEquals (VBool x) (VBool y) = true <-> x = y) /\
  (forall x y, valueEquals (VString x) (VString y) = true <-> x = y) /\
  (forall x y, valueEquals (VDouble x) (VDouble y) = deq x y) /\
  (forall x y, is_nan_or_zero x = false ->
     (valueEquals (VDouble x) (VDouble y) = true <-> x = y)) /\
  (forall x y,
     valueEquals (VDouble x) (VDouble y) = true <->
     match x, y with
     | S754_nan, _ | _, S754_nan => False
     | S754_zero _, S754_zero _ => True
     | _, _ => x = y
     end) /\
  (forall a b x y, index a <> index b ->
     toNumberPromote a = Ret x -> toNumberPromote b = Ret y ->
     valueEquals a b = deq x y) /\
  (forall i d, valueEquals (VInt i) (VDouble d) = deq (double_of_int i) d /\
               valueEquals (VDouble d) (VInt i) = deq d (double_of_int i)) /\
  (forall i d, 0 < Z.abs i < 2 ^ 53 ->
     let widened :=
       S754_finite (i <? 0) (Z.to_pos (Z.abs i * 2 ^ (52 - Z.log2 (Z.abs i))))
         (Z.log2 (Z.abs i) - 52) in
     double_of_int i = widened /\
     (valueEquals (VInt i) (VDouble d) = true <-> d = widened) /\
     (valueEquals (VDouble d) (VInt i) = true <-> d = widened)) /\
  (forall d, valueEquals (VInt 0) (VDouble d) = true <-> exists s, d = S754_zero s) /\
  (forall i j, Z.abs i < 2 ^ 53 -> Z.abs j < 2 ^ 53 ->
     (valueEquals (VInt i) (VDouble (double_of_int j)) = true <-> i = j)) /\
  (forall a b, index a <> index b ->
     is_numeric a && is_numeric b = false -> valueEquals a b = false) /\
  valueEquals (VBool true) (VInt 1) = false /\
  valueEquals (VInt (2 ^ 53 + 1)) (VDouble (S754_finite false (2 ^ 52) 1)) = true /\
  valueEquals (VInt (2 ^ 53 + 3)) (VDouble (S754_finite false (2 ^ 52 + 2) 1)) = true /\
  valueEquals (VInt (- (2 ^ 63))) (VDouble (S754_finite true (2 ^ 52) 11)) = true /\
  valueEquals (VInt (2 ^ 63 - 1)) (VDouble (S754_finite false (2 ^ 52) 11)) = true.
Proof.
  split; [|split; [|split; [|split; [|split; [|split; [|split; [|split; [|split;
    [|split; [|split; [|split; [|split; [|repeat split]]]]]]]]]]]]].
  - intros a b0. split; reflexivity.
  - intros x y. unfold valueEquals; cbn. apply Z.eqb_eq.
  - intros x y. unfold valueEquals; cbn. destruct x, y; cbn; split; congruence.
  - intros x y. unfold valueEquals; cbn. apply String.eqb_eq.
  - reflexivity.
  - intros x y Hx. unfold valueEquals; cbn. apply deq_identity, Hx.
  - intros x y. change (valueEquals (VDouble x) (VDouble y)) with (deq x y).
    destruct x as [s| s | |s m e].
    + destruct y as [s'| s' | |s' m' e']; cbn; try (split; [discriminate|tauto]);
        try tauto.
      * destruct s'; split; (discriminate || tauto).
      * destruct s'; split; (discriminate || tauto).
    + rewrite deq_identity by reflexivity.
      destruct y; try tauto. split; [discriminate|tauto].
    + cbn. destruct y; split; (discriminate || tauto).
    + rewrite deq_identity by reflexivity.
      destruct y; try tauto. split; [discriminate|tauto].
  - intros a b0 x y Hne Ha Hb. unfold valueEquals.
    destruct a, b0; cbn in *; congruence.
  - intros i d. split; reflexivity.
  - intros i d Hi widened. pose proof (double_of_int_exact i Hi) as Hw.
    fold widened in Hw. split; [exact Hw|].
    change (valueEquals (VInt i) (VDouble d)) with (deq (double_of_int i) d).
    change (valueEquals (VDouble d) (VInt i)) with (deq d (double_of_int i)).
    rewrite (deq_sym d), Hw, deq_identity by reflexivity.
    split; split; congruence.
  - intros d. change (valueEquals (VInt 0) (VDouble d)) with (deq (S754_zero false) d).
    destruct d as [s| s | |s m e]; cbn.
    + split; eauto.
    + destruct s; (split; [discriminate|intros [? ?]; discriminate]).
    + split; [discriminate|intros [? ?]; discriminate].
    + destruct s; (split; [discriminate|intros [? ?]; discriminate]).
  - intros i j Hi Hj. apply double_of_int_inj; assumption.
  - intros a b0 Hne Hn. unfold valueEquals.
    destruct (Nat.eqb_spec (index a) (index b0)) as [E|_]; [destruct (Hne E)|].
    cbn. rewrite Hn. reflexivity.
Qed.

(** C9: without a compiled condition an edge fires on every node and a
    phase edge fires on none. *)
Theorem missing_condition_default
    (e : DefaultEdge.t) (pe : DefaultPhaseEdge.t) (node : DefaultNode.t) :
  DefaultEdge.compiled e = None ->
  DefaultPhaseEdge.compiled pe = None ->
  DefaultEdge.evaluate e node = Ret true /\
  DefaultPhaseEdge.evaluate pe node = Ret false.
Proof.
  intros He Hpe. unfold DefaultEdge.evaluate, DefaultPhaseEdge.evaluate.
  rewrite He, Hpe. split; reflexivity.
Qed.

Lemma missing_condition_default_witness :
  DefaultEdge.evaluate (DefaultEdge.mk "A" "B" "" None ∅) Sample.nodeA = Ret true /\
  DefaultPhaseEdge.evaluate (DefaultPhaseEdge.mk "P" "Q" "" None) Sample.nodeA = Ret false.
Proof.
  apply (missing_condition_default (DefaultEdge.mk "A" "B" "" None ∅)
           (DefaultPhaseEdge.mk "P" "Q" "" None) Sample.nodeA); reflexivity.
Defined.

Lemma valueEquals_spec_witness :
  0 < Z.abs 2 < 2 ^ 53 /\
  valueEquals (VInt 2) (VDouble (S754_finite false 4503599627370496 (-51))) = true /\
  valueEquals (VInt 2) (VDouble (double_of_int 3)) = false /\
  valueEquals (VBool true) (VString "1") = false.
Proof.
  destruct valueEquals_spec
    as (_ & _ & _ & _ & _ & _ & _ & _ & _ & Hwide & _ & Hinj & Hother & _).
  split; [lia|]. split; [|split].
  - destruct (Hwide 2 (S754_finite false 4503599627370496 (-51))) as (_ & Heq & _);
      [lia|]. apply Heq. reflexivity.
  - destruct (valueEquals (VInt 2) (VDouble (double_of_int 3))) eqn:E; [|reflexivity].
    apply (Hinj 2 3) in E; [discriminate E|cbn; lia|cbn; lia].
  - apply Hother; [cbn; lia|reflexivity].
Defined.

(** C8 as stated fails for two doubles: a NaN is not equal to itself,
    and the two zeros, which differ in their sign, are equal. *)
Lemma valueEquals_double_not_identity :
  valueEquals (VDouble S754_nan) (VDouble S754_nan) = false /\
  compare "==" (VDouble S754_nan) (VDouble S754_nan) = Ret false /\
  valueEquals (VDouble (S754_zero true)) (VDouble (S754_zero false)) = true /\
  compare "!=" (VDouble (S754_zero true)) (VDouble (S754_zero false)) = Ret false /\
  S754_zero true <> S754_zero false.
Proof. repeat split. discriminate. Qed.

Lemma ident_leaf_lookup_witness :
  eval (Sample.leaf_ident "missing") Sample.nodeA = Ret false /\
  eval (CMP ">" (Sample.leaf_ident "missing") (Sample.leaf_num 0)) Sample.nodeA =
    Throw (Unknown_var "missing") /\
  eval (Sample.leaf_ident "properties.name") Sample.nodeA = Ret true.
Proof.
  split; [|split].
  - apply (ident_leaf_lookup (mkAST IDENT "missing" dzero false) Sample.nodeA);
      reflexivity.
  - apply (ident_leaf_lookup (mkAST IDENT "missing" dzero false) Sample.nodeA);
      reflexivity.
  - destruct (ident_leaf_lookup (mkAST IDENT "properties.name" dzero false)
                Sample.nodeA eq_refl) as (_ & _ & Hbound & _).
    apply (Hbound (VString "TestNode")). reflexivity.
Defined.

(** ** The single-phase graph *)

Lemma apply_actions_written (actions : gmap string Value) (dest : DefaultNode.t) :
  StateGraph.apply_actions actions dest = written actions dest.
Proof.
  unfold StateGraph.apply_actions.
  apply (map_fold_weak_ind (fun r m => r = written m dest)).
  - unfold written. rewrite (left_id_L ∅ (∪)). destruct dest; reflexivity.
  - intros i x m r Hi ->. unfold DefaultNode.setVar, written; cbn.
    f_equal. apply insert_union_l.
Qed.

Lemma written_lookup (actions : gmap string Value) (dest : DefaultNode.t) (key : string) :
  DefaultNode.vars (written actions dest) !! key =
  match actions !! key with
  | Some v => Some v
  | None => DefaultNode.vars dest !! key
  end.
Proof.
  cbn. rewrite lookup_union. destruct (actions !! key) eqn:E; cbn.
  - destruct (DefaultNode.vars dest !! key); reflexivity.
  - destruct (DefaultNode.vars dest !! key); reflexivity.
Qed.

Lemma step_loop_skip (g : StateGraph.t) (cur : DefaultNode.t) (pre rest : list nat) :
  Forall (edge_evaluates g cur false) pre ->
  StateGraph.step_loop cur (pre ++ rest) g = StateGraph.step_loop cur rest g.
Proof.
  induction 1 as [|j pre (e & He & Hv) _ IH]; [reflexivity|].
  cbn [app StateGraph.step_loop]. unfold mbind at 1, at_index. rewrite He.
  unfold mbind at 1, lift. rewrite Hv. exact IH.
Qed.

Lemma step_loop_none (g : StateGraph.t) (cur : DefaultNode.t) (adj : list nat) :
  Forall (edge_evaluates g cur false) adj ->
  StateGraph.step_loop cur adj g = (Ret None, g).
Proof.
  intros H. rewrite <- (app_nil_r adj). rewrite step_loop_skip by assumption.
  reflexivity.
Qed.

Lemma take_known (g : StateGraph.t) (e : DefaultEdge.t) (ti : nat) (dest : DefaultNode.t) :
  StateGraph.node_index_ g !! DefaultEdge.to e = Some ti ->
  StateGraph.nodes_ g !! ti = Some dest ->
  StateGraph.take e g =
  (Ret (Some (DefaultNode.id dest)),
   StateGraph.mk (<[ti := written (DefaultEdge.actions e) dest]> (StateGraph.nodes_ g))
     (StateGraph.edges_ g) (StateGraph.node_index_ g) (StateGraph.adjacency_ g)
     (Some ti)).
Proof.
  intros Hi Hd. unfold StateGraph.take, mbind, StateGraph.node_index_subscript,
    modify, at_index, mret. rewrite Hi. cbn. rewrite Hd.
  rewrite apply_actions_written. reflexivity.
Qed.

Lemma step_unfold (g : StateGraph.t) (fromIdx : nat) (cur : DefaultNode.t)
    (adj : list nat) :
  StateGraph.current_index_ g = Some fromIdx ->
  StateGraph.nodes_ g !! fromIdx = Some cur ->
  StateGraph.adjacency_ g !! fromIdx = Some adj ->
  StateGraph.step g = StateGraph.step_loop cur adj g.
Proof.
  intros Hc Hn Ha. unfold StateGraph.step. rewrite Hc.
  unfold mbind, lift, at_index. rewrite Hn, Ha. reflexivity.
Qed.

Lemma addEdge_appends (e : DefaultEdge.t) (g g1 : StateGraph.t) :
  StateGraph.addEdge e g = (Ret tt, g1) ->
  StateGraph.edges_ g1 = (StateGraph.edges_ g ++ [e])%list /\
  StateGraph.nodes_ g1 = StateGraph.nodes_ g /\
  exists fi a,
    StateGraph.node_index_ g !! DefaultEdge.from e = Some fi /\
    StateGraph.adjacency_ g !! fi = Some a /\
    StateGraph.adjacency_ g1 !! fi = Some (a ++ [length (StateGraph.edges_ g)])%list /\
    forall j, j <> fi -> StateGraph.adjacency_ g1 !! j = StateGraph.adjacency_ g !! j.
Proof.
  unfold StateGraph.addEdge.
  destruct (StateGraph.node_index_ g !! DefaultEdge.from e) as [fi|] eqn:Hf; [|discriminate].
  destruct (StateGraph.node_index_ g !! DefaultEdge.to e) as [ti|]; [|discriminate].
  cbn. destruct (StateGraph.adjacency_ g !! fi) as [a|] eqn:Ha; [|discriminate].
  intros [= <-]. cbn. split; [reflexivity|split; [reflexivity|]].
  exists fi, a. split; [reflexivity|split; [exact Ha|split]].
  - apply list_lookup_insert_eq. eapply lookup_lt_Some, Ha.
  - intros j Hj. apply list_lookup_insert_ne. congruence.
Qed.

(** C5: a step from a node with outgoing edges looks at the edges of the
    node's adjacency list in its order, which is the order of the [addEdge]
    calls.  The first edge whose condition is true, all earlier ones being
    false, is taken: the current index becomes the index of its [to] node,
    every action entry is written into that node's vars over the old
    binding, and the step returns the id of the new current node.  When
    every condition is false the step returns no transition and the graph
    is unchanged. *)
Theorem step_takes_first_true_edge
    (g : StateGraph.t) (fromIdx : nat) (cur : DefaultNode.t) (adj : list nat) :
  StateGraph.current_index_ g = Some fromIdx ->
  StateGraph.nodes_ g !! fromIdx = Some cur ->
  StateGraph.adjacency_ g !! fromIdx = Some adj ->
  adj <> [] ->
  (forall pre k post e ti dest,
     adj = (pre ++ k :: post)%list ->
     Forall (edge_evaluates g cur false) pre ->
     StateGraph.edges_ g !! k = Some e ->
     DefaultEdge.evaluate e cur = Ret true ->
     StateGraph.node_index_ g !! DefaultEdge.to e = Some ti ->
     StateGraph.nodes_ g !! ti = Some dest ->
     let dest' := written (DefaultEdge.actions e) dest in
     let g' := StateGraph.mk (<[ti := dest']> (StateGraph.nodes_ g))
                 (StateGraph.edges_ g) (StateGraph.node_index_ g)
                 (StateGraph.adjacency_ g) (Some ti) in
     StateGraph.step g = (Ret (Some (DefaultNode.id dest)), g') /\
     StateGraph.currentStateId g' = Ret (DefaultNode.id dest) /\
     StateGraph.currentNode g' = Ret dest' /\
     (forall key v, DefaultEdge.actions e !! key = Some v ->
                    DefaultNode.vars dest' !! key = Some v) /\
     (forall key, DefaultEdge.actions e !! key = None ->
                  DefaultNode.vars dest' !! key = DefaultNode.vars dest !! key)) /\
  (Forall (edge_evaluates g cur false) adj ->
   StateGraph.step g = (Ret None, g)) /\
  (forall e g1, StateGraph.addEdge e g = (Ret tt, g1) ->
     StateGraph.edges_ g1 = (StateGraph.edges_ g ++ [e])%list /\
     exists fi a,
       StateGraph.node_index_ g !! DefaultEdge.from e = Some fi /\
       StateGraph.adjacency_ g !! fi = Some a /\
       StateGraph.adjacency_ g1 !! fi =
         Some (a ++ [length (StateGraph.edges_ g)])%list).
Proof.
  intros Hc Hn Ha _. rewrite (step_unfold g fromIdx cur adj Hc Hn Ha).
  split; [|split].
  - intros pre k post e ti dest -> Hpre He Hv Hi Hd dest' g'.
    assert (Hlt : (ti < length (StateGraph.nodes_ g))%nat)
      by (eapply lookup_lt_Some, Hd).
    split; [|split; [|split; [|split]]].
    + rewrite step_loop_skip by assumption. cbn [StateGraph.step_loop].
      unfold mbind at 1, at_index. rewrite He. unfold mbind at 1, lift. rewrite Hv.
      apply take_known; assumption.
    + unfold StateGraph.currentStateId, at_index; cbn.
      rewrite list_lookup_insert_eq by assumption. reflexivity.
    + unfold StateGraph.currentNode, at_index; cbn.
      rewrite list_lookup_insert_eq by assumption. reflexivity.
    + intros key v Hk. unfold dest'. rewrite written_lookup, Hk. reflexivity.
    + intros key Hk. unfold dest'. rewrite written_lookup, Hk. reflexivity.
  - apply step_loop_none.
  - intros e g1 H. destruct (addEdge_appends e g g1 H) as (He & _ & fi & a & Hf & Hfa & Hg1 & _).
    split; [exact He|]. exists fi, a. auto.
Qed.

Lemma step_takes_first_true_edge_witness :
  StateGraph.step Sample.graphAB =
    (Ret (Some "B"),
     StateGraph.mk
       [Sample.nodeA; written (DefaultEdge.actions Sample.edge1) Sample.nodeB]
       (StateGraph.edges_ Sample.graphAB) (StateGraph.node_index_ Sample.graphAB)
       (StateGraph.adjacency_ Sample.graphAB) (Some 1%nat)) /\
  StateGraph.step Sample.graphStuck = (Ret None, Sample.graphStuck).
Proof.
  split.
  - destruct (step_takes_first_true_edge Sample.graphAB 0 Sample.nodeA [0; 1; 2]%nat
                eq_refl eq_refl eq_refl ltac:(discriminate)) as (Hfirst & _ & _).
    destruct (Hfirst [0%nat] 1%nat [2%nat] Sample.edge1 1%nat Sample.nodeB eq_refl)
      as (Hstep & _).
    + repeat constructor. exists Sample.edge0. split; reflexivity.
    + reflexivity.
    + reflexivity.
    + reflexivity.
    + reflexivity.
    + exact Hstep.
  - destruct (step_takes_first_true_edge Sample.graphStuck 0 Sample.nodeA [0%nat]
                eq_refl eq_refl eq_refl ltac:(discriminate)) as (_ & Hnone & _).
    apply Hnone. repeat constructor. exists Sample.edge0. split; reflexivity.
Defined.

(** ** The multi-phase graph *)

(** C10: when the current phase's graph has no current node, the
    node-level step of that graph is a no-op returning no transition, its
    current node cannot be read ([No current state]), and the hierarchical
    step does not return a result: it throws [No current state] and leaves
    the multi-phase graph as it was. *)
Theorem step_without_current_node
    (mp : MultiPhaseStateGraph.t) (ci : nat) (ph : MultiPhaseStateGraph.Phase.t) :
  MultiPhaseStateGraph.current_phase_ mp = Some ci ->
  MultiPhaseStateGraph.phases_ mp !! ci = Some ph ->
  StateGraph.hasCurrentState (MultiPhaseStateGraph.Phase.graph ph) = false ->
  StateGraph.step (MultiPhaseStateGraph.Phase.graph ph) =
    (Ret None, MultiPhaseStateGraph.Phase.graph ph) /\
  StateGraph.currentNode (MultiPhaseStateGraph.Phase.graph ph) = Throw No_current_state /\
  MultiPhaseStateGraph.step mp = (Throw No_current_state, mp).
Proof.
  intros Hc Hp Hno. unfold StateGraph.hasCurrentState in Hno.
  destruct (StateGraph.current_index_ (MultiPhaseStateGraph.Phase.graph ph)) eqn:E;
    [discriminate|].
  split; [|split].
  - unfold StateGraph.step. rewrite E. reflexivity.
  - unfold StateGraph.currentNode. rewrite E. reflexivity.
  - unfold MultiPhaseStateGraph.step. rewrite Hc.
    unfold mbind at 1, MultiPhaseStateGraph.phase_at, at_index. rewrite Hp.
    unfold mbind at 1, lift, StateGraph.currentStateId. rewrite E. reflexivity.
Qed.

Lemma step_without_current_node_witness :
  MultiPhaseStateGraph.step Sample.mpIdle = (Throw No_current_state, Sample.mpIdle).
Proof.
  apply (step_without_current_node Sample.mpIdle 0 Sample.phaseIdle); reflexivity.
Defined.

(** C3: the code departs from the claim.  When the stream does not
    open, the multi-phase [loadFromJson] returns false without throwing,
    but it has called [clear()] by then: the graph is left empty, and a
    configuration loaded before, such as [Sample.mpThrow], is lost.  The
    single-phase [StateGraph::loadFromJson] tests the stream before it
    clears and leaves its graph as it was. *)
Theorem loadFromJson_unreadable_clears
    (stod : string -> outcome double) (mp : MultiPhaseStateGraph.t)
    (g : StateGraph.t) :
  MultiPhaseStateGraph.loadFromJson stod None mp =
    (Ret false, MultiPhaseStateGraph.empty) /\
  MultiPhaseStateGraph.phases_ MultiPhaseStateGraph.empty = [] /\
  MultiPhaseStateGraph.phase_edges_ MultiPhaseStateGraph.empty = [] /\
  MultiPhaseStateGraph.current_phase_ MultiPhaseStateGraph.empty = None /\
  snd (MultiPhaseStateGraph.loadFromJson stod None Sample.mpThrow) <> Sample.mpThrow /\
  MultiPhaseStateGraph.phases_ Sample.mpThrow <> [] /\
  StateGraph.loadFromJson stod None g = (Ret false, g).
Proof.
  split; [reflexivity|]. split; [reflexivity|]. split; [reflexivity|].
  split; [reflexivity|]. split; [|split; [discriminate|reflexivity]].
  intros H. apply (f_equal MultiPhaseStateGraph.current_phase_) in H. discriminate H.
Qed.

(** The single-phase loader tests the stream first: there an unreadable
    file leaves the graph as it was. *)
Lemma StateGraph_loadFromJson_unreadable
    (stod : string -> outcome double) (g : StateGraph.t) :
  StateGraph.loadFromJson stod None g = (Ret false, g).
Proof. reflexivity. Qed.

Lemma mbind_throw_inv {S A B : Type} (m : M S A) (k : A -> M S B)
    (s s' : S) (e : error) :
  mbind m k s = (Throw e, s') ->
  m s = (Throw e, s') \/ exists a s1, m s = (Ret a, s1) /\ k a s1 = (Throw e, s').
Proof.
  unfold mbind. destruct (m s) as [[a| x |] s1]; intros H.
  - right. exists a, s1. split; [reflexivity|exact H].
  - left. injection H as -> ->. reflexivity.
  - discriminate H.
Qed.

Lemma take_never_throws (e : DefaultEdge.t) (g g' : StateGraph.t) (x : error) :
  StateGraph.take e g <> (Throw x, g').
Proof.
  unfold StateGraph.take, mbind, StateGraph.node_index_subscript, modify, mret, at_index.
  destruct (StateGraph.node_index_ g !! DefaultEdge.to e); cbn;
    match goal with |- context [?l !! ?i] => destruct (l !! i) end; discriminate.
Qed.

Lemma step_loop_throw (cur : DefaultNode.t) (adj : list nat)
    (g g' : StateGraph.t) (x : error) :
  StateGraph.step_loop cur adj g = (Throw x, g') -> g' = g.
Proof.
  induction adj as [|j adj IH]; cbn [StateGraph.step_loop]; [discriminate|].
  unfold mbind at 1, at_index. destruct (StateGraph.edges_ g !! j) as [e|]; [|discriminate].
  unfold mbind at 1, lift. destruct (DefaultEdge.evaluate e cur) as [[|]| y |].
  - intros H. destruct (take_never_throws _ _ _ _ H).
  - exact IH.
  - intros [= _ <-]. reflexivity.
  - discriminate.
Qed.

Lemma StateGraph_step_throw (g g' : StateGraph.t) (x : error) :
  StateGraph.step g = (Throw x, g') -> g' = g.
Proof.
  unfold StateGraph.step. destruct (StateGraph.current_index_ g) as [i|]; [|discriminate].
  unfold mbind at 1, lift, at_index.
  destruct (StateGraph.nodes_ g !! i); [|discriminate].
  unfold mbind at 1. destruct (StateGraph.adjacency_ g !! i); [|discriminate].
  apply step_loop_throw.
Qed.

Lemma step_loop_no_transition (cur : DefaultNode.t) (adj : list nat)
    (g g' : StateGraph.t) :
  StateGraph.step_loop cur adj g = (Ret None, g') -> g' = g.
Proof.
  induction adj as [|j adj IH]; cbn [StateGraph.step_loop]; [intros [= <-]; reflexivity|].
  unfold mbind at 1, at_index. destruct (StateGraph.edges_ g !! j) as [e|]; [|discriminate].
  unfold mbind at 1, lift. destruct (DefaultEdge.evaluate e cur) as [[|]| y |];
    [|exact IH|discriminate|discriminate].
  unfold StateGraph.take, mbind, StateGraph.node_index_subscript, modify, mret, at_index.
  destruct (StateGraph.node_index_ g !! DefaultEdge.to e); cbn;
    match goal with |- context [?l !! ?i] => destruct (l !! i) end; discriminate.
Qed.

Lemma StateGraph_step_no_transition (g g' : StateGraph.t) :
  StateGraph.step g = (Ret None, g') -> g' = g.
Proof.
  unfold StateGraph.step. destruct (StateGraph.current_index_ g) as [i|];
    [|intros [= <-]; reflexivity].
  unfold mbind at 1, lift, at_index.
  destruct (StateGraph.nodes_ g !! i); [|discriminate].
  unfold mbind at 1. destruct (StateGraph.adjacency_ g !! i); [|discriminate].
  apply step_loop_no_transition.
Qed.

Lemma currentStateId_throw (g : StateGraph.t) (x : error) :
  StateGraph.currentStateId g = Throw x -> x = No_current_state.
Proof.
  unfold StateGraph.currentStateId, at_index.
  destruct (StateGraph.current_index_ g) as [i|]; [|congruence].
  destruct (StateGraph.nodes_ g !! i); discriminate.
Qed.

Lemma currentNode_throw (g : StateGraph.t) (x : error) :
  StateGraph.currentNode g = Throw x -> x = No_current_state.
Proof.
  unfold StateGraph.currentNode, at_index.
  destruct (StateGraph.current_index_ g) as [i|]; [|congruence].
  destruct (StateGraph.nodes_ g !! i); discriminate.
Qed.

Lemma with_phase_graph_same (i : nat) (ph : MultiPhaseStateGraph.Phase.t)
    (mp : MultiPhaseStateGraph.t) :
  MultiPhaseStateGraph.phases_ mp !! i = Some ph ->
  with_phase_graph i (MultiPhaseStateGraph.Phase.graph ph) mp = mp.
Proof.
  intros H. unfold with_phase_graph. rewrite H.
  unfold MultiPhaseStateGraph.set_phases.
  replace (MultiPhaseStateGraph.Phase.set_graph (MultiPhaseStateGraph.Phase.graph ph) ph)
    with ph by (destruct ph; reflexivity).
  rewrite list_insert_id by assumption. destruct mp; reflexivity.
Qed.

Lemma on_graph_eq {A : Type} (i : nat) (m : M StateGraph.t A)
    (ph : MultiPhaseStateGraph.Phase.t) (mp : MultiPhaseStateGraph.t) :
  MultiPhaseStateGraph.phases_ mp !! i = Some ph ->
  MultiPhaseStateGraph.on_graph i m mp =
  (fst (m (MultiPhaseStateGraph.Phase.graph ph)),
   with_phase_graph i (snd (m (MultiPhaseStateGraph.Phase.graph ph))) mp).
Proof.
  intros H. unfold MultiPhaseStateGraph.on_graph, with_phase_graph. rewrite H.
  destruct (m (MultiPhaseStateGraph.Phase.graph ph)); reflexivity.
Qed.

Lemma with_phase_graph_lookup (i : nat) (g : StateGraph.t)
    (ph : MultiPhaseStateGraph.Phase.t) (mp : MultiPhaseStateGraph.t) :
  MultiPhaseStateGraph.phases_ mp !! i = Some ph ->
  MultiPhaseStateGraph.phases_ (with_phase_graph i g mp) !! i =
    Some (MultiPhaseStateGraph.Phase.set_graph g ph).
Proof.
  intros H. unfold with_phase_graph. rewrite H. cbn.
  apply list_lookup_insert_eq. eapply lookup_lt_Some, H.
Qed.

Lemma with_phase_graph_lookup_ne (i j : nat) (g : StateGraph.t)
    (mp : MultiPhaseStateGraph.t) :
  i <> j ->
  MultiPhaseStateGraph.phases_ (with_phase_graph i g mp) !! j =
    MultiPhaseStateGraph.phases_ mp !! j.
Proof.
  intros H. unfold with_phase_graph.
  destruct (MultiPhaseStateGraph.phases_ mp !! i); [|reflexivity].
  cbn. apply list_lookup_insert_ne, H.
Qed.

Lemma switch_phase_throw (pe : DefaultPhaseEdge.t)
    (mp mp' : MultiPhaseStateGraph.t) (x : error) :
  MultiPhaseStateGraph.switch_phase pe mp = (Throw x, mp') ->
  mp' = mp /\ x = Phase_edge_to_unknown_phase (DefaultPhaseEdge.to pe).
Proof.
  unfold MultiPhaseStateGraph.switch_phase.
  destruct (MultiPhaseStateGraph.phase_index_ mp !! DefaultPhaseEdge.to pe) as [target|].
  - unfold mbind at 1, modify. unfold mbind at 1, MultiPhaseStateGraph.phase_at, at_index.
    cbn [MultiPhaseStateGraph.phases_ MultiPhaseStateGraph.set_current_phase].
    destruct (MultiPhaseStateGraph.phases_ mp !! target) as [np|] eqn:Hp; [|discriminate].
    destruct (negb (StateGraph.hasCurrentState (MultiPhaseStateGraph.Phase.graph np)) &&
              negb (String.eqb (MultiPhaseStateGraph.Phase.initial_state np) ""));
      [|discriminate].
    unfold mbind. rewrite (on_graph_eq target _ np) by exact Hp.
    unfold StateGraph.setInitialState.
    destruct (StateGraph.node_index_ (MultiPhaseStateGraph.Phase.graph np) !! _);
      discriminate.
  - intros [= <- <-]. split; reflexivity.
Qed.

Lemma phase_loop_throw (cur : DefaultNode.t) (adj : list nat)
    (mp mp' : MultiPhaseStateGraph.t) (x : error) :
  MultiPhaseStateGraph.phase_loop cur adj mp = (Throw x, mp') -> mp' = mp.
Proof.
  induction adj as [|j adj IH]; cbn [MultiPhaseStateGraph.phase_loop]; [discriminate|].
  unfold mbind at 1, at_index.
  destruct (MultiPhaseStateGraph.phase_edges_ mp !! j) as [pe|]; [|discriminate].
  unfold mbind at 1, lift. destruct (DefaultPhaseEdge.evaluate pe cur) as [[|]| y |].
  - intros H. apply mbind_throw_inv in H as [H|(a & s1 & _ & H)]; [|discriminate H].
    apply switch_phase_throw in H. apply H.
  - exact IH.
  - intros [= _ <-]. reflexivity.
  - discriminate.
Qed.

Lemma currentPhaseId_throw (mp mp' : MultiPhaseStateGraph.t) (x : error) :
  MultiPhaseStateGraph.currentPhaseId mp = (Throw x, mp') -> is_eval_error x = false.
Proof.
  unfold MultiPhaseStateGraph.currentPhaseId.
  destruct (MultiPhaseStateGraph.current_phase_ mp) as [i|]; [|intros [= <- _]; reflexivity].
  unfold mbind, MultiPhaseStateGraph.phase_at, at_index.
  destruct (MultiPhaseStateGraph.phases_ mp !! i); discriminate.
Qed.

Lemma MP_currentStateId_throw (mp mp' : MultiPhaseStateGraph.t) (x : error) :
  MultiPhaseStateGraph.currentStateId mp = (Throw x, mp') -> is_eval_error x = false.
Proof.
  unfold MultiPhaseStateGraph.currentStateId.
  destruct (MultiPhaseStateGraph.current_phase_ mp) as [i|]; [|intros [= <- _]; reflexivity].
  unfold mbind, MultiPhaseStateGraph.phase_at, at_index, lift.
  destruct (MultiPhaseStateGraph.phases_ mp !! i) as [p|]; [|discriminate].
  intros [= H _]. apply currentStateId_throw in H as ->. reflexivity.
Qed.

(** An evaluation error the hierarchical step throws comes from the
    node-level step or from a phase edge evaluated after it. *)
Lemma step_eval_error_inv
    (mp mp' : MultiPhaseStateGraph.t) (e : error) :
  MultiPhaseStateGraph.step mp = (Throw e, mp') ->
  is_eval_error e = true ->
  exists ci ph,
    MultiPhaseStateGraph.current_phase_ mp = Some ci /\
    MultiPhaseStateGraph.phases_ mp !! ci = Some ph /\
    MultiPhaseStateGraph.current_phase_ mp' = Some ci /\
    match StateGraph.step (MultiPhaseStateGraph.Phase.graph ph) with
    | (Throw e', _) => e' = e /\ mp' = mp
    | (Ret None, _) => mp' = mp
    | (Ret (Some _), g1) => mp' = with_phase_graph ci g1 mp
    | (Undefined, _) => False
    end.
Proof.
  intros Hstep He. unfold MultiPhaseStateGraph.step in Hstep.
  destruct (MultiPhaseStateGraph.current_phase_ mp) as [ci|] eqn:Hc; [|discriminate].
  exists ci.
  apply mbind_throw_inv in Hstep as [H|(ph & s1 & Hph & Hstep)].
  { unfold MultiPhaseStateGraph.phase_at, at_index in H.
    destruct (MultiPhaseStateGraph.phases_ mp !! ci); discriminate. }
  unfold MultiPhaseStateGraph.phase_at, at_index in Hph.
  destruct (MultiPhaseStateGraph.phases_ mp !! ci) as [ph0|] eqn:Hp; [|discriminate].
  injection Hph as -> <-. exists ph. split; [reflexivity|split; [reflexivity|]].
  apply mbind_throw_inv in Hstep as [H|(prev & s1 & Hprev & Hstep)].
  { unfold lift in H. injection H as H _. apply currentStateId_throw in H. subst e.
    discriminate He. }
  unfold lift in Hprev. injection Hprev as _ <-.
  unfold mbind at 1 in Hstep. rewrite (on_graph_eq ci _ ph mp Hp) in Hstep.
  destruct (StateGraph.step (MultiPhaseStateGraph.Phase.graph ph)) as [o g1] eqn:Hs.
  cbn [fst snd] in Hstep.
  destruct o as [ns| x |]; [| |discriminate].
  2:{ injection Hstep as -> <-. apply StateGraph_step_throw in Hs as ->.
      rewrite with_phase_graph_same by exact Hp. auto. }
  assert (Hmp1 : mp' = with_phase_graph ci g1 mp /\
                 MultiPhaseStateGraph.current_phase_ mp' = Some ci).
  { pose proof (with_phase_graph_lookup ci g1 ph mp Hp) as Hp1.
    set (mp1 := with_phase_graph ci g1 mp) in *.
    assert (Hc1 : MultiPhaseStateGraph.current_phase_ mp1 = Some ci).
    { unfold mp1, with_phase_graph. rewrite Hp. exact Hc. }
    unfold mbind at 1 in Hstep.
    rewrite (on_graph_eq ci _ _ mp1 Hp1) in Hstep. cbn [fst snd] in Hstep.
    replace (with_phase_graph ci (MultiPhaseStateGraph.Phase.graph
               (MultiPhaseStateGraph.Phase.set_graph g1 ph)) mp1) with mp1 in Hstep
      by (symmetry; apply with_phase_graph_same; exact Hp1).
    cbn [MultiPhaseStateGraph.Phase.graph MultiPhaseStateGraph.Phase.set_graph] in Hstep.
    destruct (StateGraph.currentNode g1) as [curNode| x |] eqn:Hcn; [| |discriminate].
    2:{ injection Hstep as -> _. apply currentNode_throw in Hcn as ->. discriminate He. }
    unfold mbind at 1, at_index in Hstep.
    destruct (MultiPhaseStateGraph.phase_adj_ mp1 !! ci) as [adj|]; [|discriminate].
    apply mbind_throw_inv in Hstep as [H|(changed & mp2 & _ & Hstep)].
    { apply phase_loop_throw in H as ->. split; [reflexivity|exact Hc1]. }
    apply mbind_throw_inv in Hstep as [H|(pid & mp3 & _ & Hstep)].
    { apply currentPhaseId_throw in H. congruence. }
    apply mbind_throw_inv in Hstep as [H|(sid & mp4 & _ & Hstep)].
    { apply MP_currentStateId_throw in H. congruence. }
    discriminate Hstep. }
  destruct Hmp1 as [-> Hc']. split; [exact Hc'|].
  destruct ns as [sid|]; [reflexivity|].
  apply StateGraph_step_no_transition in Hs as ->.
  apply with_phase_graph_same. exact Hp.
Qed.

Lemma with_phase_graph_static (i : nat) (g : StateGraph.t)
    (mp : MultiPhaseStateGraph.t) :
  MultiPhaseStateGraph.current_phase_ (with_phase_graph i g mp) =
    MultiPhaseStateGraph.current_phase_ mp /\
  MultiPhaseStateGraph.phase_edges_ (with_phase_graph i g mp) =
    MultiPhaseStateGraph.phase_edges_ mp /\
  MultiPhaseStateGraph.phase_adj_ (with_phase_graph i g mp) =
    MultiPhaseStateGraph.phase_adj_ mp.
Proof.
  unfold with_phase_graph. destruct (MultiPhaseStateGraph.phases_ mp !! i); auto.
Qed.

(** The phase edges before the first one whose condition throws evaluate
    to false: the loop throws what that condition throws. *)
Lemma phase_loop_raises (cur : DefaultNode.t) (pre post : list nat) (j : nat)
    (pe : DefaultPhaseEdge.t) (e : error) (mp : MultiPhaseStateGraph.t) :
  Forall (fun k => exists pe',
            MultiPhaseStateGraph.phase_edges_ mp !! k = Some pe' /\
            DefaultPhaseEdge.evaluate pe' cur = Ret false) pre ->
  MultiPhaseStateGraph.phase_edges_ mp !! j = Some pe ->
  DefaultPhaseEdge.evaluate pe cur = Throw e ->
  MultiPhaseStateGraph.phase_loop cur (pre ++ j :: post) mp = (Throw e, mp).
Proof.
  intros Hpre Hj He. induction Hpre as [|k pre (pe' & Hk & Hf) _ IH];
    cbn [app MultiPhaseStateGraph.phase_loop]; unfold mbind at 1, at_index.
  - rewrite Hj. unfold mbind at 1, lift. rewrite He. reflexivity.
  - rewrite Hk. unfold mbind at 1, lift. rewrite Hf. exact IH.
Qed.

(** The read of the current state id the hierarchical step starts with
    returns when the node-level step throws, or returns and leaves a
    current node. *)
Lemma prevState_returns (g : StateGraph.t) :
  (exists e, fst (StateGraph.step g) = Throw e) \/
  (exists cur, StateGraph.currentNode (snd (StateGraph.step g)) = Ret cur) ->
  exists sid, StateGraph.currentStateId g = Ret sid.
Proof.
  unfold StateGraph.step, StateGraph.currentStateId.
  destruct (StateGraph.current_index_ g) as [c|] eqn:Hc.
  - unfold mbind at 1, lift, at_index.
    destruct (StateGraph.nodes_ g !! c) as [n|] eqn:Hn; [cbn; eauto|].
    cbn. intros [[e H]|[cur H]]; [discriminate|].
    unfold StateGraph.currentNode, at_index in H. rewrite Hc, Hn in H. discriminate.
  - cbn. intros [[e H]|[cur H]]; [discriminate|].
    unfold StateGraph.currentNode in H. rewrite Hc in H. discriminate.
Qed.

(** C2 as the code has it.  An evaluation error raised in the
    hierarchical step propagates out of it and leaves the current phase
    where it was.  Raised by the condition of a node edge, it leaves the
    multi-phase graph as before the step.  Raised by the condition of a
    phase edge (those before it in the adjacency list being false), it
    leaves the graph the node-level step of this tick made, which is not
    rolled back; that is the graph before the step if no node edge fired.
    Every evaluation error the step throws is raised in one of these two
    ways. *)
Theorem step_eval_error_state
    (mp : MultiPhaseStateGraph.t) (ci : nat) (ph : MultiPhaseStateGraph.Phase.t) :
  MultiPhaseStateGraph.current_phase_ mp = Some ci ->
  MultiPhaseStateGraph.phases_ mp !! ci = Some ph ->
  (forall e,
     fst (StateGraph.step (MultiPhaseStateGraph.Phase.graph ph)) = Throw e ->
     MultiPhaseStateGraph.step mp = (Throw e, mp)) /\
  (forall ns g1 cur pre j post pe e,
     StateGraph.step (MultiPhaseStateGraph.Phase.graph ph) = (Ret ns, g1) ->
     StateGraph.currentNode g1 = Ret cur ->
     MultiPhaseStateGraph.phase_adj_ mp !! ci = Some (pre ++ j :: post)%list ->
     Forall (fun k => exists pe',
               MultiPhaseStateGraph.phase_edges_ mp !! k = Some pe' /\
               DefaultPhaseEdge.evaluate pe' cur = Ret false) pre ->
     MultiPhaseStateGraph.phase_edges_ mp !! j = Some pe ->
     DefaultPhaseEdge.evaluate pe cur = Throw e ->
     MultiPhaseStateGraph.step mp = (Throw e, with_phase_graph ci g1 mp) /\
     MultiPhaseStateGraph.current_phase_ (with_phase_graph ci g1 mp) = Some ci /\
     (ns = None -> with_phase_graph ci g1 mp = mp)) /\
  (forall e mp',
     MultiPhaseStateGraph.step mp = (Throw e, mp') ->
     is_eval_error e = true ->
     MultiPhaseStateGraph.current_phase_ mp' = Some ci /\
     match StateGraph.step (MultiPhaseStateGraph.Phase.graph ph) with
     | (Throw e', _) => e' = e /\ mp' = mp
     | (Ret None, _) => mp' = mp
     | (Ret (Some _), g1) => mp' = with_phase_graph ci g1 mp
     | (Undefined, _) => False
     end).
Proof.
  intros Hc Hp. split; [|split].
  - intros e He.
    destruct (prevState_returns (MultiPhaseStateGraph.Phase.graph ph)) as [sid Hsid];
      [left; eauto|].
    unfold MultiPhaseStateGraph.step. rewrite Hc.
    unfold mbind at 1, MultiPhaseStateGraph.phase_at. unfold at_index at 1. rewrite Hp.
    unfold mbind at 1, lift. rewrite Hsid.
    unfold mbind at 1. rewrite (on_graph_eq ci _ ph mp Hp), He.
    destruct (StateGraph.step (MultiPhaseStateGraph.Phase.graph ph)) as [o g1] eqn:Hs.
    cbn [fst snd] in *. subst o. apply StateGraph_step_throw in Hs as ->.
    rewrite with_phase_graph_same by exact Hp. reflexivity.
  - intros ns g1 cur pre j post pe e Hs Hcur Hadj Hpre Hj He.
    destruct (prevState_returns (MultiPhaseStateGraph.Phase.graph ph)) as [sid Hsid];
      [right; rewrite Hs; eauto|].
    destruct (with_phase_graph_static ci g1 mp) as (Hc1 & He1 & Ha1).
    pose proof (with_phase_graph_lookup ci g1 ph mp Hp) as Hp1.
    split; [|split].
    + unfold MultiPhaseStateGraph.step. rewrite Hc.
      unfold mbind at 1, MultiPhaseStateGraph.phase_at. unfold at_index at 1. rewrite Hp.
      unfold mbind at 1, lift. rewrite Hsid.
      unfold mbind at 1. rewrite (on_graph_eq ci _ ph mp Hp), Hs. cbn [fst snd].
      unfold mbind at 1. rewrite (on_graph_eq ci _ _ _ Hp1). cbn [fst snd].
      rewrite (with_phase_graph_same ci _ _ Hp1).
      cbn [MultiPhaseStateGraph.Phase.graph MultiPhaseStateGraph.Phase.set_graph].
      rewrite Hcur. unfold mbind at 1. unfold at_index at 1. rewrite Ha1, Hadj.
      unfold mbind at 1. rewrite (phase_loop_raises cur pre post j pe e); try assumption.
      * reflexivity.
      * rewrite He1. exact Hpre.
      * rewrite He1. exact Hj.
    + rewrite Hc1. exact Hc.
    + intros ->. apply StateGraph_step_no_transition in Hs as ->.
      apply with_phase_graph_same. exact Hp.
  - intros e mp' Hstep He.
    destruct (step_eval_error_inv mp mp' e Hstep He) as (ci' & ph' & Hc' & Hp' & Hcur & Hm).
    assert (ci' = ci) as -> by congruence. assert (ph' = ph) as -> by congruence.
    split; [exact Hcur|exact Hm].
Qed.

Lemma step_eval_error_state_witness :
  MultiPhaseStateGraph.step Sample.mpNodeThrow =
    (Throw (Unknown_var "missing"), Sample.mpNodeThrow) /\
  MultiPhaseStateGraph.step Sample.mpThrow =
    (Throw (Unknown_var "missing"),
     with_phase_graph 0 (snd (StateGraph.step Sample.graphAB)) Sample.mpThrow) /\
  MultiPhaseStateGraph.current_phase_
    (with_phase_graph 0 (snd (StateGraph.step Sample.graphAB)) Sample.mpThrow) = Some 0%nat.
Proof.
  split.
  - apply (proj1 (step_eval_error_state Sample.mpNodeThrow 0
                    (MultiPhaseStateGraph.Phase.mk "P" Sample.graphNodeThrow "A")
                    eq_refl eq_refl)).
    vm_compute. reflexivity.
  - destruct (proj1 (proj2 (step_eval_error_state Sample.mpThrow 0
                    (MultiPhaseStateGraph.Phase.mk "P" Sample.graphAB "A")
                    eq_refl eq_refl))
                (Some "B")
                (snd (StateGraph.step Sample.graphAB))
                (written (DefaultEdge.actions Sample.edge1) Sample.nodeB)
                [] 0%nat [] Sample.edgeMissing (Unknown_var "missing"))
      as (Hstep & Hcur & _).
    + vm_compute. reflexivity.
    + vm_compute. reflexivity.
    + reflexivity.
    + constructor.
    + reflexivity.
    + vm_compute. reflexivity.
    + split; [exact Hstep|exact Hcur].
Defined.

(** C2 as stated fails: the phase edge of [Sample.mpThrow] throws an
    unknown-name error after the node edge [A -> B] has been taken, and the
    graph the step leaves has [B] as its current node. *)
Lemma step_eval_error_after_transition :
  fst (MultiPhaseStateGraph.step Sample.mpThrow) = Throw (Unknown_var "missing") /\
  is_eval_error (Unknown_var "missing") = true /\
  fst (MultiPhaseStateGraph.currentStateId Sample.mpThrow) = Ret "A" /\
  fst (MultiPhaseStateGraph.currentStateId
         (snd (MultiPhaseStateGraph.step Sample.mpThrow))) = Ret "B" /\
  snd (MultiPhaseStateGraph.step Sample.mpThrow) <> Sample.mpThrow.
Proof.
  split; [vm_compute; reflexivity|].
  split; [reflexivity|].
  split; [vm_compute; reflexivity|].
  split; [vm_compute; reflexivity|].
  intros H.
  apply (f_equal (fun mp => fst (MultiPhaseStateGraph.currentStateId mp))) in H.
  vm_compute in H. discriminate H.
Qed.

(** ** Resumable phases *)

Lemma preserves_mbind {S A B : Type} (P : S -> Prop) (m : M S A) (k : A -> M S B) :
  preserves P m -> (forall a, preserves P (k a)) -> preserves P (mbind m k).
Proof.
  intros Hm Hk s Hs. specialize (Hm s Hs). unfold mbind.
  destruct (m s) as [[a| x |] s1]; cbn [snd] in *; [|exact Hm|exact Hm].
  apply Hk, Hm.
Qed.

Lemma preserves_const {S A : Type} (P : S -> Prop) (f : S -> outcome A) :
  preserves P (fun s => (f s, s)).
Proof. intros s Hs. exact Hs. Qed.

Section Resume.
Variable ia : nat.
Variable pa : MultiPhaseStateGraph.Phase.t.
Hypothesis pa_current :
  StateGraph.hasCurrentState (MultiPhaseStateGraph.Phase.graph pa) = true.

Local Abbreviation kept := (phase_is ia pa).

Lemma on_graph_keeps {A : Type} (i : nat) (m : M StateGraph.t A) :
  i <> ia -> preserves kept (MultiPhaseStateGraph.on_graph i m).
Proof.
  intros Hi mp Hk. unfold MultiPhaseStateGraph.on_graph.
  destruct (MultiPhaseStateGraph.phases_ mp !! i) as [ph|]; [|exact Hk].
  destruct (m (MultiPhaseStateGraph.Phase.graph ph)) as [o g]. unfold phase_is; cbn.
  rewrite list_lookup_insert_ne by exact Hi. exact Hk.
Qed.

Lemma switch_phase_keeps (pe : DefaultPhaseEdge.t) :
  preserves kept (MultiPhaseStateGraph.switch_phase pe).
Proof.
  intros mp Hk. unfold MultiPhaseStateGraph.switch_phase.
  destruct (MultiPhaseStateGraph.phase_index_ mp !! DefaultPhaseEdge.to pe)
    as [target|]; [|exact Hk].
  unfold mbind at 1, modify. unfold mbind at 1, MultiPhaseStateGraph.phase_at, at_index.
  cbn [MultiPhaseStateGraph.phases_ MultiPhaseStateGraph.set_current_phase].
  destruct (MultiPhaseStateGraph.phases_ mp !! target) as [np|] eqn:Hp; [|exact Hk].
  destruct (Nat.eq_dec target ia) as [->|Hne].
  - unfold phase_is in Hk. rewrite Hk in Hp. injection Hp as <-.
    rewrite pa_current. exact Hk.
  - destruct (negb (StateGraph.hasCurrentState (MultiPhaseStateGraph.Phase.graph np)) &&
              negb (String.eqb (MultiPhaseStateGraph.Phase.initial_state np) ""));
      [|exact Hk].
    apply (preserves_mbind kept); [apply on_graph_keeps, Hne| |exact Hk].
    intros a s Hs. exact Hs.
Qed.

Lemma phase_loop_keeps (cur : DefaultNode.t) (adj : list nat) :
  preserves kept (MultiPhaseStateGraph.phase_loop cur adj).
Proof.
  induction adj as [|j adj IH]; cbn [MultiPhaseStateGraph.phase_loop].
  - intros s Hs. exact Hs.
  - apply preserves_mbind; [apply preserves_const|intros pe].
    apply preserves_mbind; [apply (preserves_const kept (fun _ => _))|intros [|]].
    + apply preserves_mbind; [apply switch_phase_keeps|].
      intros a s Hs. exact Hs.
    + exact IH.
Qed.

Lemma currentPhaseId_keeps : preserves kept MultiPhaseStateGraph.currentPhaseId.
Proof.
  intros mp Hk. unfold MultiPhaseStateGraph.currentPhaseId.
  destruct (MultiPhaseStateGraph.current_phase_ mp) as [i|]; [|exact Hk].
  unfold mbind, MultiPhaseStateGraph.phase_at, at_index.
  destruct (MultiPhaseStateGraph.phases_ mp !! i); exact Hk.
Qed.

Lemma currentStateId_keeps : preserves kept MultiPhaseStateGraph.currentStateId.
Proof.
  intros mp Hk. unfold MultiPhaseStateGraph.currentStateId.
  destruct (MultiPhaseStateGraph.current_phase_ mp) as [i|]; [|exact Hk].
  unfold mbind, MultiPhaseStateGraph.phase_at, at_index, lift.
  destruct (MultiPhaseStateGraph.phases_ mp !! i) as [p|]; [|exact Hk].
  destruct (StateGraph.currentStateId (MultiPhaseStateGraph.Phase.graph p)); exact Hk.
Qed.

(** What [step] does once the node-level step has run. *)
Lemma step_tail_keeps (ci : nat) (ns : option string) :
  preserves kept
    (curNode <~ MultiPhaseStateGraph.on_graph ci (fun g => (StateGraph.currentNode g, g)) ;;
     adj <~ (fun mp1 => (at_index (MultiPhaseStateGraph.phase_adj_ mp1) ci, mp1)) ;;
     changed <~ MultiPhaseStateGraph.phase_loop curNode adj ;;
     pid <~ MultiPhaseStateGraph.currentPhaseId ;;
     sid <~ MultiPhaseStateGraph.currentStateId ;;
     mret (Some (MultiPhaseStateGraph.mkStepResult changed
                   (match ns with Some _ => true | None => false end) pid sid))).
Proof.
  apply preserves_mbind.
  { intros mp Hk. unfold MultiPhaseStateGraph.on_graph.
    destruct (MultiPhaseStateGraph.phases_ mp !! ci) as [ph|] eqn:Hp; [|exact Hk].
    cbn. replace (MultiPhaseStateGraph.Phase.set_graph
                    (MultiPhaseStateGraph.Phase.graph ph) ph) with ph
      by (destruct ph; reflexivity).
    unfold phase_is; cbn. rewrite list_insert_id by exact Hp. exact Hk. }
  intros curNode. apply preserves_mbind; [apply preserves_const|intros adj].
  apply preserves_mbind; [apply phase_loop_keeps|intros changed].
  apply preserves_mbind; [apply currentPhaseId_keeps|intros pid].
  apply preserves_mbind; [apply currentStateId_keeps|intros sid].
  intros s Hs. exact Hs.
Qed.

Lemma step_keeps_other_phase (mp : MultiPhaseStateGraph.t) (ib : nat) :
  MultiPhaseStateGraph.current_phase_ mp = Some ib ->
  ib <> ia ->
  kept mp -> kept (snd (MultiPhaseStateGraph.step mp)).
Proof.
  intros Hc Hne Hk. unfold MultiPhaseStateGraph.step. rewrite Hc.
  revert mp Hk Hc. 
  refine (fun mp Hk _ => preserves_mbind kept _ _ _ _ mp Hk);
    [apply (preserves_const kept (fun mp => at_index (MultiPhaseStateGraph.phases_ mp) ib))
    |intros phase].
  apply preserves_mbind; [apply (preserves_const kept (fun _ => _))|intros prev].
  apply preserves_mbind; [apply on_graph_keeps, Hne|intros ns].
  apply step_tail_keeps.
Qed.

Lemma steps_outside_keep (mp mp' : MultiPhaseStateGraph.t) :
  steps_outside ia mp mp' -> kept mp -> kept mp'.
Proof.
  induction 1 as [|mp mp1 mp2 ib o Hc Hne Hs _ IH]; intros Hk; [exact Hk|].
  apply IH. pose proof (step_keeps_other_phase mp ib Hc Hne Hk) as H.
  rewrite Hs in H. exact H.
Qed.
End Resume.

Lemma take_has_current (e : DefaultEdge.t) (g : StateGraph.t) :
  StateGraph.hasCurrentState (snd (StateGraph.take e g)) = true.
Proof.
  unfold StateGraph.take, mbind, StateGraph.node_index_subscript, modify, mret, at_index.
  destruct (StateGraph.node_index_ g !! DefaultEdge.to e); cbn;
    match goal with |- context [?l !! ?i] => destruct (l !! i) end; reflexivity.
Qed.

Lemma step_loop_has_current (cur : DefaultNode.t) (adj : list nat) :
  preserves (fun g => StateGraph.hasCurrentState g = true) (StateGraph.step_loop cur adj).
Proof.
  induction adj as [|j adj IH]; cbn [StateGraph.step_loop].
  - intros g Hg. exact Hg.
  - apply preserves_mbind; [apply preserves_const|intros e].
    apply preserves_mbind; [apply (preserves_const _ (fun _ => _))|intros [|]].
    + intros g _. apply take_has_current.
    + exact IH.
Qed.

Lemma StateGraph_step_has_current (g : StateGraph.t) :
  StateGraph.hasCurrentState g = true ->
  StateGraph.hasCurrentState (snd (StateGraph.step g)) = true.
Proof.
  intros Hg. unfold StateGraph.step.
  destruct (StateGraph.current_index_ g) as [i|]; [|exact Hg].
  unfold mbind at 1, lift, at_index.
  destruct (StateGraph.nodes_ g !! i) as [cur|]; [|exact Hg].
  unfold mbind at 1. destruct (StateGraph.adjacency_ g !! i) as [adj|]; [|exact Hg].
  apply step_loop_has_current, Hg.
Qed.

Lemma currentStateId_has_current (g : StateGraph.t) (s : string) :
  StateGraph.currentStateId g = Ret s -> StateGraph.hasCurrentState g = true.
Proof.
  unfold StateGraph.currentStateId, StateGraph.hasCurrentState.
  destruct (StateGraph.current_index_ g); [reflexivity|discriminate].
Qed.

(** The step taken while phase [ia] is current leaves in that phase the
    graph its node-level step produced, with a current node. *)
Lemma step_leaves_phase (mp0 mp : MultiPhaseStateGraph.t) (ia : nat)
    (pa0 : MultiPhaseStateGraph.Phase.t) (r : option MultiPhaseStateGraph.StepResult) :
  MultiPhaseStateGraph.current_phase_ mp0 = Some ia ->
  MultiPhaseStateGraph.phases_ mp0 !! ia = Some pa0 ->
  MultiPhaseStateGraph.step mp0 = (Ret r, mp) ->
  let pa := MultiPhaseStateGraph.Phase.set_graph
              (snd (StateGraph.step (MultiPhaseStateGraph.Phase.graph pa0))) pa0 in
  StateGraph.hasCurrentState (MultiPhaseStateGraph.Phase.graph pa) = true /\
  MultiPhaseStateGraph.phases_ mp !! ia = Some pa.
Proof.
  intros Hc Hp Hstep pa. unfold MultiPhaseStateGraph.step in Hstep. rewrite Hc in Hstep.
  unfold mbind at 1, MultiPhaseStateGraph.phase_at in Hstep.
  unfold at_index at 1 in Hstep. rewrite Hp in Hstep.
  unfold mbind at 1, lift in Hstep.
  destruct (StateGraph.currentStateId (MultiPhaseStateGraph.Phase.graph pa0))
    as [prev| |] eqn:Hprev; [|discriminate|discriminate].
  apply currentStateId_has_current in Hprev.
  apply StateGraph_step_has_current in Hprev.
  split; [exact Hprev|].
  unfold mbind at 1 in Hstep. rewrite (on_graph_eq ia _ pa0 mp0 Hp) in Hstep.
  destruct (fst (StateGraph.step (MultiPhaseStateGraph.Phase.graph pa0)))
    as [ns| |]; [|discriminate|discriminate].
  pose proof (step_tail_keeps ia pa Hprev ia ns
                (with_phase_graph ia
                   (snd (StateGraph.step (MultiPhaseStateGraph.Phase.graph pa0))) mp0)
                (with_phase_graph_lookup ia _ pa0 mp0 Hp)) as Hk.
  rewrite Hstep in Hk. exact Hk.
Qed.

Lemma switch_phase_known (mp : MultiPhaseStateGraph.t) (pe : DefaultPhaseEdge.t)
    (target : nat) (np : MultiPhaseStateGraph.Phase.t) :
  MultiPhaseStateGraph.phase_index_ mp !! DefaultPhaseEdge.to pe = Some target ->
  MultiPhaseStateGraph.phases_ mp !! target = Some np ->
  MultiPhaseStateGraph.switch_phase pe mp =
  (Ret tt,
   if StateGraph.hasCurrentState (MultiPhaseStateGraph.Phase.graph np)
   then MultiPhaseStateGraph.set_current_phase (Some target) mp
   else if String.eqb (MultiPhaseStateGraph.Phase.initial_state np) ""
   then MultiPhaseStateGraph.set_current_phase (Some target) mp
   else with_phase_graph target
          (snd (StateGraph.setInitialState
                  (MultiPhaseStateGraph.Phase.initial_state np)
                  (MultiPhaseStateGraph.Phase.graph np)))
          (MultiPhaseStateGraph.set_current_phase (Some target) mp)).
Proof.
  intros Hi Hp. unfold MultiPhaseStateGraph.switch_phase. rewrite Hi.
  unfold mbind at 1, modify. unfold mbind at 1, MultiPhaseStateGraph.phase_at, at_index.
  cbn [MultiPhaseStateGraph.phases_ MultiPhaseStateGraph.set_current_phase]. rewrite Hp.
  destruct (StateGraph.hasCurrentState (MultiPhaseStateGraph.Phase.graph np));
    [reflexivity|].
  destruct (String.eqb (MultiPhaseStateGraph.Phase.initial_state np) ""); [reflexivity|].
  cbn [negb andb]. unfold mbind.
  rewrite (on_graph_eq target _ np) by exact Hp.
  unfold StateGraph.setInitialState.
  destruct (StateGraph.node_index_ (MultiPhaseStateGraph.Phase.graph np) !! _); reflexivity.
Qed.

Lemma setInitialPhase_forces (mp : MultiPhaseStateGraph.t) (phaseId : string)
    (i : nat) (p : MultiPhaseStateGraph.Phase.t) (k : nat) :
  MultiPhaseStateGraph.phase_index_ mp !! phaseId = Some i ->
  MultiPhaseStateGraph.phases_ mp !! i = Some p ->
  MultiPhaseStateGraph.Phase.initial_state p <> "" ->
  StateGraph.node_index_ (MultiPhaseStateGraph.Phase.graph p)
    !! MultiPhaseStateGraph.Phase.initial_state p = Some k ->
  MultiPhaseStateGraph.setInitialPhase phaseId mp =
  (Ret true,
   with_phase_graph i
     (StateGraph.set_current_index (Some k) (MultiPhaseStateGraph.Phase.graph p))
     (MultiPhaseStateGraph.set_current_phase (Some i) mp)).
Proof.
  intros Hi Hp Hne Hk. unfold MultiPhaseStateGraph.setInitialPhase. rewrite Hi.
  unfold mbind at 1, modify. unfold mbind at 1, MultiPhaseStateGraph.phase_at, at_index.
  cbn [MultiPhaseStateGraph.phases_ MultiPhaseStateGraph.set_current_phase]. rewrite Hp.
  destruct (String.eqb_spec (MultiPhaseStateGraph.Phase.initial_state p) "") as [E|_];
    [destruct (Hne E)|].
  cbn [negb]. unfold mbind. rewrite (on_graph_eq i _ p) by exact Hp.
  unfold StateGraph.setInitialState. rewrite Hk. reflexivity.
Qed.

(** C7: phases resume.  (1) After a step taken in phase [ia], which leaves
    in it the graph of its node-level step, any steps taken while other
    phases are current -- the last of them may enter [ia] again -- leave
    phase [ia] as it was, so that when it is current again its current node
    is the one it had when it was last active.  (2) The step that switches
    to a phase sets the phase's initial state only when the phase has no
    current node.  (3) [setInitialPhase] sets the current node of the phase
    to its declared initial state whatever current node the phase had. *)
Theorem phases_resume :
  (forall ia pa0 mp0 r mp mp',
     MultiPhaseStateGraph.current_phase_ mp0 = Some ia ->
     MultiPhaseStateGraph.phases_ mp0 !! ia = Some pa0 ->
     MultiPhaseStateGraph.step mp0 = (Ret r, mp) ->
     steps_outside ia mp mp' ->
     let pa := MultiPhaseStateGraph.Phase.set_graph
                 (snd (StateGraph.step (MultiPhaseStateGraph.Phase.graph pa0))) pa0 in
     MultiPhaseStateGraph.phases_ mp !! ia = Some pa /\
     StateGraph.hasCurrentState (MultiPhaseStateGraph.Phase.graph pa) = true /\
     MultiPhaseStateGraph.phases_ mp' !! ia = Some pa /\
     (MultiPhaseStateGraph.current_phase_ mp' = Some ia ->
      MultiPhaseStateGraph.currentStateId mp' =
        (StateGraph.currentStateId (MultiPhaseStateGraph.Phase.graph pa), mp') /\
      MultiPhaseStateGraph.currentNode mp' =
        (StateGraph.currentNode (MultiPhaseStateGraph.Phase.graph pa), mp'))) /\
  (forall mp pe target np,
     MultiPhaseStateGraph.phase_index_ mp !! DefaultPhaseEdge.to pe = Some target ->
     MultiPhaseStateGraph.phases_ mp !! target = Some np ->
     MultiPhaseStateGraph.switch_phase pe mp =
     (Ret tt,
      if StateGraph.hasCurrentState (MultiPhaseStateGraph.Phase.graph np)
      then MultiPhaseStateGraph.set_current_phase (Some target) mp
      else if String.eqb (MultiPhaseStateGraph.Phase.initial_state np) ""
      then MultiPhaseStateGraph.set_current_phase (Some target) mp
      else with_phase_graph target
             (snd (StateGraph.setInitialState
                     (MultiPhaseStateGraph.Phase.initial_state np)
                     (MultiPhaseStateGraph.Phase.graph np)))
             (MultiPhaseStateGraph.set_current_phase (Some target) mp))) /\
  (forall mp phaseId i p k,
     MultiPhaseStateGraph.phase_index_ mp !! phaseId = Some i ->
     MultiPhaseStateGraph.phases_ mp !! i = Some p ->
     MultiPhaseStateGraph.Phase.initial_state p <> "" ->
     StateGraph.node_index_ (MultiPhaseStateGraph.Phase.graph p)
       !! MultiPhaseStateGraph.Phase.initial_state p = Some k ->
     MultiPhaseStateGraph.setInitialPhase phaseId mp =
     (Ret true,
      with_phase_graph i
        (StateGraph.set_current_index (Some k) (MultiPhaseStateGraph.Phase.graph p))
        (MultiPhaseStateGraph.set_current_phase (Some i) mp))).
Proof.
  split; [|split].
  - intros ia pa0 mp0 r mp mp' Hc Hp Hstep Hout pa.
    destruct (step_leaves_phase mp0 mp ia pa0 r Hc Hp Hstep) as [Hcur Hpa].
    fold pa in Hcur, Hpa.
    pose proof (steps_outside_keep ia pa Hcur mp mp' Hout Hpa) as Hpa'.
    split; [exact Hpa|split; [exact Hcur|split; [exact Hpa'|]]].
    intros Hc'. unfold MultiPhaseStateGraph.currentStateId,
      MultiPhaseStateGraph.currentNode. rewrite Hc'.
    unfold mbind, MultiPhaseStateGraph.phase_at, at_index, lift. rewrite Hpa'.
    split; reflexivity.
  - apply switch_phase_known.
  - apply setInitialPhase_forces.
Qed.

Lemma phases_resume_witness :
  fst (MultiPhaseStateGraph.currentStateId Sample.mpLeft) = Ret "b0" /\
  MultiPhaseStateGraph.currentStateId Sample.mpBack = (Ret "a1", Sample.mpBack) /\
  fst (MultiPhaseStateGraph.currentStateId
         (snd (MultiPhaseStateGraph.setInitialPhase "PA" Sample.mpBack))) = Ret "a0".
Proof.
  destruct phases_resume as (Hresume & _ & Hforce).
  split; [vm_compute; reflexivity|split].
  - destruct (Hresume 0%nat Sample.phaseA Sample.mpResume
                (Some (MultiPhaseStateGraph.mkStepResult true true "PB" "b0"))
                Sample.mpLeft Sample.mpBack)
      as (_ & _ & _ & Hcur).
    + reflexivity.
    + reflexivity.
    + vm_compute. reflexivity.
    + apply (steps_outside_step 0 Sample.mpLeft Sample.mpBack Sample.mpBack 1
               (fst (MultiPhaseStateGraph.step Sample.mpLeft))).
      * vm_compute. reflexivity.
      * discriminate.
      * vm_compute. reflexivity.
      * apply steps_outside_refl.
    + destruct Hcur as [Hid _]; [vm_compute; reflexivity|].
      rewrite Hid. vm_compute. reflexivity.
  - rewrite (Hforce Sample.mpBack "PA" 0%nat
               (MultiPhaseStateGraph.Phase.set_graph
                  (snd (StateGraph.step Sample.graphA)) Sample.phaseA) 0%nat).
    + vm_compute. reflexivity.
    + vm_compute. reflexivity.
    + vm_compute. reflexivity.
    + discriminate.
    + vm_compute. reflexivity.
Defined.

(** ** The lexer *)

Lemma skip_space_length (s : string) :
  (String.length (Lexer.skip_space s) <= String.length s)%nat.
Proof.
  induction s as [|c s IH]; cbn; [lia|]. destruct (isspace c); cbn; lia.
Qed.

Lemma scan_length (p : ascii -> bool) (s w r : string) :
  Lexer.scan p s = (w, r) -> (String.length r <= String.length s)%nat.
Proof.
  revert w r. induction s as [|c s IH]; cbn; intros w r.
  - intros [= _ <-]. cbn. lia.
  - destruct (p c).
    + destruct (Lexer.scan p s) as [w0 r0]. intros [= _ <-].
      specialize (IH w0 r0 eq_refl). lia.
    + intros [= _ <-]. cbn. lia.
Qed.

Lemma scan_quote_length (s w r : string) :
  Lexer.scan_quote s = Some (w, r) -> (String.length r < String.length s)%nat.
Proof.
  revert w r. induction s as [|c s IH]; cbn; intros w r; [discriminate|].
  destruct (Ascii.eqb c dquote).
  - intros [= _ <-]. lia.
  - destruct (Lexer.scan_quote s) as [[w0 r0]|]; [|discriminate].
    intros [= _ <-]. specialize (IH w0 r0 eq_refl). lia.
Qed.

Lemma match2_inv (a b0 : ascii) (s : string) :
  Lexer.match2 a b0 s = true -> exists r, s = String a (String b0 r).
Proof.
  destruct s as [|x [|y r]]; cbn; try discriminate.
  intros H. apply andb_true_iff in H as [Hx Hy].
  apply Ascii.eqb_eq in Hx, Hy. subst. eauto.
Qed.

(** A token other than [END] takes at least one character of the input;
    [END] is returned at the end of the input only. *)
Lemma next_consumes (s rest : string) (tok : Token.t) :
  Lexer.next s = Ret (tok, rest) ->
  match Token.kind tok with
  | END => rest = EmptyString
  | _ => (String.length rest < String.length s)%nat
  end.
Proof.
  unfold Lexer.next. pose proof (skip_space_length s) as Hs.
  destruct (Lexer.skip_space s) as [|c s'] eqn:E; [intros [= <- <-]; reflexivity|].
  cbn [String.length] in Hs.
  destruct (isalpha c || Ascii.eqb c "_").
  { destruct (Lexer.scan Lexer.ident_char s') as [w r] eqn:Hscan.
    apply scan_length in Hscan.
    destruct (String.eqb (String c w) "true" || String.eqb (String c w) "false");
      intros [= <- <-]; cbn; lia. }
  destruct (isdigit c).
  { destruct (Lexer.scan Lexer.number_char s') as [w r] eqn:Hscan.
    apply scan_length in Hscan. intros [= <- <-]; cbn; lia. }
  destruct (Ascii.eqb c dquote).
  { destruct (Lexer.scan_quote s') as [[w r]|] eqn:Hscan; [|discriminate].
    apply scan_quote_length in Hscan. intros [= <- <-]; cbn; lia. }
  repeat match goal with
  | |- context [Lexer.match2 ?a ?b0 ?t] =>
      destruct (Lexer.match2 a b0 t) eqn:?;
      [match goal with
       | H : Lexer.match2 _ _ _ = true |- _ =>
           apply match2_inv in H as [r0 H]; inversion H; subst;
           intros [= <- <-]; cbn in *; lia
       end|]
  end.
  destruct (Ascii.eqb c "<" || Ascii.eqb c ">" || Ascii.eqb c "!");
    [intros [= <- <-]; cbn; lia|].
  destruct (Ascii.eqb c "("); [intros [= <- <-]; cbn; lia|].
  destruct (Ascii.eqb c ")"); [intros [= <- <-]; cbn; lia|].
  discriminate.
Qed.

(** C1: the lexer has no case for [-]: a [-] where a token starts is an
    unexpected character, so [x > -1] does not compile. *)
Theorem minus_is_unexpected_char (stod : string -> outcome double) :
  compileExpression stod "x > -1" = Throw (Unexpected_char "-") /\
  Lexer.next "-1" = Throw (Unexpected_char "-") /\
  (forall s, Lexer.next (String "-" s) = Throw (Unexpected_char "-")).
Proof.
  split; [reflexivity|split; [reflexivity|]].
  intros [|c s]; reflexivity.
Qed.

(** ** The parser: the fuel is enough *)

Lemma advance_size (p q : Parser.t) :
  TokKind_eqb (Token.kind (Parser.cur p)) END = false ->
  Parser.advance p = Ret q ->
  (Parser.size q < Parser.size p)%nat.
Proof.
  intros Hk. unfold Parser.advance, bind.
  destruct (Lexer.next (Parser.lex p)) as [[tok rest]| |] eqn:Hn; [|discriminate|discriminate].
  intros [= <-]. apply next_consumes in Hn. unfold Parser.size. rewrite Hk.
  cbn [Parser.lex Parser.cur fst snd].
  destruct (Token.kind tok); cbn [TokKind_eqb]; subst; cbn; lia.
Qed.

Lemma kind_not_END (p : Parser.t) (k : TokKind) :
  Token.kind (Parser.cur p) = k -> k <> END ->
  TokKind_eqb (Token.kind (Parser.cur p)) END = false.
Proof. intros -> H. destruct k; try reflexivity. destruct H; reflexivity. Qed.

Lemma isOp_not_END (op : string) (p : Parser.t) :
  Parser.isOp op p = true ->
  TokKind_eqb (Token.kind (Parser.cur p)) END = false.
Proof.
  unfold Parser.isOp. destruct (Token.kind (Parser.cur p)); cbn; congruence.
Qed.

Lemma is_cmp_op_not_END (p : Parser.t) :
  Parser.is_cmp_op p = true ->
  TokKind_eqb (Token.kind (Parser.cur p)) END = false.
Proof.
  unfold Parser.is_cmp_op. destruct (Token.kind (Parser.cur p)); cbn; congruence.
Qed.

Section Fuel.
Variable stod : string -> outcome double.
Variable m : nat.
Hypothesis IH : forall m', (m' < m)%nat -> fuel_enough stod m'.
Variable p : Parser.t.
Hypothesis Hp : (Parser.size p <= m)%nat.

(** The facts for a parser reached from [p] by reading a token. *)
Lemma fuel_after (q : Parser.t) :
  (Parser.size q < Parser.size p)%nat ->
  (forall n, (5 * m - 4 <= n)%nat -> smaller q (Parser.parsePrimary stod n q)) /\
  (forall n, (5 * m - 2 <= n)%nat -> smaller q (Parser.parseNot stod n q)) /\
  (forall n left, (5 * m - 4 <= n)%nat ->
     not_larger q (Parser.parseAnd_loop stod n left q)) /\
  (forall n, (5 * m - 1 <= n)%nat -> smaller q (Parser.parseAnd stod n q)) /\
  (forall n left, (5 * m - 4 <= n)%nat ->
     not_larger q (Parser.parseOr_loop stod n left q)) /\
  (forall n, (5 * m <= n)%nat -> smaller q (Parser.parseOr stod n q)).
Proof.
  intros Hq.
  destruct (IH (m - 1)%nat ltac:(lia) q ltac:(lia))
    as (H1 & _ & H3 & H4 & H5 & H6 & H7).
  repeat split; intros; first [apply H1|apply H3|apply H4|apply H5|apply H6|apply H7]; lia.
Qed.

Lemma fuel_parsePrimary (n : nat) :
  (5 * m + 1 <= n)%nat -> smaller p (Parser.parsePrimary stod n p).
Proof.
  intros Hn. destruct n as [|n]; [lia|]. cbn [Parser.parsePrimary].
  destruct (Token.kind (Parser.cur p)) eqn:Hk; cbn [smaller]; trivial.
  - (* ID *)
    destruct (Parser.advance p) as [p1| |] eqn:Ha; cbn; trivial.
    eapply advance_size; [|exact Ha]. eapply kind_not_END; [exact Hk|discriminate].
  - (* NUM *)
    destruct (stod (Token.text (Parser.cur p))) as [x| |]; cbn; trivial.
    destruct (Parser.advance p) as [p1| |] eqn:Ha; cbn; trivial.
    eapply advance_size; [|exact Ha]. eapply kind_not_END; [exact Hk|discriminate].
  - (* STR *)
    destruct (Parser.advance p) as [p1| |] eqn:Ha; cbn; trivial.
    eapply advance_size; [|exact Ha]. eapply kind_not_END; [exact Hk|discriminate].
  - (* BOOL *)
    destruct (Parser.advance p) as [p1| |] eqn:Ha; cbn; trivial.
    eapply advance_size; [|exact Ha]. eapply kind_not_END; [exact Hk|discriminate].
  - (* LP *)
    destruct (Parser.advance p) as [p1| |] eqn:Ha; cbn [Parser.lbind smaller]; trivial.
    assert (H1 : (Parser.size p1 < Parser.size p)%nat).
    { eapply advance_size; [|exact Ha]. eapply kind_not_END; [exact Hk|discriminate]. }
    destruct (fuel_after p1 H1) as (_ & _ & _ & _ & _ & HOr).
    specialize (HOr n ltac:(lia)).
    destruct (Parser.parseOr stod n p1) as [[[e p2]| |]|];
      cbn [Parser.pbind smaller] in *; trivial.
    unfold Parser.consume.
    destruct (TokKind_eqb (Token.kind (Parser.cur p2)) RP) eqn:Hrp; cbn; trivial.
    destruct (Parser.advance p2) as [p3| |] eqn:Ha2; cbn; trivial.
    assert ((Parser.size p3 < Parser.size p2)%nat); [|lia].
    eapply advance_size; [|exact Ha2].
    destruct (Token.kind (Parser.cur p2)); cbn in *; congruence.
Qed.

Lemma fuel_parseCmp (n : nat) :
  (5 * m + 2 <= n)%nat -> smaller p (Parser.parseCmp stod n p).
Proof.
  intros Hn. destruct n as [|n]; [lia|]. cbn [Parser.parseCmp].
  pose proof (fuel_parsePrimary n ltac:(lia)) as H1.
  destruct (Parser.parsePrimary stod n p) as [[[e p1]| |]|];
    cbn [Parser.pbind smaller] in *; trivial.
  destruct (Parser.is_cmp_op p1) eqn:Hop; cbn [smaller]; [|exact H1].
  destruct (Parser.advance p1) as [p2| |] eqn:Ha; cbn [Parser.lbind smaller]; trivial.
  assert (H2 : (Parser.size p2 < Parser.size p1)%nat).
  { eapply advance_size; [|exact Ha]. apply is_cmp_op_not_END, Hop. }
  destruct (fuel_after p2 ltac:(lia)) as (HPrim & _).
  specialize (HPrim n ltac:(lia)).
  destruct (Parser.parsePrimary stod n p2) as [[[e2 p3]| |]|];
    cbn [Parser.pbind smaller] in *; trivial. lia.
Qed.

Lemma fuel_parseNot (n : nat) :
  (5 * m + 3 <= n)%nat -> smaller p (Parser.parseNot stod n p).
Proof.
  intros Hn. destruct n as [|n]; [lia|]. cbn [Parser.parseNot].
  destruct (Parser.isOp "!" p) eqn:Hop; [|apply fuel_parseCmp; lia].
  destruct (Parser.advance p) as [p1| |] eqn:Ha; cbn [Parser.lbind smaller]; trivial.
  assert (H1 : (Parser.size p1 < Parser.size p)%nat).
  { eapply advance_size; [|exact Ha]. eapply isOp_not_END, Hop. }
  destruct (fuel_after p1 H1) as (_ & HNot & _).
  specialize (HNot n ltac:(lia)).
  destruct (Parser.parseNot stod n p1) as [[[e p2]| |]|];
    cbn [Parser.pbind smaller] in *; trivial. lia.
Qed.

Lemma fuel_parseAnd_loop (n : nat) (left : ExprNode) :
  (5 * m + 1 <= n)%nat -> not_larger p (Parser.parseAnd_loop stod n left p).
Proof.
  intros Hn. destruct n as [|n]; [lia|]. cbn [Parser.parseAnd_loop].
  destruct (Parser.isOp "&&" p) eqn:Hop; [|cbn; lia].
  destruct (Parser.advance p) as [p1| |] eqn:Ha; cbn [Parser.lbind not_larger]; trivial.
  assert (H1 : (Parser.size p1 < Parser.size p)%nat).
  { eapply advance_size; [|exact Ha]. eapply isOp_not_END, Hop. }
  destruct (fuel_after p1 H1) as (_ & HNot & _).
  specialize (HNot n ltac:(lia)).
  destruct (Parser.parseNot stod n p1) as [[[e p2]| |]|];
    cbn [Parser.pbind smaller not_larger] in *; trivial.
  destruct (fuel_after p2 ltac:(lia)) as (_ & _ & HLoop & _).
  specialize (HLoop n (AND left e) ltac:(lia)).
  destruct (Parser.parseAnd_loop stod n (AND left e) p2) as [[[e3 p3]| |]|];
    cbn [not_larger] in *; trivial. lia.
Qed.

Lemma fuel_parseAnd (n : nat) :
  (5 * m + 4 <= n)%nat -> smaller p (Parser.parseAnd stod n p).
Proof.
  intros Hn. destruct n as [|n]; [lia|]. cbn [Parser.parseAnd].
  pose proof (fuel_parseNot n ltac:(lia)) as H1.
  destruct (Parser.parseNot stod n p) as [[[e p1]| |]|];
    cbn [Parser.pbind smaller] in *; trivial.
  destruct (fuel_after p1 H1) as (_ & _ & HLoop & _).
  specialize (HLoop n e ltac:(lia)).
  destruct (Parser.parseAnd_loop stod n e p1) as [[[e3 p3]| |]|];
    cbn [smaller not_larger] in *; trivial. lia.
Qed.

Lemma fuel_parseOr_loop (n : nat) (left : ExprNode) :
  (5 * m + 1 <= n)%nat -> not_larger p (Parser.parseOr_loop stod n left p).
Proof.
  intros Hn. destruct n as [|n]; [lia|]. cbn [Parser.parseOr_loop].
  destruct (Parser.isOp "||" p) eqn:Hop; [|cbn; lia].
  destruct (Parser.advance p) as [p1| |] eqn:Ha; cbn [Parser.lbind not_larger]; trivial.
  assert (H1 : (Parser.size p1 < Parser.size p)%nat).
  { eapply advance_size; [|exact Ha]. eapply isOp_not_END, Hop. }
  destruct (fuel_after p1 H1) as (_ & _ & _ & HAnd & _).
  specialize (HAnd n ltac:(lia)).
  destruct (Parser.parseAnd stod n p1) as [[[e p2]| |]|];
    cbn [Parser.pbind smaller not_larger] in *; trivial.
  destruct (fuel_after p2 ltac:(lia)) as (_ & _ & _ & _ & HLoop & _).
  specialize (HLoop n (OR left e) ltac:(lia)).
  destruct (Parser.parseOr_loop stod n (OR left e) p2) as [[[e3 p3]| |]|];
    cbn [not_larger] in *; trivial. lia.
Qed.

Lemma fuel_parseOr (n : nat) :
  (5 * m + 5 <= n)%nat -> smaller p (Parser.parseOr stod n p).
Proof.
  intros Hn. destruct n as [|n]; [lia|]. cbn [Parser.parseOr].
  pose proof (fuel_parseAnd n ltac:(lia)) as H1.
  destruct (Parser.parseAnd stod n p) as [[[e p1]| |]|];
    cbn [Parser.pbind smaller] in *; trivial.
  destruct (fuel_after p1 H1) as (_ & _ & _ & _ & HLoop & _).
  specialize (HLoop n e ltac:(lia)).
  destruct (Parser.parseOr_loop stod n e p1) as [[[e3 p3]| |]|];
    cbn [smaller not_larger] in *; trivial. lia.
Qed.
End Fuel.

Lemma fuel_enough_all (stod : string -> outcome double) (m : nat) : fuel_enough stod m.
Proof.
  induction m as [m IH] using (well_founded_induction lt_wf).
  intros p Hp. repeat split; intros.
  - eapply fuel_parsePrimary; eauto.
  - eapply fuel_parseCmp; eauto.
  - eapply fuel_parseNot; eauto.
  - eapply fuel_parseAnd_loop; eauto.
  - eapply fuel_parseAnd; eauto.
  - eapply fuel_parseOr_loop; eauto.
  - eapply fuel_parseOr; eauto.
Qed.

(** The parser terminates: with the fuel [Parser.parse] gives it, the
    descent always has a result, so [compileExpression] returns a tree or
    throws. *)
Theorem parseOr_terminates (stod : string -> outcome double) (p : Parser.t) :
  exists r, Parser.parse stod p = Some r.
Proof.
  destruct (fuel_enough_all stod (Parser.size p) p (le_n _)) as (_ & _ & _ & _ & _ & _ & H).
  specialize (H (Parser.fuel_of p) ltac:(unfold Parser.fuel_of; lia)).
  unfold Parser.parse. destruct (Parser.parseOr stod (Parser.fuel_of p) p) as [r|];
    [eauto|destruct H].
Qed.

(** ** The parser: more fuel gives the same result *)

Lemma fuel_monotone_all (stod : string -> outcome double) (n : nat) :
  fuel_monotone stod n.
Proof.
  induction n as [|n IHn]; intros k Hk.
  { repeat split; intros; discriminate. }
  destruct k as [|k]; [lia|].
  destruct (IHn k ltac:(lia)) as (M1 & M2 & M3 & M4 & M5 & M6 & M7).
  repeat split.
  - intros p r H. cbn [Parser.parsePrimary] in *.
    destruct (Token.kind (Parser.cur p)); try exact H.
    destruct (Parser.advance p) as [p1| |]; cbn [Parser.lbind] in *; try exact H.
    destruct (Parser.parseOr stod n p1) as [[[e p2]| |]|] eqn:E;
      cbn [Parser.pbind] in H; [| | |discriminate H];
      rewrite (M7 _ _ E); cbn [Parser.pbind]; exact H.
  - intros p r H. cbn [Parser.parseCmp] in *.
    destruct (Parser.parsePrimary stod n p) as [[[e p1]| |]|] eqn:E;
      cbn [Parser.pbind] in H; [| | |discriminate H];
      rewrite (M1 _ _ E); cbn [Parser.pbind]; try exact H.
    destruct (Parser.is_cmp_op p1); [|exact H].
    destruct (Parser.advance p1) as [p2| |]; cbn [Parser.lbind] in *; try exact H.
    destruct (Parser.parsePrimary stod n p2) as [[[e2 p3]| |]|] eqn:E2;
      cbn [Parser.pbind] in H; [| | |discriminate H];
      rewrite (M1 _ _ E2); cbn [Parser.pbind]; exact H.
  - intros p r H. cbn [Parser.parseNot] in *.
    destruct (Parser.isOp "!" p); [|apply M2, H].
    destruct (Parser.advance p) as [p1| |]; cbn [Parser.lbind] in *; try exact H.
    destruct (Parser.parseNot stod n p1) as [[[e p2]| |]|] eqn:E;
      cbn [Parser.pbind] in H; [| | |discriminate H];
      rewrite (M3 _ _ E); cbn [Parser.pbind]; exact H.
  - intros left p r H. cbn [Parser.parseAnd_loop] in *.
    destruct (Parser.isOp "&&" p); [|exact H].
    destruct (Parser.advance p) as [p1| |]; cbn [Parser.lbind] in *; try exact H.
    destruct (Parser.parseNot stod n p1) as [[[e p2]| |]|] eqn:E;
      cbn [Parser.pbind] in H; [| | |discriminate H];
      rewrite (M3 _ _ E); cbn [Parser.pbind]; try exact H.
    apply M4, H.
  - intros p r H. cbn [Parser.parseAnd] in *.
    destruct (Parser.parseNot stod n p) as [[[e p1]| |]|] eqn:E;
      cbn [Parser.pbind] in H; [| | |discriminate H];
      rewrite (M3 _ _ E); cbn [Parser.pbind]; try exact H.
    apply M4, H.
  - intros left p r H. cbn [Parser.parseOr_loop] in *.
    destruct (Parser.isOp "||" p); [|exact H].
    destruct (Parser.advance p) as [p1| |]; cbn [Parser.lbind] in *; try exact H.
    destruct (Parser.parseAnd stod n p1) as [[[e p2]| |]|] eqn:E;
      cbn [Parser.pbind] in H; [| | |discriminate H];
      rewrite (M5 _ _ E); cbn [Parser.pbind]; try exact H.
    apply M6, H.
  - intros p r H. cbn [Parser.parseOr] in *.
    destruct (Parser.parseAnd stod n p) as [[[e p1]| |]|] eqn:E;
      cbn [Parser.pbind] in H; [| | |discriminate H];
      rewrite (M5 _ _ E); cbn [Parser.pbind]; try exact H.
    apply M6, H.
Qed.

Lemma parseOr_fuel_irrelevant (stod : string -> outcome double) (n k : nat)
    (p : Parser.t) (r r' : outcome (ExprNode * Parser.t)) :
  Parser.parseOr stod n p = Some r ->
  Parser.parseOr stod k p = Some r' ->
  r = r'.
Proof.
  intros H H'.
  destruct (fuel_monotone_all stod n (Nat.max n k) ltac:(lia)) as (_ & _ & _ & _ & _ & _ & M).
  destruct (fuel_monotone_all stod k (Nat.max n k) ltac:(lia)) as (_ & _ & _ & _ & _ & _ & M').
  apply M in H. apply M' in H'. congruence.
Qed.

(** ** The lexer on an input followed by a blank and more text *)

Lemma app_String (c : ascii) (s y : string) : String c s ++ y = String c (s ++ y).
Proof. reflexivity. Qed.

Lemma app_Empty (y : string) : EmptyString ++ y = y.
Proof. reflexivity. Qed.

Section LexerAppend.
Variable t : string.
Local Abbreviation x := (String " " t).

Lemma skip_space_app (s s' : string) (c : ascii) :
  Lexer.skip_space s = String c s' ->
  Lexer.skip_space (s ++ x) = String c (s' ++ x).
Proof.
  induction s as [|d s IH]; [discriminate|].
  rewrite app_String. cbn [Lexer.skip_space].
  destruct (isspace d); [exact IH|]. intros [= -> ->]. reflexivity.
Qed.

Lemma skip_space_app_end (s : string) :
  Lexer.skip_space s = EmptyString ->
  Lexer.skip_space (s ++ x) = Lexer.skip_space t.
Proof.
  induction s as [|d s IH]; [reflexivity|].
  rewrite app_String. cbn [Lexer.skip_space].
  destruct (isspace d); [exact IH|discriminate].
Qed.

Lemma scan_app (p : ascii -> bool) (s w r : string) :
  p " "%char = false ->
  Lexer.scan p s = (w, r) ->
  Lexer.scan p (s ++ x) = (w, r ++ x).
Proof.
  intros Hp. revert w r. induction s as [|c s IH]; intros w r.
  - rewrite app_Empty. cbn [Lexer.scan]. rewrite Hp.
    intros [= <- <-]. reflexivity.
  - rewrite app_String. cbn [Lexer.scan]. destruct (p c).
    + destruct (Lexer.scan p s) as [w0 r0]. rewrite (IH w0 r0 eq_refl).
      intros [= <- <-]. reflexivity.
    + intros [= <- <-]. reflexivity.
Qed.

Lemma scan_quote_app (s w r : string) :
  Lexer.scan_quote s = Some (w, r) ->
  Lexer.scan_quote (s ++ x) = Some (w, r ++ x).
Proof.
  revert w r. induction s as [|c s IH]; intros w r; [discriminate|].
  rewrite app_String. cbn [Lexer.scan_quote].
  destruct (Ascii.eqb c dquote); [intros [= <- <-]; reflexivity|].
  destruct (Lexer.scan_quote s) as [[w0 r0]|]; [|discriminate].
  rewrite (IH w0 r0 eq_refl). intros [= <- <-]. reflexivity.
Qed.

Lemma match2_app (a b0 c : ascii) (s : string) :
  Ascii.eqb " " b0 = false ->
  Lexer.match2 a b0 (String c (s ++ x)) = Lexer.match2 a b0 (String c s).
Proof.
  intros Hb. destruct s as [|d s]; [|reflexivity].
  rewrite app_Empty. cbn [Lexer.match2].
  rewrite Hb. apply andb_false_r.
Qed.

(** A token read before the end of [s] is read from [s ++ x] as well;
    at the end of [s] the lexer reads on in [t]. *)
Lemma next_app (s rest : string) (tok : Token.t) :
  Lexer.next s = Ret (tok, rest) ->
  if TokKind_eqb (Token.kind tok) END
  then Lexer.next (s ++ x) = Lexer.next t
  else Lexer.next (s ++ x) = Ret (tok, rest ++ x).
Proof.
  unfold Lexer.next at 1.
  destruct (Lexer.skip_space s) as [|c s'] eqn:E.
  { intros [= <- <-]. cbn [Token.kind TokKind_eqb]. unfold Lexer.next.
    rewrite (skip_space_app_end s E). reflexivity. }
  unfold Lexer.next. rewrite (skip_space_app s s' c E).
  rewrite !match2_app by reflexivity.
  destruct (isalpha c || Ascii.eqb c "_").
  { destruct (Lexer.scan Lexer.ident_char s') as [w r] eqn:Hscan.
    rewrite (scan_app _ _ _ _ eq_refl Hscan).
    destruct (String.eqb (String c w) "true" || String.eqb (String c w) "false");
      intros [= <- <-]; reflexivity. }
  destruct (isdigit c).
  { destruct (Lexer.scan Lexer.number_char s') as [w r] eqn:Hscan.
    rewrite (scan_app _ _ _ _ eq_refl Hscan). intros [= <- <-]; reflexivity. }
  destruct (Ascii.eqb c dquote).
  { destruct (Lexer.scan_quote s') as [[w r]|] eqn:Hscan; [|discriminate].
    rewrite (scan_quote_app _ _ _ Hscan). intros [= <- <-]; reflexivity. }
  repeat match goal with
  | |- context [Lexer.match2 ?a ?b0 ?u] =>
      destruct (Lexer.match2 a b0 u) eqn:?;
      [match goal with
       | H : Lexer.match2 _ _ _ = true |- _ =>
           apply match2_inv in H as [r0 H]; inversion H; subst;
           intros [= <- <-]; reflexivity
       end|]
  end.
  destruct (Ascii.eqb c "<" || Ascii.eqb c ">" || Ascii.eqb c "!");
    [intros [= <- <-]; reflexivity|].
  destruct (Ascii.eqb c "("); [intros [= <- <-]; reflexivity|].
  destruct (Ascii.eqb c ")"); [intros [= <- <-]; reflexivity|].
  discriminate.
Qed.
End LexerAppend.

(** ** The parser on an input followed by a blank and more text *)

Section Trailing.
Variable stod : string -> outcome double.
Variables (t r_t : string) (tok_t : Token.t).
Hypothesis next_t : Lexer.next t = Ret (tok_t, r_t).
Hypothesis stops : continues_expression tok_t = false.

Local Abbreviation rel := (follows t r_t tok_t).
Local Abbreviation sim := (simulated t r_t tok_t).

Lemma rel_cur (p p' : Parser.t) :
  rel p p' -> TokKind_eqb (Token.kind (Parser.cur p)) END = false ->
  Parser.cur p' = Parser.cur p.
Proof. unfold follows. intros H HE. rewrite HE in H. subst p'. reflexivity. Qed.

Lemma advance_sim (p p' q : Parser.t) :
  rel p p' -> TokKind_eqb (Token.kind (Parser.cur p)) END = false ->
  Parser.advance p = Ret q ->
  exists q', Parser.advance p' = Ret q' /\ rel q q'.
Proof.
  unfold follows at 1. intros H HE. rewrite HE in H. subst p'.
  unfold Parser.advance, bind. cbn [Parser.lex].
  destruct (Lexer.next (Parser.lex p)) as [[tok rest]| |] eqn:Hn; [|discriminate|discriminate].
  intros [= <-]. apply (next_app t) in Hn. unfold follows.
  cbn [Parser.cur Parser.lex fst snd].
  destruct (TokKind_eqb (Token.kind tok) END); rewrite Hn.
  - rewrite next_t. eexists. split; reflexivity.
  - eexists. split; reflexivity.
Qed.

Lemma rel_binary (p p' : Parser.t) :
  rel p p' ->
  Parser.isOp "||" p' = Parser.isOp "||" p /\
  Parser.isOp "&&" p' = Parser.isOp "&&" p /\
  Parser.is_cmp_op p' = Parser.is_cmp_op p.
Proof.
  unfold follows. destruct (TokKind_eqb (Token.kind (Parser.cur p)) END) eqn:HE; intros ->.
  - unfold continues_expression in stops.
    apply orb_false_iff in stops as [H12 H3]. apply orb_false_iff in H12 as [H1 H2].
    unfold Parser.isOp, Parser.is_cmp_op in *. cbn [Parser.cur] in *.
    rewrite H1, H2, H3.
    destruct (Token.kind (Parser.cur p)); try discriminate HE. auto.
  - auto.
Qed.

Lemma parsePrimary_at_END (n : nat) (p q : Parser.t) (e : ExprNode) :
  TokKind_eqb (Token.kind (Parser.cur p)) END = true ->
  Parser.parsePrimary stod n p <> Some (Ret (e, q)).
Proof.
  intros HE. destruct n as [|n]; [discriminate|]. cbn [Parser.parsePrimary].
  destruct (Token.kind (Parser.cur p)); try discriminate HE. discriminate.
Qed.

Lemma parseCmp_at_END (n : nat) (p q : Parser.t) (e : ExprNode) :
  TokKind_eqb (Token.kind (Parser.cur p)) END = true ->
  Parser.parseCmp stod n p <> Some (Ret (e, q)).
Proof.
  intros HE. destruct n as [|n]; [discriminate|]. cbn [Parser.parseCmp].
  pose proof (fun e q => parsePrimary_at_END n p q e HE) as H.
  destruct (Parser.parsePrimary stod n p) as [[[e1 p1]| |]|]; cbn [Parser.pbind];
    try discriminate.
  destruct (H e1 p1 eq_refl).
Qed.

Lemma parse_sim (n : nat) :
  sim (Parser.parsePrimary stod n) /\
  sim (Parser.parseCmp stod n) /\
  sim (Parser.parseNot stod n) /\
  (forall left, sim (Parser.parseAnd_loop stod n left)) /\
  sim (Parser.parseAnd stod n) /\
  (forall left, sim (Parser.parseOr_loop stod n left)) /\
  sim (Parser.parseOr stod n).
Proof.
  induction n as [|n (S1 & S2 & S3 & S4 & S5 & S6 & S7)].
  { repeat split; intros; intros p p' e q _ H; discriminate H. }
  repeat split.
  - (* parsePrimary *)
    intros p p' e q Hr H. cbn [Parser.parsePrimary] in *.
    destruct (Token.kind (Parser.cur p)) eqn:Hk; try discriminate H;
      (assert (HE : TokKind_eqb (Token.kind (Parser.cur p)) END = false)
         by (rewrite Hk; reflexivity));
      rewrite (rel_cur p p' Hr HE), Hk.
    + destruct (Parser.advance p) as [p1| |] eqn:Ha; try discriminate H.
      destruct (advance_sim p p' p1 Hr HE Ha) as (q1 & Ha' & Hr1). rewrite Ha'.
      cbn [Parser.lbind] in *. injection H as <- <-. eauto.
    + destruct (stod (Token.text (Parser.cur p))) as [d| |]; try discriminate H.
      cbn [Parser.lbind] in *.
      destruct (Parser.advance p) as [p1| |] eqn:Ha; try discriminate H.
      destruct (advance_sim p p' p1 Hr HE Ha) as (q1 & Ha' & Hr1). rewrite Ha'.
      cbn [Parser.lbind] in *. injection H as <- <-. eauto.
    + destruct (Parser.advance p) as [p1| |] eqn:Ha; try discriminate H.
      destruct (advance_sim p p' p1 Hr HE Ha) as (q1 & Ha' & Hr1). rewrite Ha'.
      cbn [Parser.lbind] in *. injection H as <- <-. eauto.
    + destruct (Parser.advance p) as [p1| |] eqn:Ha; try discriminate H.
      destruct (advance_sim p p' p1 Hr HE Ha) as (q1 & Ha' & Hr1). rewrite Ha'.
      cbn [Parser.lbind] in *. injection H as <- <-. eauto.
    + destruct (Parser.advance p) as [p1| |] eqn:Ha; try discriminate H.
      destruct (advance_sim p p' p1 Hr HE Ha) as (q1 & Ha' & Hr1). rewrite Ha'.
      cbn [Parser.lbind] in *.
      destruct (Parser.parseOr stod n p1) as [[[e2 p2]| |]|] eqn:E; try discriminate H.
      destruct (S7 p1 q1 e2 p2 Hr1 E) as (q2 & E' & Hr2). rewrite E'.
      cbn [Parser.pbind] in *. unfold Parser.consume in *.
      destruct (TokKind_eqb (Token.kind (Parser.cur p2)) RP) eqn:Hrp;
        try discriminate H.
      assert (HE2 : TokKind_eqb (Token.kind (Parser.cur p2)) END = false)
        by (destruct (Token.kind (Parser.cur p2)); try discriminate Hrp; reflexivity).
      rewrite (rel_cur p2 q2 Hr2 HE2), Hrp. cbn [negb] in *.
      destruct (Parser.advance p2) as [p3| |] eqn:Ha3; try discriminate H.
      destruct (advance_sim p2 q2 p3 Hr2 HE2 Ha3) as (q3 & Ha3' & Hr3). rewrite Ha3'.
      cbn [Parser.lbind] in *. injection H as <- <-. eauto.
  - (* parseCmp *)
    intros p p' e q Hr H. cbn [Parser.parseCmp] in *.
    destruct (Parser.parsePrimary stod n p) as [[[e1 p1]| |]|] eqn:E; try discriminate H.
    destruct (S1 p p' e1 p1 Hr E) as (q1 & E' & Hr1). rewrite E'.
    cbn [Parser.pbind] in *.
    destruct (rel_binary p1 q1 Hr1) as (_ & _ & Hcmp). rewrite Hcmp.
    destruct (Parser.is_cmp_op p1) eqn:Hop.
    + pose proof (is_cmp_op_not_END p1 Hop) as HE1.
      rewrite (rel_cur p1 q1 Hr1 HE1).
      destruct (Parser.advance p1) as [p2| |] eqn:Ha; try discriminate H.
      destruct (advance_sim p1 q1 p2 Hr1 HE1 Ha) as (q2 & Ha' & Hr2). rewrite Ha'.
      cbn [Parser.lbind] in *.
      destruct (Parser.parsePrimary stod n p2) as [[[e3 p3]| |]|] eqn:E3;
        try discriminate H.
      destruct (S1 p2 q2 e3 p3 Hr2 E3) as (q3 & E3' & Hr3). rewrite E3'.
      cbn [Parser.pbind] in *. injection H as <- <-. eauto.
    + injection H as <- <-. eauto.
  - (* parseNot *)
    intros p p' e q Hr H. cbn [Parser.parseNot] in *.
    destruct (TokKind_eqb (Token.kind (Parser.cur p)) END) eqn:HE.
    { assert (Hno : Parser.isOp "!" p = false)
        by (unfold Parser.isOp; destruct (Token.kind (Parser.cur p));
            try discriminate HE; reflexivity).
      rewrite Hno in H. destruct (parseCmp_at_END n p q e HE H). }
    assert (Hop : Parser.isOp "!" p' = Parser.isOp "!" p)
      by (unfold Parser.isOp; rewrite (rel_cur p p' Hr HE); reflexivity).
    rewrite Hop. destruct (Parser.isOp "!" p); [|apply (S2 p p' e q Hr H)].
    destruct (Parser.advance p) as [p1| |] eqn:Ha; try discriminate H.
    destruct (advance_sim p p' p1 Hr HE Ha) as (q1 & Ha' & Hr1). rewrite Ha'.
    cbn [Parser.lbind] in *.
    destruct (Parser.parseNot stod n p1) as [[[e2 p2]| |]|] eqn:E; try discriminate H.
    destruct (S3 p1 q1 e2 p2 Hr1 E) as (q2 & E' & Hr2). rewrite E'.
    cbn [Parser.pbind] in *. injection H as <- <-. eauto.
  - (* parseAnd_loop *)
    intros left p p' e q Hr H. cbn [Parser.parseAnd_loop] in *.
    destruct (rel_binary p p' Hr) as (_ & Hand & _). rewrite Hand.
    destruct (Parser.isOp "&&" p) eqn:Hop; [|injection H as <- <-; eauto].
    pose proof (isOp_not_END _ p Hop) as HE.
    destruct (Parser.advance p) as [p1| |] eqn:Ha; try discriminate H.
    destruct (advance_sim p p' p1 Hr HE Ha) as (q1 & Ha' & Hr1). rewrite Ha'.
    cbn [Parser.lbind] in *.
    destruct (Parser.parseNot stod n p1) as [[[e2 p2]| |]|] eqn:E; try discriminate H.
    destruct (S3 p1 q1 e2 p2 Hr1 E) as (q2 & E' & Hr2). rewrite E'.
    cbn [Parser.pbind] in *. apply (S4 _ p2 q2 e q Hr2 H).
  - (* parseAnd *)
    intros p p' e q Hr H. cbn [Parser.parseAnd] in *.
    destruct (Parser.parseNot stod n p) as [[[e1 p1]| |]|] eqn:E; try discriminate H.
    destruct (S3 p p' e1 p1 Hr E) as (q1 & E' & Hr1). rewrite E'.
    cbn [Parser.pbind] in *. apply (S4 _ p1 q1 e q Hr1 H).
  - (* parseOr_loop *)
    intros left p p' e q Hr H. cbn [Parser.parseOr_loop] in *.
    destruct (rel_binary p p' Hr) as (Hor & _ & _). rewrite Hor.
    destruct (Parser.isOp "||" p) eqn:Hop; [|injection H as <- <-; eauto].
    pose proof (isOp_not_END _ p Hop) as HE.
    destruct (Parser.advance p) as [p1| |] eqn:Ha; try discriminate H.
    destruct (advance_sim p p' p1 Hr HE Ha) as (q1 & Ha' & Hr1). rewrite Ha'.
    cbn [Parser.lbind] in *.
    destruct (Parser.parseAnd stod n p1) as [[[e2 p2]| |]|] eqn:E; try discriminate H.
    destruct (S5 p1 q1 e2 p2 Hr1 E) as (q2 & E' & Hr2). rewrite E'.
    cbn [Parser.pbind] in *. apply (S6 _ p2 q2 e q Hr2 H).
  - (* parseOr *)
    intros p p' e q Hr H. cbn [Parser.parseOr] in *.
    destruct (Parser.parseAnd stod n p) as [[[e1 p1]| |]|] eqn:E; try discriminate H.
    destruct (S5 p p' e1 p1 Hr E) as (q1 & E' & Hr1). rewrite E'.
    cbn [Parser.pbind] in *. apply (S6 _ p1 q1 e q Hr1 H).
Qed.

Lemma compileExpression_trailing (s : string) (e : ExprNode) :
  compileExpression stod s = Ret e ->
  compileExpression stod (s ++ " " ++ t) = Ret e.
Proof.
  unfold compileExpression, Parser.make, bind.
  destruct (Lexer.next s) as [[tok rest]| |] eqn:Hn; [|discriminate|discriminate].
  cbn [fst snd]. set (p := Parser.mk rest tok).
  destruct (parseOr_terminates stod p) as [r Hr]. rewrite Hr.
  destruct r as [[e0 q]| |]; [|discriminate|discriminate].
  intros [= <-].
  assert (Hp' : exists p', Lexer.next (s ++ " " ++ t) = Ret (Parser.cur p', Parser.lex p')
                           /\ rel p p').
  { apply (next_app t) in Hn. unfold follows. cbn [Parser.cur Parser.lex p].
    change (" " ++ t) with (String " " t).
    destruct (TokKind_eqb (Token.kind tok) END); rewrite Hn.
    - rewrite next_t. exists (Parser.mk r_t tok_t). split; reflexivity.
    - eexists (Parser.mk _ _). split; reflexivity. }
  destruct Hp' as (p' & Hn' & Hrel). rewrite Hn'. cbn [fst snd].
  replace (Parser.mk (Parser.lex p') (Parser.cur p')) with p' by (destruct p'; reflexivity).
  destruct (parse_sim (Parser.fuel_of p)) as (_ & _ & _ & _ & _ & _ & S7).
  destruct (S7 p p' e0 q Hrel Hr) as (q' & Hr' & _).
  destruct (parseOr_terminates stod p') as [r' Hr''].
  rewrite Hr''. unfold Parser.parse in Hr''.
  rewrite <- (parseOr_fuel_irrelevant stod _ _ p' _ _ Hr' Hr''). reflexivity.
Qed.
End Trailing.

(** C4 as the code has it: [compileExpression] returns the tree of the
    leading expression and never looks whether the input ends there.  When
    [s] compiles to a tree, [s] followed by a blank and by any text whose
    first token lexes and is not a binary operator ([||], [&&], [==], [!=],
    [<], [<=], [>], [>=]) compiles to the same tree: the trailing tokens
    are ignored. *)
Theorem trailing_tokens_are_ignored
    (stod : string -> outcome double) (s t rest : string)
    (e : ExprNode) (tok : Token.t) :
  compileExpression stod s = Ret e ->
  Lexer.next t = Ret (tok, rest) ->
  continues_expression tok = false ->
  compileExpression stod (s ++ " " ++ t) = Ret e.
Proof.
  intros Hs Ht Hstop.
  exact (compileExpression_trailing stod t rest tok Ht Hstop s e Hs).
Qed.

Lemma trailing_tokens_are_ignored_witness :
  compileExpression stod_short ("a" ++ " " ++ ") b") = Ret (Sample.leaf_ident "a").
Proof.
  apply (trailing_tokens_are_ignored stod_short "a" ") b" " b"
           (Sample.leaf_ident "a") (Token.mk RP ")")); reflexivity.
Defined.

(** C4 as stated fails: [a b] and [a ) b] compile, to the tree of [a]. *)
Lemma trailing_input_compiles :
  compileExpression stod_short "a b" = Ret (Sample.leaf_ident "a") /\
  compileExpression stod_short "a ) b" = Ret (Sample.leaf_ident "a").
Proof. split; reflexivity. Qed.

(** ** Well-formed single-phase graphs *)

Lemma wf_empty : StateGraph_wf StateGraph.empty.
Proof.
  split; cbn; try reflexivity; discriminate.
Qed.

Lemma addNode_wf (n : DefaultNode.t) : preserves StateGraph_wf (StateGraph.addNode n).
Proof.
  intros g [Hadj Hidx Hinv Hed Haj Hcur]. unfold StateGraph.addNode.
  case_bool_decide as Hdup; [split; assumption|].
  assert (Hnone : StateGraph.node_index_ g !! DefaultNode.id n = None)
    by (destruct (StateGraph.node_index_ g !! DefaultNode.id n) eqn:E;
        [destruct Hdup; eauto|reflexivity]).
  split; cbn.
  - rewrite !length_app, Hadj. reflexivity.
  - intros id i Hi. destruct (decide (DefaultNode.id n = id)) as [<-|Hne].
    + rewrite lookup_insert_eq in Hi. injection Hi as <-.
      exists n. split; [|reflexivity].
      rewrite lookup_app_r by lia. rewrite Nat.sub_diag. reflexivity.
    + rewrite lookup_insert_ne in Hi by exact Hne.
      destruct (Hidx id i Hi) as (m & Hm & Hid). exists m. split; [|exact Hid].
      rewrite lookup_app_l by (eapply lookup_lt_Some, Hm). exact Hm.
  - intros i m Hm. destruct (decide (i < length (StateGraph.nodes_ g))%nat) as [Hlt|Hge].
    + rewrite lookup_app_l in Hm by exact Hlt.
      pose proof (Hinv i m Hm) as Hi.
      rewrite lookup_insert_ne; [exact Hi|]. intros E. rewrite <- E, Hnone in Hi.
      discriminate.
    + rewrite lookup_app_r in Hm by lia.
      destruct (i - length (StateGraph.nodes_ g))%nat as [|k] eqn:Ek; [|destruct k; discriminate].
      injection Hm as <-. replace i with (length (StateGraph.nodes_ g)) by lia.
      apply lookup_insert_eq.
  - intros j e He. destruct (Hed j e He) as [[fi Hf] [ti Ht]].
    split.
    + destruct (decide (DefaultNode.id n = DefaultEdge.from e)) as [E|Hne];
        [rewrite E in Hnone; congruence|rewrite lookup_insert_ne by exact Hne; eauto].
    + destruct (decide (DefaultNode.id n = DefaultEdge.to e)) as [E|Hne];
        [rewrite E in Hnone; congruence|rewrite lookup_insert_ne by exact Hne; eauto].
  - intros i a j Ha Hj.
    destruct (decide (i < length (StateGraph.adjacency_ g))%nat) as [Hlt|Hge].
    + rewrite lookup_app_l in Ha by exact Hlt.
      destruct (Haj i a j Ha Hj) as (e & He & Hf). exists e. split; [exact He|].
      destruct (decide (DefaultNode.id n = DefaultEdge.from e)) as [E|Hne];
        [rewrite E in Hnone; congruence|rewrite lookup_insert_ne by exact Hne; exact Hf].
    + rewrite lookup_app_r in Ha by lia.
      destruct (i - length (StateGraph.adjacency_ g))%nat as [|k]; [|destruct k; discriminate].
      injection Ha as <-. inversion Hj.
  - intros i Hi. rewrite length_app. specialize (Hcur i Hi). lia.
Qed.

Lemma addEdge_cases (e : DefaultEdge.t) (g : StateGraph.t) :
  StateGraph_wf g ->
  (exists fi ti a,
     StateGraph.node_index_ g !! DefaultEdge.from e = Some fi /\
     StateGraph.node_index_ g !! DefaultEdge.to e = Some ti /\
     StateGraph.adjacency_ g !! fi = Some a /\
     StateGraph.addEdge e g =
       (Ret tt,
        StateGraph.mk (StateGraph.nodes_ g) (StateGraph.edges_ g ++ [e])%list
          (StateGraph.node_index_ g)
          (<[fi := (a ++ [length (StateGraph.edges_ g)])%list]> (StateGraph.adjacency_ g))
          (StateGraph.current_index_ g))) \/
  ((StateGraph.node_index_ g !! DefaultEdge.from e = None \/
    StateGraph.node_index_ g !! DefaultEdge.to e = None) /\
   StateGraph.addEdge e g = (Throw Edge_references_unknown_node, g)).
Proof.
  intros [Hadj Hidx _ _ _ _]. unfold StateGraph.addEdge.
  destruct (StateGraph.node_index_ g !! DefaultEdge.from e) as [fi|] eqn:Hf;
    [|right; auto].
  destruct (StateGraph.node_index_ g !! DefaultEdge.to e) as [ti|] eqn:Ht;
    [|right; auto].
  left. destruct (Hidx _ _ Hf) as (n & Hn & _). apply lookup_lt_Some in Hn.
  rewrite <- Hadj in Hn. apply lookup_lt_is_Some in Hn as [a Ha].
  exists fi, ti, a. cbn. rewrite Ha. auto.
Qed.

Lemma addEdge_wf (e : DefaultEdge.t) : preserves StateGraph_wf (StateGraph.addEdge e).
Proof.
  intros g Hwf.
  destruct (addEdge_cases e g Hwf) as [(fi & ti & a & Hf & Ht & Ha & ->)|[_ ->]];
    [|exact Hwf].
  destruct Hwf as [Hadj Hidx Hinv Hed Haj Hcur]. split; cbn.
  - rewrite length_insert. exact Hadj.
  - exact Hidx.
  - exact Hinv.
  - intros j e' He'. destruct (decide (j < length (StateGraph.edges_ g))%nat) as [Hlt|Hge].
    + rewrite lookup_app_l in He' by exact Hlt. eauto.
    + rewrite lookup_app_r in He' by lia.
      destruct (j - length (StateGraph.edges_ g))%nat as [|k]; [|destruct k; discriminate].
      injection He' as <-. split; eauto.
  - intros i a' j Ha' Hj. destruct (decide (fi = i)) as [<-|Hne].
    + rewrite list_lookup_insert_eq in Ha' by (eapply lookup_lt_Some, Ha).
      injection Ha' as <-. apply elem_of_app in Hj as [Hj|Hj].
      * destruct (Haj fi a j Ha Hj) as (e' & He' & Hf'). exists e'. split; [|exact Hf'].
        rewrite lookup_app_l by (eapply lookup_lt_Some, He'). exact He'.
      * apply list_elem_of_singleton in Hj as ->. exists e. split; [|exact Hf].
        rewrite lookup_app_r by lia. rewrite Nat.sub_diag. reflexivity.
    + rewrite list_lookup_insert_ne in Ha' by exact Hne.
      destruct (Haj i a' j Ha' Hj) as (e' & He' & Hf'). exists e'. split; [|exact Hf'].
      rewrite lookup_app_l by (eapply lookup_lt_Some, He'). exact He'.
  - exact Hcur.
Qed.

Lemma setInitialState_wf (id : string) :
  preserves StateGraph_wf (StateGraph.setInitialState id).
Proof.
  intros g Hwf. unfold StateGraph.setInitialState.
  destruct (StateGraph.node_index_ g !! id) as [i|] eqn:Hi; [|exact Hwf].
  destruct Hwf as [Hadj Hidx Hinv Hed Haj Hcur]. split; cbn; try assumption.
  intros j [= <-]. destruct (Hidx id i Hi) as (n & Hn & _).
  eapply lookup_lt_Some, Hn.
Qed.

(** Replacing a node by one with the same id, and making it current. *)
Lemma wf_replace_node (g : StateGraph.t) (i : nat) (n n' : DefaultNode.t)
    (c : option nat) :
  StateGraph_wf g ->
  StateGraph.nodes_ g !! i = Some n ->
  DefaultNode.id n' = DefaultNode.id n ->
  (c = StateGraph.current_index_ g \/ c = Some i) ->
  StateGraph_wf
    (StateGraph.mk (<[i := n']> (StateGraph.nodes_ g)) (StateGraph.edges_ g)
       (StateGraph.node_index_ g) (StateGraph.adjacency_ g) c).
Proof.
  intros [Hadj Hidx Hinv Hed Haj Hcur] Hn Hid Hc.
  pose proof (lookup_lt_Some _ _ _ Hn) as Hlt. split; cbn; try assumption.
  - rewrite length_insert. exact Hadj.
  - intros id j Hj. destruct (Hidx id j Hj) as (m & Hm & Hidm).
    destruct (decide (i = j)) as [<-|Hne].
    + rewrite list_lookup_insert_eq by exact Hlt. exists n'. split; [reflexivity|].
      congruence.
    + rewrite list_lookup_insert_ne by exact Hne. eauto.
  - intros j m Hm. destruct (decide (i = j)) as [<-|Hne].
    + rewrite list_lookup_insert_eq in Hm by exact Hlt. injection Hm as <-.
      rewrite Hid. apply Hinv, Hn.
    + rewrite list_lookup_insert_ne in Hm by exact Hne. apply Hinv, Hm.
  - intros j Hj. rewrite length_insert. destruct Hc as [->| ->].
    + apply Hcur, Hj.
    + injection Hj as <-. exact Hlt.
Qed.

Lemma setCurrentVar_wf (k : string) (v : Value) :
  preserves StateGraph_wf (setCurrentVar k v).
Proof.
  intros g Hwf. unfold setCurrentVar.
  destruct (StateGraph.current_index_ g) as [i|] eqn:Hc; [|exact Hwf].
  destruct (StateGraph.nodes_ g !! i) as [n|] eqn:Hn; [|exact Hwf].
  cbn. unfold StateGraph.set_nodes. apply (wf_replace_node g i n); auto.
Qed.

Lemma take_wf (e : DefaultEdge.t) (g : StateGraph.t) :
  StateGraph_wf g ->
  is_Some (StateGraph.node_index_ g !! DefaultEdge.to e) ->
  exists ti dest,
    StateGraph.node_index_ g !! DefaultEdge.to e = Some ti /\
    StateGraph.nodes_ g !! ti = Some dest /\
    StateGraph_wf (snd (StateGraph.take e g)).
Proof.
  intros Hwf [ti Hi]. destruct (wf_index g Hwf _ _ Hi) as (dest & Hd & _).
  exists ti, dest. split; [exact Hi|split; [exact Hd|]].
  rewrite (take_known g e ti dest Hi Hd). cbn.
  apply (wf_replace_node g ti dest); auto.
Qed.

(** The evaluator never indexes out of range. *)
Lemma eval_defined (n : DefaultNode.t) (c : ExprNode) :
  eval c n <> Undefined /\ extractValue c n <> Undefined.
Proof.
  induction c as [a|l IHl|l IHl r IHr|l IHl r IHr|op l IHl r IHr].
  - split; cbn.
    + destruct (type a); try discriminate.
      destruct (lookup_ident (text a) n); discriminate.
    + destruct (type a); try discriminate.
      destruct (lookup_ident (text a) n); [discriminate|].
      destruct (has_properties_prefix (text a)); discriminate.
  - assert (eval (NOT l) n <> Undefined)
      by (cbn; destruct IHl as [IHl _]; destruct (eval l n); cbn; congruence).
    split; [assumption|]. cbn [extractValue].
    destruct (eval (NOT l) n); cbn; congruence.
  - assert (eval (AND l r) n <> Undefined).
    { cbn. destruct IHl as [IHl _], IHr as [IHr _].
      destruct (eval l n) as [[|]| |]; cbn; congruence. }
    split; [assumption|]. cbn [extractValue].
    destruct (eval (AND l r) n); cbn; congruence.
  - assert (eval (OR l r) n <> Undefined).
    { cbn. destruct IHl as [IHl _], IHr as [IHr _].
      destruct (eval l n) as [[|]| |]; cbn; congruence. }
    split; [assumption|]. cbn [extractValue].
    destruct (eval (OR l r) n); cbn; congruence.
  - assert (eval (CMP op l r) n <> Undefined).
    { rewrite eval_CMP. destruct IHl as [_ IHl], IHr as [_ IHr].
      destruct (extractValue l n) as [lv| |]; cbn; try congruence.
      destruct (extractValue r n) as [rv| |]; cbn; try congruence.
      unfold compare.
      destruct (String.eqb op "==" || String.eqb op "!="); [discriminate|].
      destruct lv, rv; cbn; try discriminate;
        repeat match goal with
               | |- context [if ?c then _ else _] => destruct c
               end; discriminate. }
    split; [assumption|]. cbn [extractValue].
    destruct (eval (CMP op l r) n); cbn; congruence.
Qed.

Lemma evaluate_defined (e : DefaultEdge.t) (n : DefaultNode.t) :
  DefaultEdge.evaluate e n <> Undefined.
Proof.
  unfold DefaultEdge.evaluate. destruct (DefaultEdge.compiled e) as [c|];
    [apply eval_defined|discriminate].
Qed.

Lemma step_loop_cons (cur : DefaultNode.t) (j : nat) (adj : list nat)
    (g : StateGraph.t) (e : DefaultEdge.t) :
  StateGraph.edges_ g !! j = Some e ->
  StateGraph.step_loop cur (j :: adj) g =
  match DefaultEdge.evaluate e cur with
  | Ret true => StateGraph.take e g
  | Ret false => StateGraph.step_loop cur adj g
  | Throw x => (Throw x, g)
  | Undefined => (Undefined, g)
  end.
Proof.
  intros He. cbn [StateGraph.step_loop]. unfold mbind at 1, at_index. rewrite He.
  unfold mbind at 1, lift. destruct (DefaultEdge.evaluate e cur) as [[|]| |]; reflexivity.
Qed.

(** A pass of [step] over edge positions of a well-formed graph. *)
Lemma step_loop_wf (cur : DefaultNode.t) (adj : list nat) (g : StateGraph.t) :
  StateGraph_wf g ->
  (forall j, j ∈ adj -> is_Some (StateGraph.edges_ g !! j)) ->
  StateGraph_wf (snd (StateGraph.step_loop cur adj g)) /\
  fst (StateGraph.step_loop cur adj g) <> Undefined /\
  StateGraph.node_index_ (snd (StateGraph.step_loop cur adj g)) = StateGraph.node_index_ g.
Proof.
  intros Hwf. induction adj as [|j adj IH]; intros Hadj.
  - split; [exact Hwf|split; [discriminate|reflexivity]].
  - destruct (Hadj j ltac:(left)) as [e He]. rewrite (step_loop_cons cur j adj g e He).
    pose proof (evaluate_defined e cur) as Hdef.
    destruct (DefaultEdge.evaluate e cur) as [[|]| x |] eqn:Hev.
    + destruct (wf_edges g Hwf j e He) as [_ Hto].
      destruct (take_wf e g Hwf Hto) as (ti & dest & Hi & Hd & Hwf').
      split; [exact Hwf'|]. rewrite (take_known g e ti dest Hi Hd). cbn.
      split; [discriminate|reflexivity].
    + apply IH. intros j' Hj'. apply Hadj. right. exact Hj'.
    + split; [exact Hwf|split; [discriminate|reflexivity]].
    + destruct (Hdef eq_refl).
Qed.

Lemma step_wf_facts (g : StateGraph.t) :
  StateGraph_wf g ->
  StateGraph_wf (snd (StateGraph.step g)) /\
  fst (StateGraph.step g) <> Undefined /\
  StateGraph.node_index_ (snd (StateGraph.step g)) = StateGraph.node_index_ g.
Proof.
  intros Hwf. destruct (StateGraph.current_index_ g) as [i|] eqn:Hc.
  - pose proof (wf_current g Hwf i Hc) as Hlt.
    destruct (lookup_lt_is_Some_2 _ _ Hlt) as [cur Hn].
    rewrite <- (wf_adjacency g Hwf) in Hlt.
    destruct (lookup_lt_is_Some_2 _ _ Hlt) as [adj Ha].
    rewrite (step_unfold g i cur adj Hc Hn Ha). apply step_loop_wf; [exact Hwf|].
    intros j Hj. destruct (wf_adj_edges g Hwf i adj j Ha Hj) as (e & He & _). eauto.
  - unfold StateGraph.step. rewrite Hc. cbn.
    split; [exact Hwf|split; [discriminate|reflexivity]].
Qed.

Lemma for_each_preserves {S A : Type} (P : S -> Prop) (body : A -> M S unit)
    (l : list A) :
  (forall x, preserves P (body x)) -> preserves P (for_each body l).
Proof.
  intros H. induction l as [|x l IH]; cbn [for_each].
  - intros s Hs. exact Hs.
  - apply preserves_mbind; [apply H|intros _; exact IH].
Qed.

Lemma preserves_lift {S A : Type} (P : S -> Prop) (o : outcome A) :
  preserves P (lift o).
Proof. intros s Hs. exact Hs. Qed.

Lemma preserves_mret {S A : Type} (P : S -> Prop) (a : A) :
  preserves P (mret a).
Proof. intros s Hs. exact Hs. Qed.

Lemma StateGraph_loadFromJson_wf (stod : string -> outcome double)
    (opened : option (outcome json)) :
  preserves StateGraph_wf (StateGraph.loadFromJson stod opened).
Proof.
  unfold StateGraph.loadFromJson. destruct opened as [parsed|]; [|apply preserves_mret].
  apply preserves_mbind; [apply preserves_lift|]. intros j.
  apply preserves_mbind; [intros g _; apply wf_empty|]. intros _.
  apply preserves_mbind; [apply preserves_lift|]. intros ns.
  apply preserves_mbind.
  { apply for_each_preserves. intros nj. apply preserves_mbind; [apply preserves_lift|].
    intros n. apply addNode_wf. }
  intros _. apply preserves_mbind; [apply preserves_lift|]. intros es.
  apply preserves_mbind.
  { apply for_each_preserves. intros ej. apply preserves_mbind; [apply preserves_lift|].
    intros e. apply addEdge_wf. }
  intros _. apply preserves_mbind; [|intros _; apply preserves_mret].
  intros g Hwf. unfold modify. cbn [snd].
  destruct (StateGraph.nodes_ g) as [|n l] eqn:Hn; [exact Hwf|].
  destruct Hwf as [H1 H2 H3 H4 H5 H6]. split; cbn; try assumption.
  intros i [= <-]. rewrite Hn. cbn. lia.
Qed.

Lemma built_wf (g : StateGraph.t) : built g -> StateGraph_wf g.
Proof.
  induction 1 as [|n g _ IH|e g _ IH|id g _ IH|k v g _ IH|g _ IH|g _ IH|stod opened g _ IH].
  - apply wf_empty.
  - apply addNode_wf, IH.
  - apply addEdge_wf, IH.
  - apply setInitialState_wf, IH.
  - apply setCurrentVar_wf, IH.
  - apply step_wf_facts, IH.
  - apply wf_empty.
  - apply StateGraph_loadFromJson_wf, IH.
Qed.

(** X1: node ids are unique in every graph a program builds, every edge
    joins two nodes of the graph, the adjacency list of a node holds only
    edges that leave it, and the current index is the position of a node. *)
Theorem built_graph_invariant (g : StateGraph.t) :
  built g ->
  (forall i j n m,
     StateGraph.nodes_ g !! i = Some n -> StateGraph.nodes_ g !! j = Some m ->
     DefaultNode.id n = DefaultNode.id m -> i = j) /\
  (forall k e, StateGraph.edges_ g !! k = Some e ->
     exists fi ti nf nt,
       StateGraph.node_index_ g !! DefaultEdge.from e = Some fi /\
       StateGraph.nodes_ g !! fi = Some nf /\ DefaultNode.id nf = DefaultEdge.from e /\
       StateGraph.node_index_ g !! DefaultEdge.to e = Some ti /\
       StateGraph.nodes_ g !! ti = Some nt /\ DefaultNode.id nt = DefaultEdge.to e) /\
  (forall i a k, StateGraph.adjacency_ g !! i = Some a -> k ∈ a ->
     exists e n, StateGraph.edges_ g !! k = Some e /\
                 StateGraph.nodes_ g !! i = Some n /\
                 DefaultEdge.from e = DefaultNode.id n) /\
  (forall i, StateGraph.current_index_ g = Some i ->
     is_Some (StateGraph.nodes_ g !! i) /\ is_Some (StateGraph.adjacency_ g !! i)).
Proof.
  intros Hb. pose proof (built_wf g Hb) as Hwf. split; [|split; [|split]].
  - intros i j n m Hn Hm Hid.
    pose proof (wf_indexed g Hwf i n Hn) as Hi.
    pose proof (wf_indexed g Hwf j m Hm) as Hj. congruence.
  - intros k e He. destruct (wf_edges g Hwf k e He) as [[fi Hf] [ti Ht]].
    destruct (wf_index g Hwf _ _ Hf) as (nf & Hnf & Hidf).
    destruct (wf_index g Hwf _ _ Ht) as (nt & Hnt & Hidt).
    exists fi, ti, nf, nt. auto 10.
  - intros i a k Ha Hk. destruct (wf_adj_edges g Hwf i a k Ha Hk) as (e & He & Hf).
    destruct (wf_index g Hwf _ _ Hf) as (n & Hn & Hid). exists e, n. auto.
  - intros i Hc. pose proof (wf_current g Hwf i Hc) as Hlt. split.
    + apply lookup_lt_is_Some_2, Hlt.
    + apply lookup_lt_is_Some_2. rewrite (wf_adjacency g Hwf). exact Hlt.
Qed.

Lemma step_loop_throw_origin (cur : DefaultNode.t) (adj : list nat)
    (g g' : StateGraph.t) (x : error) :
  StateGraph.step_loop cur adj g = (Throw x, g') ->
  exists j e, j ∈ adj /\ StateGraph.edges_ g !! j = Some e /\
              DefaultEdge.evaluate e cur = Throw x.
Proof.
  induction adj as [|j adj IH]; [discriminate|].
  destruct (StateGraph.edges_ g !! j) as [e|] eqn:He.
  - rewrite (step_loop_cons cur j adj g e He).
    destruct (DefaultEdge.evaluate e cur) as [[|]| y |] eqn:Hev.
    + intros H. destruct (take_never_throws _ _ _ _ H).
    + intros H. destruct (IH H) as (j' & e' & Hj & He' & Hv).
      exists j', e'. split; [right; exact Hj|auto].
    + intros [= <- _]. exists j, e. split; [left|auto].
    + discriminate.
  - cbn [StateGraph.step_loop]. unfold mbind at 1, at_index. rewrite He. discriminate.
Qed.

(** X2: on a graph a program builds, [step] never reads a vector out of
    range and never adds a key to the node index; it throws only what the
    condition of an outgoing edge of the current node throws, and then the
    graph is unchanged. *)
Theorem built_step_defined (g : StateGraph.t) :
  built g ->
  fst (StateGraph.step g) <> Undefined /\
  StateGraph.node_index_ (snd (StateGraph.step g)) = StateGraph.node_index_ g /\
  (forall x, fst (StateGraph.step g) = Throw x ->
     snd (StateGraph.step g) = g /\
     exists i cur adj j e,
       StateGraph.current_index_ g = Some i /\
       StateGraph.nodes_ g !! i = Some cur /\
       StateGraph.adjacency_ g !! i = Some adj /\ j ∈ adj /\
       StateGraph.edges_ g !! j = Some e /\
       DefaultEdge.evaluate e cur = Throw x).
Proof.
  intros Hb. pose proof (built_wf g Hb) as Hwf.
  destruct (step_wf_facts g Hwf) as (_ & Hdef & Hidx).
  split; [exact Hdef|split; [exact Hidx|]].
  intros x Hx. destruct (StateGraph.step g) as [o g'] eqn:Hs. cbn in Hx. subst o.
  split; [cbn; eapply StateGraph_step_throw, Hs|].
  destruct (StateGraph.current_index_ g) as [i|] eqn:Hc;
    [|unfold StateGraph.step in Hs; rewrite Hc in Hs; discriminate].
  pose proof (wf_current g Hwf i Hc) as Hlt.
  destruct (lookup_lt_is_Some_2 _ _ Hlt) as [cur Hn].
  rewrite <- (wf_adjacency g Hwf) in Hlt.
  destruct (lookup_lt_is_Some_2 _ _ Hlt) as [adj Ha].
  rewrite (step_unfold g i cur adj Hc Hn Ha) in Hs.
  destruct (step_loop_throw_origin cur adj g g' x Hs) as (j & e & Hj & He & Hv).
  exists i, cur, adj, j, e. auto 10.
Qed.

(** ** What the operations of the single-phase graph do *)

(** X3: a node that [addNode] accepts can be made current by its id and is
    then read back as it was added; adding it again throws [Duplicate node
    id] and changes nothing. *)
Theorem addNode_round_trip (n : DefaultNode.t) (g g1 : StateGraph.t) :
  StateGraph.addNode n g = (Ret tt, g1) ->
  StateGraph.node_index_ g !! DefaultNode.id n = None /\
  StateGraph.nodes_ g1 = (StateGraph.nodes_ g ++ [n])%list /\
  (exists g2, StateGraph.setInitialState (DefaultNode.id n) g1 = (Ret true, g2) /\
              StateGraph.currentNode g2 = Ret n /\
              StateGraph.currentStateId g2 = Ret (DefaultNode.id n)) /\
  StateGraph.addNode n g1 = (Throw (Duplicate_node_id (DefaultNode.id n)), g1).
Proof.
  unfold StateGraph.addNode. case_bool_decide as Hdup; [discriminate|].
  intros [= <-]. cbn [StateGraph.node_index_ StateGraph.nodes_].
  split; [|split; [reflexivity|split]].
  - destruct (StateGraph.node_index_ g !! DefaultNode.id n) eqn:E;
      [destruct Hdup; eauto|reflexivity].
  - unfold StateGraph.setInitialState. cbn [StateGraph.node_index_].
    rewrite lookup_insert_eq. eexists. split; [reflexivity|].
    unfold StateGraph.currentNode, StateGraph.currentStateId, at_index. cbn.
    rewrite lookup_app_r by lia. rewrite Nat.sub_diag. cbn. split; reflexivity.
  - rewrite bool_decide_eq_true_2; [reflexivity|].
    rewrite lookup_insert_eq. eauto.
Qed.

Lemma addNode_round_trip_witness :
  StateGraph.addNode Sample.nodeA (snd (StateGraph.addNode Sample.nodeA StateGraph.empty)) =
    (Throw (Duplicate_node_id "A"), snd (StateGraph.addNode Sample.nodeA StateGraph.empty)).
Proof.
  apply (addNode_round_trip Sample.nodeA StateGraph.empty). reflexivity.
Defined.

(** X4: on a graph a program builds, [addEdge] either throws [Edge
    references unknown node], exactly when an endpoint is no node id of the
    graph, and changes nothing, or appends the edge: the nodes, the index
    and the current node stay, and the edge gets the next position. *)
Theorem addEdge_on_built (e : DefaultEdge.t) (g : StateGraph.t) :
  built g ->
  (StateGraph.addEdge e g = (Throw Edge_references_unknown_node, g) /\
   (StateGraph.node_index_ g !! DefaultEdge.from e = None \/
    StateGraph.node_index_ g !! DefaultEdge.to e = None)) \/
  (exists g1,
     StateGraph.addEdge e g = (Ret tt, g1) /\
     is_Some (StateGraph.node_index_ g !! DefaultEdge.from e) /\
     is_Some (StateGraph.node_index_ g !! DefaultEdge.to e) /\
     StateGraph.edges_ g1 !! length (StateGraph.edges_ g) = Some e /\
     StateGraph.nodes_ g1 = StateGraph.nodes_ g /\
     StateGraph.node_index_ g1 = StateGraph.node_index_ g /\
     StateGraph.current_index_ g1 = StateGraph.current_index_ g).
Proof.
  intros Hb. destruct (addEdge_cases e g (built_wf g Hb))
    as [(fi & ti & a & Hf & Ht & Ha & ->)|[Hno ->]]; [right|left; auto].
  eexists. split; [reflexivity|]. cbn. rewrite Hf, Ht.
  rewrite lookup_app_r by lia. rewrite Nat.sub_diag. auto 10.
Qed.

(** X5: [setInitialState] with an unknown id returns false and changes
    nothing; with the id of a node of a graph a program built it returns
    true, changes only the current index, and that node is then current. *)
Theorem setInitialState_spec (id : string) (g : StateGraph.t) :
  built g ->
  (StateGraph.node_index_ g !! id = None /\
   StateGraph.setInitialState id g = (Ret false, g)) \/
  (exists i n,
     StateGraph.node_index_ g !! id = Some i /\
     StateGraph.nodes_ g !! i = Some n /\
     StateGraph.setInitialState id g =
       (Ret true, StateGraph.set_current_index (Some i) g) /\
     StateGraph.currentNode (StateGraph.set_current_index (Some i) g) = Ret n /\
     StateGraph.currentStateId (StateGraph.set_current_index (Some i) g) = Ret id).
Proof.
  intros Hb. unfold StateGraph.setInitialState.
  destruct (StateGraph.node_index_ g !! id) as [i|] eqn:Hi; [right|left; auto].
  destruct (wf_index g (built_wf g Hb) id i Hi) as (n & Hn & Hid).
  exists i, n. unfold StateGraph.currentNode, StateGraph.currentStateId, at_index.
  cbn. rewrite Hn. cbn. rewrite Hid. auto.
Qed.

Lemma take_frame (e : DefaultEdge.t) (g : StateGraph.t) :
  StateGraph.edges_ (snd (StateGraph.take e g)) = StateGraph.edges_ g /\
  StateGraph.adjacency_ (snd (StateGraph.take e g)) = StateGraph.adjacency_ g /\
  forall i n, StateGraph.nodes_ g !! i = Some n ->
    exists n', StateGraph.nodes_ (snd (StateGraph.take e g)) !! i = Some n' /\
      same_but_vars n n' /\
      (n' = n \/
       (StateGraph.current_index_ (snd (StateGraph.take e g)) = Some i /\
        n' = written (DefaultEdge.actions e) n)).
Proof.
  unfold StateGraph.take, mbind, StateGraph.node_index_subscript, modify, mret, at_index.
  destruct (StateGraph.node_index_ g !! DefaultEdge.to e) as [ti|]; cbn.
  - destruct (StateGraph.nodes_ g !! ti) as [dest|] eqn:Hd; cbn.
    + split; [reflexivity|split; [reflexivity|]]. intros i n Hn.
      destruct (decide (ti = i)) as [<-|Hne].
      * rewrite list_lookup_insert_eq by (eapply lookup_lt_Some, Hd).
        rewrite apply_actions_written. assert (dest = n) as -> by congruence.
        eexists. split; [reflexivity|]. split; [repeat split|]. auto.
      * rewrite list_lookup_insert_ne by exact Hne. exists n.
        split; [exact Hn|]. split; [repeat split|]. auto.
    + split; [reflexivity|split; [reflexivity|]]. intros i n Hn. exists n.
      split; [exact Hn|]. split; [repeat split|]. auto.
  - destruct (StateGraph.nodes_ g !! O) as [dest|] eqn:Hd; cbn.
    + split; [reflexivity|split; [reflexivity|]]. intros i n Hn.
      destruct (decide (O = i)) as [<-|Hne].
      * rewrite list_lookup_insert_eq by (eapply lookup_lt_Some, Hd).
        rewrite apply_actions_written. assert (dest = n) as -> by congruence.
        eexists. split; [reflexivity|]. split; [repeat split|]. auto.
      * rewrite list_lookup_insert_ne by exact Hne. exists n.
        split; [exact Hn|]. split; [repeat split|]. auto.
    + split; [reflexivity|split; [reflexivity|]]. intros i n Hn. exists n.
      split; [exact Hn|]. split; [repeat split|]. auto.
Qed.

Lemma take_returns_some (e : DefaultEdge.t) (g : StateGraph.t) :
  fst (StateGraph.take e g) <> Ret None.
Proof.
  unfold StateGraph.take, mbind, StateGraph.node_index_subscript, modify, mret, at_index.
  destruct (StateGraph.node_index_ g !! DefaultEdge.to e); cbn;
    match goal with |- context [?l !! ?i] => destruct (l !! i) end; discriminate.
Qed.

Lemma step_loop_cons_none (cur : DefaultNode.t) (j : nat) (adj : list nat)
    (g : StateGraph.t) :
  StateGraph.edges_ g !! j = None ->
  StateGraph.step_loop cur (j :: adj) g = (Undefined, g).
Proof.
  intros He. cbn [StateGraph.step_loop]. unfold mbind at 1, at_index. rewrite He.
  reflexivity.
Qed.

Lemma step_cases (g : StateGraph.t) :
  StateGraph.step g =
  match StateGraph.current_index_ g with
  | None => (Ret None, g)
  | Some c =>
      match StateGraph.nodes_ g !! c, StateGraph.adjacency_ g !! c with
      | Some cur, Some adj => StateGraph.step_loop cur adj g
      | _, _ => (Undefined, g)
      end
  end.
Proof.
  unfold StateGraph.step. destruct (StateGraph.current_index_ g) as [c|]; [|reflexivity].
  unfold mbind at 1, lift, at_index.
  destruct (StateGraph.nodes_ g !! c); [|reflexivity].
  unfold mbind at 1. destruct (StateGraph.adjacency_ g !! c); reflexivity.
Qed.

Lemma step_loop_frame (cur : DefaultNode.t) (adj : list nat) (g : StateGraph.t) :
  StateGraph.edges_ (snd (StateGraph.step_loop cur adj g)) = StateGraph.edges_ g /\
  StateGraph.adjacency_ (snd (StateGraph.step_loop cur adj g)) = StateGraph.adjacency_ g /\
  forall i n, StateGraph.nodes_ g !! i = Some n ->
    exists n', StateGraph.nodes_ (snd (StateGraph.step_loop cur adj g)) !! i = Some n' /\
      same_but_vars n n' /\
      (n' = n \/
       (StateGraph.current_index_ (snd (StateGraph.step_loop cur adj g)) = Some i /\
        exists j e, j ∈ adj /\ StateGraph.edges_ g !! j = Some e /\
                    DefaultEdge.evaluate e cur = Ret true /\
                    n' = written (DefaultEdge.actions e) n)).
Proof.
  assert (Hsame : forall P : nat -> DefaultNode.t -> DefaultNode.t -> Prop,
    StateGraph.edges_ g = StateGraph.edges_ g /\
    StateGraph.adjacency_ g = StateGraph.adjacency_ g /\
    forall i n, StateGraph.nodes_ g !! i = Some n ->
      exists n', StateGraph.nodes_ g !! i = Some n' /\ same_but_vars n n' /\
        (n' = n \/ P i n n')).
  { intros P. split; [reflexivity|split; [reflexivity|]]. intros i n Hn.
    exists n. split; [exact Hn|]. split; [repeat split|]. auto. }
  induction adj as [|j adj IH]; [apply Hsame|].
  destruct (StateGraph.edges_ g !! j) as [e|] eqn:He.
  - rewrite (step_loop_cons cur j adj g e He).
    destruct (DefaultEdge.evaluate e cur) as [[|]| y |] eqn:Hev; cbn [snd];
      try apply Hsame.
    + destruct (take_frame e g) as (H1 & H2 & H3).
      split; [exact H1|split; [exact H2|]]. intros i n Hn.
      destruct (H3 i n Hn) as (n' & Hn' & Hs & Hor). exists n'.
      split; [exact Hn'|split; [exact Hs|]].
      destruct Hor as [->|[Hc ->]]; [auto|right]. split; [exact Hc|].
      exists j, e. split; [left|auto].
    + destruct IH as (H1 & H2 & H3).
      split; [exact H1|split; [exact H2|]]. intros i n Hn.
      destruct (H3 i n Hn) as (n' & Hn' & Hs & Hor). exists n'.
      split; [exact Hn'|split; [exact Hs|]].
      destruct Hor as [->|[Hc (j' & e' & Hj & He' & Hv & ->)]]; [auto|right].
      split; [exact Hc|]. exists j', e'. split; [right; exact Hj|auto].
  - rewrite (step_loop_cons_none cur j adj g He). apply Hsame.
Qed.

(** X6: a step writes nothing but the vars of one node.  The edges and the
    adjacency lists stay; every node keeps its position, id, params and
    properties; a node whose vars change is the node that is current after
    the step, and its vars are then the actions of an outgoing edge of the
    node that was current, whose condition evaluated to true, laid over its
    old vars. *)
Theorem step_action_scope (g : StateGraph.t) :
  StateGraph.edges_ (snd (StateGraph.step g)) = StateGraph.edges_ g /\
  StateGraph.adjacency_ (snd (StateGraph.step g)) = StateGraph.adjacency_ g /\
  forall i n, StateGraph.nodes_ g !! i = Some n ->
    exists n', StateGraph.nodes_ (snd (StateGraph.step g)) !! i = Some n' /\
      same_but_vars n n' /\
      (n' = n \/
       (StateGraph.current_index_ (snd (StateGraph.step g)) = Some i /\
        exists c cur adj j e,
          StateGraph.current_index_ g = Some c /\
          StateGraph.nodes_ g !! c = Some cur /\
          StateGraph.adjacency_ g !! c = Some adj /\ j ∈ adj /\
          StateGraph.edges_ g !! j = Some e /\
          DefaultEdge.evaluate e cur = Ret true /\
          n' = written (DefaultEdge.actions e) n)).
Proof.
  assert (Hsame : forall P : nat -> DefaultNode.t -> DefaultNode.t -> Prop,
    StateGraph.edges_ g = StateGraph.edges_ g /\
    StateGraph.adjacency_ g = StateGraph.adjacency_ g /\
    forall i n, StateGraph.nodes_ g !! i = Some n ->
      exists n', StateGraph.nodes_ g !! i = Some n' /\ same_but_vars n n' /\
        (n' = n \/ P i n n')).
  { intros P. split; [reflexivity|split; [reflexivity|]]. intros i n Hn.
    exists n. split; [exact Hn|]. split; [repeat split|]. auto. }
  rewrite step_cases.
  destruct (StateGraph.current_index_ g) as [c|] eqn:Hc; [|apply Hsame].
  destruct (StateGraph.nodes_ g !! c) as [cur|] eqn:Hn; [|apply Hsame].
  destruct (StateGraph.adjacency_ g !! c) as [adj|] eqn:Ha; [|apply Hsame].
  destruct (step_loop_frame cur adj g) as (H1 & H2 & H3).
  split; [exact H1|split; [exact H2|]]. intros i n Hi.
  destruct (H3 i n Hi) as (n' & Hn' & Hs & Hor). exists n'.
  split; [exact Hn'|split; [exact Hs|]].
  destruct Hor as [->|[Hc' (j & e & Hj & He & Hv & ->)]]; [auto|right].
  split; [exact Hc'|]. exists c, cur, adj, j, e. auto 10.
Qed.

(** ** The lexer: what a token is made of *)

Lemma skip_space_split (s : string) :
  exists ws, s = (ws ++ Lexer.skip_space s)%string /\ all_chars isspace ws = true.
Proof.
  induction s as [|c s (ws & Hs & Hws)]; [exists EmptyString; split; reflexivity|].
  cbn [Lexer.skip_space]. destruct (isspace c) eqn:Hc.
  - exists (String c ws). rewrite app_String, <- Hs. cbn. rewrite Hc, Hws. auto.
  - exists EmptyString. split; reflexivity.
Qed.

Lemma skip_space_spaces (ws s : string) :
  all_chars isspace ws = true ->
  Lexer.skip_space (ws ++ s) = Lexer.skip_space s.
Proof.
  induction ws as [|c ws IH]; [reflexivity|]. cbn [all_chars]. intros H.
  apply andb_true_iff in H as [Hc Hws]. rewrite app_String. cbn [Lexer.skip_space].
  rewrite Hc. apply IH, Hws.
Qed.

Lemma scan_split (p : ascii -> bool) (s w r : string) :
  Lexer.scan p s = (w, r) ->
  s = (w ++ r)%string /\ all_chars p w = true /\ stops_at p r = true.
Proof.
  revert w r. induction s as [|c s IH]; intros w r; cbn [Lexer.scan].
  - intros [= <- <-]. repeat split.
  - destruct (p c) eqn:Hc.
    + destruct (Lexer.scan p s) as [w0 r0]. intros [= <- <-].
      destruct (IH w0 r0 eq_refl) as (-> & Hw & Hr).
      rewrite app_String. cbn. rewrite Hc, Hw. auto.
    + intros [= <- <-]. cbn. rewrite Hc. auto.
Qed.

Lemma scan_quote_split (s w r : string) :
  Lexer.scan_quote s = Some (w, r) ->
  s = (w ++ String dquote r)%string /\ all_chars not_dquote w = true.
Proof.
  revert w r. induction s as [|c s IH]; intros w r; cbn [Lexer.scan_quote]; [discriminate|].
  destruct (Ascii.eqb c dquote) eqn:Hc.
  - intros [= <- <-]. apply Ascii.eqb_eq in Hc as ->. split; reflexivity.
  - destruct (Lexer.scan_quote s) as [[w0 r0]|]; [|discriminate]. intros [= <- <-].
    destruct (IH w0 r0 eq_refl) as (-> & Hw). rewrite app_String. cbn.
    unfold not_dquote at 1. rewrite Hc, Hw. auto.
Qed.

Lemma scan_quote_none (s : string) :
  Lexer.scan_quote s = None <-> all_chars not_dquote s = true.
Proof.
  induction s as [|c s IH]; cbn; [split; reflexivity|]. unfold not_dquote at 1.
  destruct (Ascii.eqb c dquote); cbn; [split; discriminate|].
  destruct (Lexer.scan_quote s) as [[w r]|]; rewrite <- IH; split; congruence.
Qed.

Lemma app_assoc_string (a b0 c : string) :
  ((a ++ b0) ++ c)%string = (a ++ (b0 ++ c))%string.
Proof. induction a as [|x a IH]; [reflexivity|]. rewrite !app_String, IH. reflexivity. Qed.

Lemma all_chars_app (p : ascii -> bool) (a b0 : string) :
  all_chars p (a ++ b0) = all_chars p a && all_chars p b0.
Proof.
  induction a as [|c a IH]; [reflexivity|]. rewrite app_String. cbn.
  rewrite IH. apply andb_assoc.
Qed.

(** X7: the lexer loses nothing: what [next] passes over is white space
    followed by the characters of the token (the text of the token, between
    two double quotes for a string literal) and the unread rest; the text
    has the form of the token's kind; identifiers and numbers are as long
    as they can be; and [END] is returned only when nothing but white space
    was left. *)
Theorem next_lexeme (s rest : string) (tok : Token.t) :
  Lexer.next s = Ret (tok, rest) ->
  (exists ws, all_chars isspace ws = true /\
              s = (ws ++ lexeme tok ++ rest)%string) /\
  token_shape tok = true /\
  match Token.kind tok with
  | ID | BOOL => stops_at Lexer.ident_char rest = true
  | NUM => stops_at Lexer.number_char rest = true
  | END => all_chars isspace s = true /\ rest = EmptyString
  | _ => True
  end.
Proof.
  unfold Lexer.next. destruct (skip_space_split s) as (ws & Hs & Hws).
  assert (Hgoal : forall lx : string,
            Lexer.skip_space s = (lx ++ rest)%string ->
            exists ws0, all_chars isspace ws0 = true /\ s = (ws0 ++ lx ++ rest)%string).
  { intros lx E. exists ws. split; [exact Hws|]. rewrite <- E. exact Hs. }
  destruct (Lexer.skip_space s) as [|c s'] eqn:E.
  { intros [= <- <-]. split; [apply (Hgoal EmptyString); reflexivity|].
    split; [reflexivity|]. cbn [Token.kind]. split; [|reflexivity].
    rewrite Hs, all_chars_app, Hws. reflexivity. }
  destruct (isalpha c || Ascii.eqb c "_") eqn:Hal.
  { destruct (Lexer.scan Lexer.ident_char s') as [w r] eqn:Hscan.
    destruct (scan_split _ _ _ _ Hscan) as (-> & Hw & Hr).
    destruct (String.eqb (String c w) "true" || String.eqb (String c w) "false") eqn:Hb;
      intros [= <- <-]; (split; [apply Hgoal; reflexivity|]);
      unfold token_shape; cbn [Token.kind Token.text]; rewrite ?Hal, ?Hw, ?Hb; auto. }
  destruct (isdigit c) eqn:Hdg.
  { destruct (Lexer.scan Lexer.number_char s') as [w r] eqn:Hscan.
    destruct (scan_split _ _ _ _ Hscan) as (-> & Hw & Hr).
    intros [= <- <-]. split; [apply Hgoal; reflexivity|].
    unfold token_shape; cbn [Token.kind Token.text]; rewrite Hdg, Hw; auto. }
  destruct (Ascii.eqb c dquote) eqn:Hq.
  { destruct (Lexer.scan_quote s') as [[w r]|] eqn:Hscan; [|discriminate].
    destruct (scan_quote_split _ _ _ Hscan) as (-> & Hw).
    intros [= <- <-]. apply Ascii.eqb_eq in Hq as ->.
    split; [apply Hgoal; unfold lexeme; cbn [Token.kind Token.text];
            rewrite !app_String, app_assoc_string; reflexivity|].
    unfold token_shape; cbn [Token.kind Token.text]; auto. }
  repeat match goal with
  | |- context [Lexer.match2 ?a ?b0 ?u] =>
      destruct (Lexer.match2 a b0 u) eqn:?;
      [match goal with
       | H : Lexer.match2 _ _ _ = true |- _ =>
           apply match2_inv in H as [r0 H]; inversion H; subst;
           intros [= <- <-]; (split; [apply Hgoal; reflexivity|]); split; reflexivity
       end|]
  end.
  destruct (Ascii.eqb c "<" || Ascii.eqb c ">" || Ascii.eqb c "!") eqn:Hop.
  { intros [= <- <-]. split; [apply Hgoal; reflexivity|]. split; [|exact I].
    unfold token_shape; cbn [Token.kind Token.text].
    apply orb_true_iff in Hop as [Hop|Hop];
      [apply orb_true_iff in Hop as [Hop|Hop]|];
      apply Ascii.eqb_eq in Hop; subst c; reflexivity. }
  destruct (Ascii.eqb c "(") eqn:Hlp.
  { intros [= <- <-]. apply Ascii.eqb_eq in Hlp as ->.
    split; [apply Hgoal; reflexivity|]. split; reflexivity. }
  destruct (Ascii.eqb c ")") eqn:Hrp.
  { intros [= <- <-]. apply Ascii.eqb_eq in Hrp as ->.
    split; [apply Hgoal; reflexivity|]. split; reflexivity. }
  discriminate.
Qed.

Lemma next_spaces (ws s : string) :
  all_chars isspace ws = true -> Lexer.next (ws ++ s) = Lexer.next s.
Proof. intros H. unfold Lexer.next. rewrite (skip_space_spaces ws s H). reflexivity. Qed.

(** X8: white space before an expression changes nothing: the expression
    compiles to the same tree, or fails with the same error. *)
Theorem leading_space_ignored (stod : string -> outcome double) (ws s : string) :
  all_chars isspace ws = true ->
  compileExpression stod (ws ++ s) = compileExpression stod s.
Proof.
  intros H. unfold compileExpression, Parser.make. rewrite (next_spaces ws s H).
  reflexivity.
Qed.

Lemma next_blank_input (s : string) :
  all_chars isspace s = true -> Lexer.next s = Ret (Token.mk END "", EmptyString).
Proof.
  intros H. unfold Lexer.next.
  assert (E : Lexer.skip_space s = EmptyString).
  { induction s as [|c s IH]; [reflexivity|]. cbn in *.
    apply andb_true_iff in H as [-> H]. apply IH, H. }
  rewrite E. reflexivity.
Qed.

(** X9: an empty expression, or one of white space only, does not compile:
    [compileExpression] throws [Unexpected token in primary]. *)
Theorem blank_expression_rejected (stod : string -> outcome double) (s : string) :
  all_chars isspace s = true ->
  compileExpression stod s = Throw Unexpected_token_in_primary.
Proof.
  intros H. unfold compileExpression, Parser.make. rewrite (next_blank_input s H).
  reflexivity.
Qed.

(** X10: a string literal is read verbatim up to the next double quote, with
    no escape character; a literal that no double quote closes makes the
    lexer throw [Unterminated string literal]. *)
Theorem string_literal_lexing (body rest : string) :
  all_chars not_dquote body = true ->
  Lexer.next (String dquote (body ++ String dquote rest)) =
    Ret (Token.mk STR body, rest) /\
  Lexer.next (String dquote body) = Throw Unterminated_string.
Proof.
  intros H. unfold Lexer.next. cbn [Lexer.skip_space].
  change (isspace dquote) with false. cbv iota.
  change (isalpha dquote || Ascii.eqb dquote "_") with false.
  change (isdigit dquote) with false. change (Ascii.eqb dquote dquote) with true.
  cbv iota. split.
  - assert (E : Lexer.scan_quote (body ++ String dquote rest) = Some (body, rest)).
    { clear -H. induction body as [|c body IH].
      - reflexivity.
      - cbn in H. apply andb_true_iff in H as [Hc H]. rewrite app_String.
        cbn [Lexer.scan_quote]. unfold not_dquote in Hc.
        destruct (Ascii.eqb c dquote); [discriminate|]. rewrite (IH H). reflexivity. }
    rewrite E. reflexivity.
  - apply scan_quote_none in H. rewrite H. reflexivity.
Qed.

Lemma scan_all (p : ascii -> bool) (w : string) :
  all_chars p w = true -> Lexer.scan p w = (w, EmptyString).
Proof.
  induction w as [|c w IH]; [reflexivity|]. cbn. intros H.
  apply andb_true_iff in H as [-> H]. rewrite (IH H). reflexivity.
Qed.

Lemma next_identifier (name : string) :
  is_identifier name = true ->
  Lexer.next name = Ret (Token.mk ID name, EmptyString).
Proof.
  destruct name as [|c w]; [discriminate|]. unfold is_identifier. intros H.
  apply andb_true_iff in H as [H Hb]. apply andb_true_iff in H as [Hc Hw].
  apply negb_true_iff in Hb.
  assert (Hsp : isspace c = false).
  { apply orb_true_iff in Hc as [Hc|Hc].
    - unfold isalpha, isspace, char_in in *.
      destruct (N_of_ascii c) as [|q]; [discriminate|].
      repeat match goal with
             | H : _ || _ = true |- _ => apply orb_true_iff in H as [H|H]
             | H : _ && _ = true |- _ => apply andb_true_iff in H as [? ?]
             | H : N.leb _ _ = true |- _ => apply N.leb_le in H
             end;
        (apply orb_false_iff; split;
         [apply andb_false_iff; right; apply N.leb_gt; lia|apply N.eqb_neq; lia]).
    - apply Ascii.eqb_eq in Hc as ->. reflexivity. }
  unfold Lexer.next. cbn [Lexer.skip_space]. rewrite Hsp, Hc.
  rewrite (scan_all _ _ Hw), Hb. reflexivity.
Qed.

(** X11: an identifier compiles to the leaf that names it, and the
    expression it makes on its own looks the name up, in the properties
    without the prefix [properties.] if it has it and in the vars
    otherwise, and is true exactly when the name is bound to a true
    boolean, to an integer other than 0, to a double other than the two
    zeros (a NaN included) or to a string that is not empty; an unbound
    name is false. *)
Theorem identifier_expression
    (stod : string -> outcome double) (name : string) (node : DefaultNode.t) :
  is_identifier name = true ->
  compileExpression stod name = Ret (LEAF (mkAST IDENT name dzero false)) /\
  forall bound : option Value,
    (exists rest, name = ("properties." ++ rest)%string /\
                  bound = DefaultNode.getProperty rest node) \/
    ((forall rest, name <> ("properties." ++ rest)%string) /\
     bound = DefaultNode.getVar name node) ->
    (e <- compileExpression stod name ;; eval e node) =
      Ret match bound with
          | Some (VBool x) => x
          | Some (VInt i) => negb (i =? 0)
          | Some (VDouble (S754_zero _)) => false
          | Some (VDouble _) => true
          | Some (VString EmptyString) => false
          | Some (VString _) => true
          | None => false
          end.
Proof.
  intros H. assert (E : compileExpression stod name =
                        Ret (LEAF (mkAST IDENT name dzero false))).
  { unfold compileExpression, Parser.make. rewrite (next_identifier name H).
    reflexivity. }
  split; [exact E|]. intros bound Hb. rewrite E. cbn.
  assert (Hl : lookup_ident name node = bound).
  { unfold lookup_ident. destruct Hb as [(rest & -> & ->)|[Hno ->]].
    - rewrite (proj2 (has_properties_prefix_iff _)) by eauto.
      pose proof (substr_from_app "properties." rest) as Hs.
      change (String.length "properties.") with 11%nat in Hs. rewrite Hs. reflexivity.
    - destruct (has_properties_prefix name) eqn:Hp; [|reflexivity].
      apply has_properties_prefix_iff in Hp as [rest Hr]. destruct (Hno rest Hr). }
  rewrite Hl. destruct bound as [[i|d|x|s]|]; cbn; try reflexivity.
  - destruct d as [sg|sg| |sg m e]; try reflexivity; destruct sg; reflexivity.
  - destruct s; reflexivity.
Qed.

(** ** Compiled trees and the errors of their evaluation *)

Lemma is_cmp_op_text (p : Parser.t) :
  Parser.is_cmp_op p = true -> is_cmp_text (Token.text (Parser.cur p)) = true.
Proof.
  unfold Parser.is_cmp_op, is_cmp_text. intros H.
  apply andb_true_iff in H as [_ H]. exact H.
Qed.

Lemma parse_cmp_ops_valid (stod : string -> outcome double) (n : nat) :
  (forall p e q, Parser.parsePrimary stod n p = Some (Ret (e, q)) ->
                 cmp_ops_valid e = true) /\
  (forall p e q, Parser.parseCmp stod n p = Some (Ret (e, q)) ->
                 cmp_ops_valid e = true) /\
  (forall p e q, Parser.parseNot stod n p = Some (Ret (e, q)) ->
                 cmp_ops_valid e = true) /\
  (forall left p e q, cmp_ops_valid left = true ->
     Parser.parseAnd_loop stod n left p = Some (Ret (e, q)) -> cmp_ops_valid e = true) /\
  (forall p e q, Parser.parseAnd stod n p = Some (Ret (e, q)) ->
                 cmp_ops_valid e = true) /\
  (forall left p e q, cmp_ops_valid left = true ->
     Parser.parseOr_loop stod n left p = Some (Ret (e, q)) -> cmp_ops_valid e = true) /\
  (forall p e q, Parser.parseOr stod n p = Some (Ret (e, q)) ->
                 cmp_ops_valid e = true).
Proof.
  induction n as [|n (V1 & V2 & V3 & V4 & V5 & V6 & V7)].
  { repeat split; intros; discriminate. }
  repeat split.
  - intros p e q H. cbn [Parser.parsePrimary] in H.
    destruct (Token.kind (Parser.cur p)); try discriminate H.
    + destruct (Parser.advance p); try discriminate H. injection H as <- _. reflexivity.
    + destruct (stod (Token.text (Parser.cur p))); try discriminate H.
      cbn [Parser.lbind] in H.
      destruct (Parser.advance p); try discriminate H. injection H as <- _. reflexivity.
    + destruct (Parser.advance p); try discriminate H. injection H as <- _. reflexivity.
    + destruct (Parser.advance p); try discriminate H. injection H as <- _. reflexivity.
    + destruct (Parser.advance p) as [p1| |]; try discriminate H. cbn [Parser.lbind] in H.
      destruct (Parser.parseOr stod n p1) as [[[e2 p2]| |]|] eqn:E; try discriminate H.
      cbn [Parser.pbind] in H.
      destruct (Parser.consume RP Expected_rparen p2); try discriminate H.
      injection H as <- _. eapply V7, E.
  - intros p e q H. cbn [Parser.parseCmp] in H.
    destruct (Parser.parsePrimary stod n p) as [[[e1 p1]| |]|] eqn:E; try discriminate H.
    cbn [Parser.pbind] in H. pose proof (V1 _ _ _ E) as He1.
    destruct (Parser.is_cmp_op p1) eqn:Hop; [|injection H as <- _; exact He1].
    destruct (Parser.advance p1) as [p2| |]; try discriminate H. cbn [Parser.lbind] in H.
    destruct (Parser.parsePrimary stod n p2) as [[[e3 p3]| |]|] eqn:E3; try discriminate H.
    injection H as <- _. cbn. rewrite (is_cmp_op_text p1 Hop), He1, (V1 _ _ _ E3).
    reflexivity.
  - intros p e q H. cbn [Parser.parseNot] in H.
    destruct (Parser.isOp "!" p); [|eapply V2, H].
    destruct (Parser.advance p) as [p1| |]; try discriminate H. cbn [Parser.lbind] in H.
    destruct (Parser.parseNot stod n p1) as [[[e2 p2]| |]|] eqn:E; try discriminate H.
    injection H as <- _. cbn. eapply V3, E.
  - intros left p e q Hl H. cbn [Parser.parseAnd_loop] in H.
    destruct (Parser.isOp "&&" p); [|injection H as <- _; exact Hl].
    destruct (Parser.advance p) as [p1| |]; try discriminate H. cbn [Parser.lbind] in H.
    destruct (Parser.parseNot stod n p1) as [[[e2 p2]| |]|] eqn:E; try discriminate H.
    cbn [Parser.pbind] in H. eapply V4; [|exact H]. cbn. rewrite Hl, (V3 _ _ _ E).
    reflexivity.
  - intros p e q H. cbn [Parser.parseAnd] in H.
    destruct (Parser.parseNot stod n p) as [[[e1 p1]| |]|] eqn:E; try discriminate H.
    cbn [Parser.pbind] in H. eapply V4; [|exact H]. eapply V3, E.
  - intros left p e q Hl H. cbn [Parser.parseOr_loop] in H.
    destruct (Parser.isOp "||" p); [|injection H as <- _; exact Hl].
    destruct (Parser.advance p) as [p1| |]; try discriminate H. cbn [Parser.lbind] in H.
    destruct (Parser.parseAnd stod n p1) as [[[e2 p2]| |]|] eqn:E; try discriminate H.
    cbn [Parser.pbind] in H. eapply V6; [|exact H]. cbn. rewrite Hl, (V5 _ _ _ E).
    reflexivity.
  - intros p e q H. cbn [Parser.parseOr] in H.
    destruct (Parser.parseAnd stod n p) as [[[e1 p1]| |]|] eqn:E; try discriminate H.
    cbn [Parser.pbind] in H. eapply V6; [|exact H]. eapply V5, E.
Qed.

Lemma compiled_cmp_ops_valid (stod : string -> outcome double) (s : string)
    (e : ExprNode) :
  compileExpression stod s = Ret e -> cmp_ops_valid e = true.
Proof.
  unfold compileExpression, bind.
  destruct (Parser.make s) as [p| |]; try discriminate.
  unfold Parser.parse.
  destruct (Parser.parseOr stod (Parser.fuel_of p) p) as [[[e0 q]| |]|] eqn:E;
    try discriminate.
  intros [= <-]. eapply parse_cmp_ops_valid, E.
Qed.

Lemma compare_valid_throw (op : string) (lv rv : Value) (x : error) :
  is_cmp_text op = true -> compare op lv rv = Throw x -> x = Non_numeric.
Proof.
  unfold is_cmp_text, compare. intros Hop.
  destruct (String.eqb op "==") eqn:E1; [discriminate|].
  destruct (String.eqb op "!=") eqn:E2; [discriminate|]. cbn [orb] in *.
  destruct lv, rv; cbn; try congruence;
    destruct (String.eqb op "<"); try discriminate;
    destruct (String.eqb op "<="); try discriminate;
    destruct (String.eqb op ">"); try discriminate;
    destruct (String.eqb op ">="); discriminate.
Qed.

Lemma eval_valid_throw (node : DefaultNode.t) (c : ExprNode) :
  cmp_ops_valid c = true ->
  (forall x, eval c node = Throw x -> is_eval_error x = true) /\
  (forall x, extractValue c node = Throw x -> is_eval_error x = true).
Proof.
  induction c as [a|l IHl|l IHl r IHr|l IHl r IHr|op l IHl r IHr]; cbn [cmp_ops_valid];
    intros Hv.
  - split; intros x; cbn.
    + destruct (type a); try discriminate.
      destruct (lookup_ident (text a) node); discriminate.
    + destruct (type a); try discriminate.
      destruct (lookup_ident (text a) node); [discriminate|].
      destruct (has_properties_prefix (text a)); intros [= <-]; reflexivity.
  - destruct (IHl Hv) as [IH _].
    assert (He : forall x, eval (NOT l) node = Throw x -> is_eval_error x = true).
    { intros x. cbn. destruct (eval l node) as [v| y |] eqn:E; cbn; try discriminate.
      intros [= <-]. apply IH. reflexivity. }
    split; [exact He|]. intros x. cbn [extractValue].
    destruct (eval (NOT l) node) as [v| y |]; cbn; try discriminate.
    intros [= <-]. apply He. reflexivity.
  - apply andb_true_iff in Hv as [Hl Hr].
    destruct (IHl Hl) as [IH1 _], (IHr Hr) as [IH2 _].
    assert (He : forall x, eval (AND l r) node = Throw x -> is_eval_error x = true).
    { intros x. cbn. destruct (eval l node) as [[|]| y |] eqn:E; cbn; try discriminate.
      - apply IH2.
      - intros [= <-]. apply IH1. reflexivity. }
    split; [exact He|]. intros x. cbn [extractValue].
    destruct (eval (AND l r) node) as [v| y |]; cbn; try discriminate.
    intros [= <-]. apply He. reflexivity.
  - apply andb_true_iff in Hv as [Hl Hr].
    destruct (IHl Hl) as [IH1 _], (IHr Hr) as [IH2 _].
    assert (He : forall x, eval (OR l r) node = Throw x -> is_eval_error x = true).
    { intros x. cbn. destruct (eval l node) as [[|]| y |] eqn:E; cbn; try discriminate.
      - apply IH2.
      - intros [= <-]. apply IH1. reflexivity. }
    split; [exact He|]. intros x. cbn [extractValue].
    destruct (eval (OR l r) node) as [v| y |]; cbn; try discriminate.
    intros [= <-]. apply He. reflexivity.
  - apply andb_true_iff in Hv as [Hv Hr]. apply andb_true_iff in Hv as [Hop Hl].
    destruct (IHl Hl) as [_ IH1], (IHr Hr) as [_ IH2].
    assert (He : forall x, eval (CMP op l r) node = Throw x -> is_eval_error x = true).
    { intros x. rewrite eval_CMP.
      destruct (extractValue l node) as [lv| y |] eqn:El; cbn; try discriminate.
      2:{ intros [= <-]. apply IH1. reflexivity. }
      destruct (extractValue r node) as [rv| y |] eqn:Er; cbn; try discriminate.
      2:{ intros [= <-]. apply IH2. reflexivity. }
      intros H. apply (compare_valid_throw op lv rv x Hop) in H as ->. reflexivity. }
    split; [exact He|]. intros x. cbn [extractValue].
    destruct (eval (CMP op l r) node) as [v| y |]; cbn; try discriminate.
    intros [= <-]. apply He. reflexivity.
Qed.

(** X12: whatever the node, evaluating an expression that
    [compileExpression] returned gives a boolean or throws one of the three
    evaluation errors: [Unknown var], [Unknown property] or [Non-numeric in
    numeric comparison].  [Unknown comparison op], [Expected leaf] and
    [Invalid leaf] are never thrown. *)
Theorem compiled_expression_errors
    (stod : string -> outcome double) (s : string) (e : ExprNode)
    (node : DefaultNode.t) :
  compileExpression stod s = Ret e ->
  (exists v, eval e node = Ret v) \/
  (exists x, eval e node = Throw x /\ is_eval_error x = true).
Proof.
  intros H. apply compiled_cmp_ops_valid in H.
  destruct (eval e node) as [v| x |] eqn:E.
  - left. eauto.
  - right. exists x. split; [reflexivity|].
    destruct (eval_valid_throw node e H) as [He _]. apply He, E.
  - destruct (proj1 (eval_defined node e) E).
Qed.

(** X13: [&&] and [||] evaluate the left operand first and the right one
    only when the left does not decide: [false && X] is false and
    [true || X] is true whatever [X] is, also when evaluating [X] would
    throw; when the left operand throws, that is what is thrown. *)
Theorem short_circuit (l r : ExprNode) (node : DefaultNode.t) :
  (eval l node = Ret false -> eval (AND l r) node = Ret false) /\
  (eval l node = Ret true -> eval (AND l r) node = eval r node) /\
  (eval l node = Ret true -> eval (OR l r) node = Ret true) /\
  (eval l node = Ret false -> eval (OR l r) node = eval r node) /\
  (forall x, eval l node = Throw x ->
     eval (AND l r) node = Throw x /\ eval (OR l r) node = Throw x).
Proof.
  repeat split; cbn [eval]; intros; rewrite ?H; try reflexivity;
    match goal with H : eval l node = _ |- _ => rewrite H; reflexivity end.
Qed.

Lemma valueEquals_sym (a b0 : Value) : valueEquals a b0 = valueEquals b0 a.
Proof.
  unfold valueEquals.
  destruct a as [x|x|x|x], b0 as [y|y|y|y]; cbn; try reflexivity.
  - apply Z.eqb_sym.
  - apply deq_sym.
  - apply deq_sym.
  - apply deq_sym.
  - destruct x, y; reflexivity.
  - apply String.eqb_sym.
Qed.

(** X14: the comparisons agree with each other.  [a > b] is [b < a] and
    [a >= b] is [b <= a], with the same result or the same error; [==] does
    not depend on the order of its operands and [!=] is its negation; an
    ordering comparison throws [Non-numeric in numeric comparison] exactly
    when an operand is a boolean or a string, whereas [==] and [!=] never
    throw. *)
Theorem comparison_laws (a b0 : Value) :
  compare ">" a b0 = compare "<" b0 a /\
  compare ">=" a b0 = compare "<=" b0 a /\
  compare "==" a b0 = compare "==" b0 a /\
  compare "!=" a b0 = (v <- compare "==" a b0 ;; Ret (negb v)) /\
  (exists v, compare "==" a b0 = Ret v) /\
  (forall op, is_ordering_text op = true ->
     (is_numeric a && is_numeric b0 = true -> exists v, compare op a b0 = Ret v) /\
     (is_numeric a && is_numeric b0 = false -> compare op a b0 = Throw Non_numeric)).
Proof.
  split; [|split; [|split; [|split; [|split]]]].
  - destruct a, b0; reflexivity.
  - destruct a, b0; reflexivity.
  - unfold compare. cbn. rewrite (valueEquals_sym a b0). reflexivity.
  - reflexivity.
  - eexists. reflexivity.
  - intros op Hop. unfold is_ordering_text in Hop. unfold compare.
    assert (E : String.eqb op "==" || String.eqb op "!=" = false).
    { repeat (apply orb_true_iff in Hop as [Hop|Hop]);
        apply String.eqb_eq in Hop; subst op; reflexivity. }
    rewrite E. split; intros Hn.
    + destruct a, b0; try discriminate Hn; cbn;
        repeat (apply orb_true_iff in Hop as [Hop|Hop]);
        apply String.eqb_eq in Hop; subst op; cbn; eauto.
    + destruct a, b0; try discriminate Hn; reflexivity.
Qed.

(** ** Node bags *)

(** X15: [setVar] binds the key in the vars and nothing else: the key reads
    back the value written, whatever it was bound to before; every other
    var, the id, the params and the properties are as before. *)
Theorem setVar_getVar (k : string) (v : Value) (n : DefaultNode.t) :
  DefaultNode.getVar k (DefaultNode.setVar k v n) = Some v /\
  DefaultNode.hasVar k (DefaultNode.setVar k v n) = true /\
  (forall k', k' <> k ->
     DefaultNode.getVar k' (DefaultNode.setVar k v n) = DefaultNode.getVar k' n) /\
  (forall v', DefaultNode.setVar k v (DefaultNode.setVar k v' n) = DefaultNode.setVar k v n) /\
  same_but_vars n (DefaultNode.setVar k v n).
Proof.
  unfold DefaultNode.getVar, DefaultNode.hasVar, DefaultNode.setVar, same_but_vars; cbn.
  split; [apply lookup_insert_eq|].
  split; [rewrite bool_decide_eq_true_2; [reflexivity|rewrite lookup_insert_eq; eauto]|].
  split; [intros k' Hk; apply lookup_insert_ne; congruence|].
  split; [intros v'; rewrite insert_insert_eq; reflexivity|auto].
Qed.

(** ** Objects *)

Lemma key_lt_trans (a b0 c : string) : key_lt a b0 -> key_lt b0 c -> key_lt a c.
Proof.
  unfold key_lt. intros H1 H2.
  apply OrderedTypeEx.String_as_OT.cmp_lt in H1, H2.
  apply OrderedTypeEx.String_as_OT.cmp_lt.
  eapply OrderedTypeEx.String_as_OT.lt_trans; eassumption.
Qed.

Lemma key_lt_irrefl (a : string) : ~ key_lt a a.
Proof.
  unfold key_lt. intros H. apply OrderedTypeEx.String_as_OT.cmp_lt in H.
  apply OrderedTypeEx.String_as_OT.lt_not_eq in H. apply H. reflexivity.
Qed.

Lemma key_gt_lt (a b0 : string) : String.compare a b0 = Gt -> key_lt b0 a.
Proof.
  unfold key_lt. intros H. rewrite String.compare_antisym, H. reflexivity.
Qed.

Lemma insert_member_bound (a k : string) (v : json) (l : list (string * json)) :
  key_lt a k -> Forall (key_lt a) (map fst l) ->
  Forall (key_lt a) (map fst (Json.insert_member k v l)).
Proof.
  intros Hk. induction l as [|[k' v'] l IH]; cbn [Json.insert_member map fst]; intros Hl.
  - constructor; [exact Hk|constructor].
  - inversion Hl as [|? ? Hk' Hl']; subst.
    destruct (String.compare k k'); cbn [map fst].
    + constructor; assumption.
    + constructor; [exact Hk|]. constructor; assumption.
    + constructor; [exact Hk'|]. apply IH, Hl'.
Qed.

Lemma insert_member_sorted (k : string) (v : json) (l : list (string * json)) :
  keys_sorted l -> keys_sorted (Json.insert_member k v l).
Proof.
  unfold keys_sorted. induction l as [|[k' v'] l IH]; cbn [Json.insert_member map fst];
    intros Hl.
  - constructor; constructor.
  - inversion Hl as [|? ? Hs Hb]; subst.
    destruct (String.compare k k') eqn:E; cbn [map fst].
    + apply String.compare_eq_iff in E as ->. constructor; assumption.
    + constructor; [exact Hl|]. constructor; [exact E|].
      eapply Forall_impl; [exact Hb|]. intros x Hx. eapply key_lt_trans; eassumption.
    + constructor; [apply IH, Hs|]. apply insert_member_bound; [|exact Hb].
      apply key_gt_lt, E.
Qed.

Lemma members_sorted (m : list (string * json)) : keys_sorted (Json.members m).
Proof.
  unfold Json.members.
  assert (H : forall acc, keys_sorted acc ->
            keys_sorted (fold_left (fun acc kv =>
              Json.insert_member (fst kv) (snd kv) acc) m acc)).
  { induction m as [|kv m IH]; intros acc Hacc; cbn [fold_left]; [exact Hacc|].
    apply IH, insert_member_sorted, Hacc. }
  apply H. constructor.
Qed.

Lemma keys_sorted_NoDup (l : list (string * json)) :
  keys_sorted l -> NoDup (map fst l).
Proof.
  unfold keys_sorted. generalize (map fst l). intros ks Hs.
  induction Hs as [|k ks _ IH Hb]; constructor; [|exact IH].
  intros Hin. rewrite Forall_forall in Hb. apply (key_lt_irrefl k), Hb, Hin.
Qed.

Lemma assoc_insert_member (key k : string) (v : json) (l : list (string * json)) :
  Json.assoc key (Json.insert_member k v l) =
  if String.eqb k key then Some v else Json.assoc key l.
Proof.
  induction l as [|[k' v'] l IH]; cbn [Json.insert_member Json.assoc]; [reflexivity|].
  destruct (String.compare k k') eqn:E; cbn [Json.assoc].
  - apply String.compare_eq_iff in E as <-. destruct (String.eqb k key); reflexivity.
  - reflexivity.
  - rewrite IH. destruct (String.eqb_spec k' key) as [->|_]; [|reflexivity].
    destruct (String.eqb_spec k key) as [->|_]; [|reflexivity].
    apply key_gt_lt, key_lt_irrefl in E. destruct E.
Qed.

Lemma assoc_absent (k : string) (l : list (string * json)) :
  k ∉ map fst l -> Json.assoc k l = None.
Proof.
  induction l as [|[k1 x1] l IH]; [reflexivity|]. cbn. intros Hnot.
  destruct (String.eqb_spec k1 k) as [->|_]; [destruct Hnot; left|].
  apply IH. intros Hin. apply Hnot. right. exact Hin.
Qed.

(** With distinct keys, the object holds under a key what the document
    lists under it. *)
Lemma assoc_members (key : string) (m : list (string * json)) :
  NoDup (map fst m) -> Json.assoc key (Json.members m) = Json.assoc key m.
Proof.
  unfold Json.members.
  assert (H : forall acc, NoDup (map fst m) ->
            Json.assoc key (fold_left (fun acc kv =>
              Json.insert_member (fst kv) (snd kv) acc) m acc) =
            match Json.assoc key m with
            | Some v => Some v
            | None => Json.assoc key acc
            end).
  { induction m as [|[k v] m IH]; intros acc Hnd; cbn [fold_left Json.assoc];
      [reflexivity|].
    inversion Hnd as [|? ? Hnot Hnd']; subst. rewrite IH by exact Hnd'.
    cbn [fst snd]. rewrite assoc_insert_member.
    destruct (String.eqb_spec k key) as [->|_]; [|reflexivity].
    rewrite (assoc_absent key m Hnot). reflexivity. }
  intros Hnd. rewrite H by exact Hnd. destruct (Json.assoc key m); reflexivity.
Qed.

Lemma fill_bag_lookup (pv : json -> outcome Value) (l : list (string * json))
    (bag m : gmap string Value) :
  fill_bag pv (map (fun kv => (Some (fst kv), snd kv)) l) bag = Ret m ->
  NoDup (map fst l) ->
  forall k,
    m !! k = match Json.assoc k l with
             | Some x => match pv x with Ret v => Some v | _ => None end
             | None => bag !! k
             end.
Proof.
  revert bag. induction l as [|[k0 x0] l IH]; intros bag;
    cbn [fill_bag Json.assoc map fst snd].
  - intros [= <-] _ k. reflexivity.
  - unfold bind at 1. destruct (pv x0) as [v0| |] eqn:E0; try discriminate.
    cbn [bind]. intros H Hnd k. inversion Hnd as [|? ? Hnot Hnd']; subst.
    rewrite (IH _ H Hnd' k). destruct (String.eqb_spec k0 k) as [->|Hne].
    + rewrite (assoc_absent k l Hnot), lookup_insert_eq, E0. reflexivity.
    + destruct (Json.assoc k l); [reflexivity|]. apply lookup_insert_ne. exact Hne.
Qed.

Lemma get_int64_small (i : Z) : - 2 ^ 63 <= i < 2 ^ 63 -> Json.get_int64 i = i.
Proof. intros H. unfold Json.get_int64. rewrite Z.mod_small; lia. Qed.

Lemma get_int64_wraps (i : Z) :
  2 ^ 63 <= i < 2 ^ 64 -> Json.get_int64 i = i - 2 ^ 64.
Proof.
  intros H. unfold Json.get_int64.
  replace (i + 2 ^ 63) with (i - 2 ^ 63 + 1 * 2 ^ 64) by lia.
  rewrite Z.mod_add by lia. rewrite Z.mod_small; lia.
Qed.

(** X16: a node read from a document has the id of the document and, when
    the document's [vars] is an object with distinct keys, exactly its
    bindings as vars, each scalar under its key and no other key: a
    float, a boolean or a string as it is, an integer that fits [int64_t]
    as it is, and an unsigned integer from 2^63 on wrapped to the negative
    [int64_t] of the same bits. *)
Theorem node_from_json_vars (j : json) (n : DefaultNode.t)
    (vs : list (string * json)) :
  NodeJson.from_json j = Ret n ->
  Json.at_ "vars" j = Ret (JObject vs) ->
  NoDup (map fst vs) ->
  Json.at_ "id" j = Ret (JString (DefaultNode.id n)) /\
  (forall k i, Json.assoc k vs = Some (JInt i) -> - 2 ^ 63 <= i < 2 ^ 63 ->
     DefaultNode.getVar k n = Some (VInt i)) /\
  (forall k i, Json.assoc k vs = Some (JInt i) -> 2 ^ 63 <= i < 2 ^ 64 ->
     DefaultNode.getVar k n = Some (VInt (i - 2 ^ 64))) /\
  (forall k d, Json.assoc k vs = Some (JFloat d) ->
     DefaultNode.getVar k n = Some (VDouble d)) /\
  (forall k x, Json.assoc k vs = Some (JBool x) ->
     DefaultNode.getVar k n = Some (VBool x)) /\
  (forall k s, Json.assoc k vs = Some (JString s) ->
     DefaultNode.getVar k n = Some (VString s)) /\
  (forall k, Json.assoc k vs = None -> DefaultNode.getVar k n = None).
Proof.
  unfold NodeJson.from_json, bind. intros H Hvars Hnd.
  destruct (Json.at_ "id" j) as [ji| |] eqn:Hid; try discriminate.
  destruct (Json.get_string ji) as [id| |] eqn:Hs; try discriminate.
  destruct (load_bag NodeJson.parseValue "params" j) as [ps| |]; try discriminate.
  destruct (load_bag NodeJson.parseValue "vars" j) as [vars| |] eqn:Hv; try discriminate.
  destruct (load_bag NodeJson.parseValue "properties" j) as [pr| |]; try discriminate.
  injection H as <-. cbn [DefaultNode.id].
  split; [destruct ji; try discriminate; injection Hs as ->; reflexivity|].
  unfold load_bag in Hv.
  assert (Hc : Json.contains "vars" j = true).
  { unfold Json.contains, Json.at_ in *. destruct j; try discriminate.
    destruct (Json.assoc "vars" (Json.members m)); [|discriminate].
    apply bool_decide_eq_true_2. eauto. }
  rewrite Hc, Hvars in Hv. cbn [bind Json.entries] in Hv.
  assert (Hk : forall k,
    vars !! k = match Json.assoc k vs with
                | Some x => match NodeJson.parseValue x with
                            | Ret v => Some v
                            | _ => None
                            end
                | None => None
                end).
  { intros k.
    rewrite (fill_bag_lookup _ _ _ _ Hv (keys_sorted_NoDup _ (members_sorted vs)) k).
    rewrite assoc_members by exact Hnd. rewrite lookup_empty. reflexivity. }
  unfold DefaultNode.getVar. cbn [DefaultNode.vars].
  repeat split; intros k; intros; rewrite Hk;
    match goal with E : Json.assoc _ _ = _ |- _ => rewrite E end; cbn;
    try reflexivity.
  - rewrite get_int64_small by assumption. reflexivity.
  - rewrite get_int64_wraps by assumption. reflexivity.
Qed.

(** ** Well-formed multi-phase graphs *)

Lemma graph_ok_empty : graph_ok StateGraph.empty.
Proof.
  split; [apply wf_empty|]. intros j e c H. cbn in H. rewrite lookup_nil in H. discriminate.
Qed.

Lemma addNode_ok (n : DefaultNode.t) : preserves graph_ok (StateGraph.addNode n).
Proof.
  intros g [Hwf Hc]. split; [apply addNode_wf, Hwf|].
  unfold StateGraph.addNode. case_bool_decide; exact Hc.
Qed.

Lemma addEdge_ok (e : DefaultEdge.t) :
  (forall c, DefaultEdge.compiled e = Some c -> cmp_ops_valid c = true) ->
  preserves graph_ok (StateGraph.addEdge e).
Proof.
  intros He g [Hwf Hc]. split; [apply addEdge_wf, Hwf|].
  destruct (addEdge_cases e g Hwf) as [(fi & ti & a & _ & _ & _ & ->)|[_ ->]];
    [|exact Hc].
  intros j e' c. cbn. intros Hj Hcomp.
  destruct (decide (j < length (StateGraph.edges_ g))%nat) as [Hlt|Hge].
  - rewrite lookup_app_l in Hj by exact Hlt. eapply Hc; eassumption.
  - rewrite lookup_app_r in Hj by lia.
    destruct (j - length (StateGraph.edges_ g))%nat as [|k]; [|destruct k; discriminate].
    injection Hj as <-. apply He, Hcomp.
Qed.

Lemma setInitialState_ok (id : string) :
  preserves graph_ok (StateGraph.setInitialState id).
Proof.
  intros g [Hwf Hc]. split; [apply setInitialState_wf, Hwf|].
  unfold StateGraph.setInitialState. destruct (StateGraph.node_index_ g !! id); exact Hc.
Qed.

Lemma setCurrentVar_ok (k : string) (v : Value) : preserves graph_ok (setCurrentVar k v).
Proof.
  intros g [Hwf Hc]. split; [apply setCurrentVar_wf, Hwf|].
  unfold setCurrentVar. destruct (StateGraph.current_index_ g) as [i|]; [|exact Hc].
  destruct (StateGraph.nodes_ g !! i); exact Hc.
Qed.

Lemma step_edges (g : StateGraph.t) :
  StateGraph.edges_ (snd (StateGraph.step g)) = StateGraph.edges_ g.
Proof.
  rewrite step_cases. destruct (StateGraph.current_index_ g) as [c|]; [|reflexivity].
  destruct (StateGraph.nodes_ g !! c) as [cur|]; [|reflexivity].
  destruct (StateGraph.adjacency_ g !! c) as [adj|]; [|reflexivity].
  apply step_loop_frame.
Qed.

Lemma step_ok : preserves graph_ok StateGraph.step.
Proof.
  intros g [Hwf Hc]. split; [apply step_wf_facts, Hwf|].
  unfold conditions_valid. rewrite step_edges. exact Hc.
Qed.

Lemma edge_from_json_valid (stod : string -> outcome double) (j : json)
    (e : DefaultEdge.t) :
  DefaultEdge.from_json stod j = Ret e ->
  forall c, DefaultEdge.compiled e = Some c -> cmp_ops_valid c = true.
Proof.
  unfold DefaultEdge.from_json, bind. intros H c Hc.
  destruct (Json.at_ "from" j) as [x1| |]; try discriminate.
  destruct (Json.get_string x1) as [f| |]; try discriminate.
  destruct (Json.at_ "to" j) as [x2| |]; try discriminate.
  destruct (Json.get_string x2) as [t| |]; try discriminate.
  destruct (Json.at_ "condition" j) as [x3| |]; try discriminate.
  destruct (Json.get_string x3) as [cond| |]; try discriminate.
  destruct (compileExpression stod cond) as [ex| |] eqn:E; try discriminate.
  destruct (load_bag DefaultEdge.parseValue "actions" j) as [a| |]; try discriminate.
  injection H as <-. cbn in Hc. injection Hc as <-.
  eapply compiled_cmp_ops_valid, E.
Qed.

Lemma phase_edge_from_json_valid (stod : string -> outcome double) (j : json)
    (e : DefaultPhaseEdge.t) :
  DefaultPhaseEdge.from_json stod j = Ret e ->
  forall c, DefaultPhaseEdge.compiled e = Some c -> cmp_ops_valid c = true.
Proof.
  unfold DefaultPhaseEdge.from_json, bind. intros H c Hc.
  destruct (Json.at_ "from" j) as [x1| |]; try discriminate.
  destruct (Json.get_string x1) as [f| |]; try discriminate.
  destruct (Json.at_ "to" j) as [x2| |]; try discriminate.
  destruct (Json.get_string x2) as [t| |]; try discriminate.
  destruct (Json.at_ "condition" j) as [x3| |]; try discriminate.
  destruct (Json.get_string x3) as [cond| |]; try discriminate.
  destruct (compileExpression stod cond) as [ex| |] eqn:E; try discriminate.
  injection H as <-. cbn in Hc. injection Hc as <-.
  eapply compiled_cmp_ops_valid, E.
Qed.

Lemma add_nodes_ok (l : list json) :
  preserves graph_ok
    (for_each (fun nj => n <~ lift (NodeJson.from_json nj) ;; StateGraph.addNode n) l).
Proof.
  apply for_each_preserves. intros nj. apply preserves_mbind; [apply preserves_lift|].
  intros n. apply addNode_ok.
Qed.

Lemma add_edges_ok (stod : string -> outcome double) (l : list json) :
  preserves graph_ok
    (for_each (fun ej => e <~ lift (DefaultEdge.from_json stod ej) ;; StateGraph.addEdge e) l).
Proof.
  apply for_each_preserves. intros ej g Hg. unfold mbind, lift.
  destruct (DefaultEdge.from_json stod ej) as [e| |] eqn:E; [|exact Hg|exact Hg].
  apply addEdge_ok; [|exact Hg]. eapply edge_from_json_valid, E.
Qed.

Lemma load_graph_ok (stod : string -> outcome double) (pj : json) :
  preserves graph_ok (MultiPhaseStateGraph.load_graph stod pj).
Proof.
  unfold MultiPhaseStateGraph.load_graph. apply preserves_mbind.
  - destruct (Json.contains "nodes" pj); [|apply preserves_mret].
    apply preserves_mbind; [apply preserves_lift|]. intros ns. apply add_nodes_ok.
  - intros _. destruct (Json.contains "edges" pj); [|apply preserves_mret].
    apply preserves_mbind; [apply preserves_lift|]. intros es. apply add_edges_ok.
Qed.

Lemma MP_wf_empty : MP_wf MultiPhaseStateGraph.empty.
Proof.
  split; cbn; try reflexivity; discriminate.
Qed.

Lemma MP_wf_with_graph (i : nat) (g : StateGraph.t) (mp : MultiPhaseStateGraph.t) :
  MP_wf mp -> graph_ok g -> MP_wf (with_phase_graph i g mp).
Proof.
  intros Hwf Hg. unfold with_phase_graph.
  destruct (MultiPhaseStateGraph.phases_ mp !! i) as [ph|] eqn:Hph; [|exact Hwf].
  pose proof (lookup_lt_Some _ _ _ Hph) as Hlt.
  destruct Hwf as [H1 H2 H3 H4 H5 H6 H7].
  split; cbn.
  - intros k p Hk. destruct (decide (k = i)) as [->|Hne].
    + rewrite list_lookup_insert_eq in Hk by exact Hlt. injection Hk as <-. exact Hg.
    + rewrite list_lookup_insert_ne in Hk by congruence. eapply H1, Hk.
  - rewrite length_insert. exact H2.
  - intros id k Hk. destruct (H3 id k Hk) as (p & Hp & Hid).
    destruct (decide (k = i)) as [->|Hne].
    + rewrite list_lookup_insert_eq by exact Hlt. eexists; split; [reflexivity|].
      cbn. congruence.
    + rewrite list_lookup_insert_ne by congruence. eauto.
  - intros k p Hk. destruct (decide (k = i)) as [->|Hne].
    + rewrite list_lookup_insert_eq in Hk by exact Hlt. injection Hk as <-. cbn.
      apply H4, Hph.
    + rewrite list_lookup_insert_ne in Hk by congruence. apply H4, Hk.
  - exact H5.
  - exact H6.
  - rewrite length_insert. exact H7.
Qed.

Lemma on_graph_wf {A : Type} (i : nat) (m : M StateGraph.t A) :
  preserves graph_ok m -> preserves MP_wf (MultiPhaseStateGraph.on_graph i m).
Proof.
  intros Hm mp Hwf.
  destruct (MultiPhaseStateGraph.phases_ mp !! i) as [ph|] eqn:Hph.
  - rewrite (on_graph_eq i m ph mp Hph). cbn [snd].
    apply MP_wf_with_graph; [exact Hwf|]. apply Hm. eapply mwf_graphs; eassumption.
  - unfold MultiPhaseStateGraph.on_graph. rewrite Hph. exact Hwf.
Qed.

Lemma set_current_phase_wf (t : nat) (mp : MultiPhaseStateGraph.t) :
  MP_wf mp -> (t < length (MultiPhaseStateGraph.phases_ mp))%nat ->
  MP_wf (MultiPhaseStateGraph.set_current_phase (Some t) mp).
Proof.
  intros [H1 H2 H3 H4 H5 H6 H7] Ht. split; cbn; try assumption.
  intros i [= <-]. exact Ht.
Qed.

Lemma MP_index_in_range (mp : MultiPhaseStateGraph.t) (id : string) (t : nat) :
  MP_wf mp -> MultiPhaseStateGraph.phase_index_ mp !! id = Some t ->
  (t < length (MultiPhaseStateGraph.phases_ mp))%nat.
Proof.
  intros Hwf Ht. destruct (mwf_index mp Hwf id t Ht) as (p & Hp & _).
  eapply lookup_lt_Some, Hp.
Qed.

Lemma switch_phase_wf (pe : DefaultPhaseEdge.t) :
  preserves MP_wf (MultiPhaseStateGraph.switch_phase pe).
Proof.
  intros mp Hwf. unfold MultiPhaseStateGraph.switch_phase.
  destruct (MultiPhaseStateGraph.phase_index_ mp !! DefaultPhaseEdge.to pe) as [t|] eqn:Ht;
    [|exact Hwf].
  pose proof (set_current_phase_wf t mp Hwf (MP_index_in_range _ _ _ Hwf Ht)) as Hwf1.
  unfold mbind at 1, modify. cbv beta iota.
  refine (preserves_mbind MP_wf _ _ _ _ _ Hwf1); [apply preserves_const|].
  intros p. destruct (_ && _); [|apply preserves_mret].
  apply preserves_mbind; [apply on_graph_wf, setInitialState_ok|].
  intros _. apply preserves_mret.
Qed.

Lemma phase_loop_wf (cur : DefaultNode.t) (adj : list nat) :
  preserves MP_wf (MultiPhaseStateGraph.phase_loop cur adj).
Proof.
  induction adj as [|j adj IH]; cbn [MultiPhaseStateGraph.phase_loop].
  - apply preserves_mret.
  - apply preserves_mbind; [apply preserves_const|]. intros pe.
    apply preserves_mbind; [apply preserves_lift|]. intros [|]; [|exact IH].
    apply preserves_mbind; [apply switch_phase_wf|]. intros _. apply preserves_mret.
Qed.

Lemma currentPhaseId_same (mp : MultiPhaseStateGraph.t) :
  snd (MultiPhaseStateGraph.currentPhaseId mp) = mp.
Proof.
  unfold MultiPhaseStateGraph.currentPhaseId.
  destruct (MultiPhaseStateGraph.current_phase_ mp) as [i|]; [|reflexivity].
  unfold mbind, MultiPhaseStateGraph.phase_at, at_index.
  destruct (MultiPhaseStateGraph.phases_ mp !! i); reflexivity.
Qed.

Lemma MP_currentStateId_same (mp : MultiPhaseStateGraph.t) :
  snd (MultiPhaseStateGraph.currentStateId mp) = mp.
Proof.
  unfold MultiPhaseStateGraph.currentStateId.
  destruct (MultiPhaseStateGraph.current_phase_ mp) as [i|]; [|reflexivity].
  unfold mbind, MultiPhaseStateGraph.phase_at, at_index.
  destruct (MultiPhaseStateGraph.phases_ mp !! i); reflexivity.
Qed.

Lemma MP_step_wf : preserves MP_wf MultiPhaseStateGraph.step.
Proof.
  intros mp Hwf. unfold MultiPhaseStateGraph.step.
  destruct (MultiPhaseStateGraph.current_phase_ mp) as [ci|]; [|exact Hwf].
  revert mp Hwf.
  change (preserves MP_wf
    (phase <~ MultiPhaseStateGraph.phase_at ci ;;
     prevState <~ lift (StateGraph.currentStateId (MultiPhaseStateGraph.Phase.graph phase)) ;;
     ns <~ MultiPhaseStateGraph.on_graph ci StateGraph.step ;;
     curNode <~ MultiPhaseStateGraph.on_graph ci (fun g => (StateGraph.currentNode g, g)) ;;
     adj <~ (fun mp1 => (at_index (MultiPhaseStateGraph.phase_adj_ mp1) ci, mp1)) ;;
     changed <~ MultiPhaseStateGraph.phase_loop curNode adj ;;
     pid <~ MultiPhaseStateGraph.currentPhaseId ;;
     sid <~ MultiPhaseStateGraph.currentStateId ;;
     mret (Some (MultiPhaseStateGraph.mkStepResult changed
                   (match ns with Some _ => true | None => false end) pid sid)))).
  apply preserves_mbind; [apply preserves_const|]. intros phase.
  apply preserves_mbind; [apply preserves_lift|]. intros prev.
  apply preserves_mbind; [apply on_graph_wf, step_ok|]. intros ns.
  apply preserves_mbind; [apply on_graph_wf, preserves_const|]. intros curNode.
  apply preserves_mbind; [apply preserves_const|]. intros adj.
  apply preserves_mbind; [apply phase_loop_wf|]. intros changed.
  apply preserves_mbind; [intros s Hs; rewrite currentPhaseId_same; exact Hs|]. intros pid.
  apply preserves_mbind; [intros s Hs; rewrite MP_currentStateId_same; exact Hs|]. intros sid.
  apply preserves_mret.
Qed.

Lemma MP_wf_push (mp : MultiPhaseStateGraph.t) (id : string) (g : StateGraph.t)
    (init : string) :
  MP_wf mp -> MultiPhaseStateGraph.phase_index_ mp !! id = None -> graph_ok g ->
  MP_wf (MultiPhaseStateGraph.mk
           (MultiPhaseStateGraph.phases_ mp ++ [MultiPhaseStateGraph.Phase.mk id g init])%list
           (<[id := length (MultiPhaseStateGraph.phases_ mp)]>
              (MultiPhaseStateGraph.phase_index_ mp))
           (MultiPhaseStateGraph.phase_edges_ mp)
           (MultiPhaseStateGraph.phase_adj_ mp ++ [[]])%list
           (MultiPhaseStateGraph.current_phase_ mp)).
Proof.
  intros [H1 H2 H3 H4 H5 H6 H7] Hnone Hg. split; cbn.
  - intros i p Hp.
    destruct (decide (i < length (MultiPhaseStateGraph.phases_ mp))%nat) as [Hlt|Hge].
    + rewrite lookup_app_l in Hp by exact Hlt. eapply H1, Hp.
    + rewrite lookup_app_r in Hp by lia.
      destruct (i - length (MultiPhaseStateGraph.phases_ mp))%nat as [|k];
        [|destruct k; discriminate].
      injection Hp as <-. exact Hg.
  - rewrite !length_app, H2. reflexivity.
  - intros id' i Hi. destruct (decide (id = id')) as [<-|Hne].
    + rewrite lookup_insert_eq in Hi. injection Hi as <-.
      exists (MultiPhaseStateGraph.Phase.mk id g init). split; [|reflexivity].
      rewrite lookup_app_r by lia. rewrite Nat.sub_diag. reflexivity.
    + rewrite lookup_insert_ne in Hi by exact Hne.
      destruct (H3 id' i Hi) as (p & Hp & Hid). exists p. split; [|exact Hid].
      rewrite lookup_app_l by (eapply lookup_lt_Some, Hp). exact Hp.
  - intros i p Hp.
    destruct (decide (i < length (MultiPhaseStateGraph.phases_ mp))%nat) as [Hlt|Hge].
    + rewrite lookup_app_l in Hp by exact Hlt. pose proof (H4 i p Hp) as Hi.
      rewrite lookup_insert_ne; [exact Hi|]. intros E. rewrite <- E, Hnone in Hi.
      discriminate.
    + rewrite lookup_app_r in Hp by lia.
      destruct (i - length (MultiPhaseStateGraph.phases_ mp))%nat as [|k] eqn:Ek;
        [|destruct k; discriminate].
      injection Hp as <-. cbn. replace i with (length (MultiPhaseStateGraph.phases_ mp)) by lia.
      apply lookup_insert_eq.
  - intros j pe Hpe. destruct (H5 j pe Hpe) as ([fi Hf] & [ti Ht] & Hc).
    split; [|split; [|exact Hc]].
    + destruct (decide (id = DefaultPhaseEdge.from pe)) as [E|Hne];
        [rewrite E in Hnone; congruence|rewrite lookup_insert_ne by exact Hne; eauto].
    + destruct (decide (id = DefaultPhaseEdge.to pe)) as [E|Hne];
        [rewrite E in Hnone; congruence|rewrite lookup_insert_ne by exact Hne; eauto].
  - intros i a j Ha Hj.
    destruct (decide (i < length (MultiPhaseStateGraph.phase_adj_ mp))%nat) as [Hlt|Hge].
    + rewrite lookup_app_l in Ha by exact Hlt.
      destruct (H6 i a j Ha Hj) as (pe & Hpe & Hf). exists pe. split; [exact Hpe|].
      destruct (decide (id = DefaultPhaseEdge.from pe)) as [E|Hne];
        [rewrite E in Hnone; congruence|rewrite lookup_insert_ne by exact Hne; exact Hf].
    + rewrite lookup_app_r in Ha by lia.
      destruct (i - length (MultiPhaseStateGraph.phase_adj_ mp))%nat as [|k];
        [|destruct k; discriminate].
      injection Ha as <-. inversion Hj.
  - intros i Hi. rewrite length_app. specialize (H7 i Hi). lia.
Qed.

Lemma run_local_ok {A : Type} (m : M StateGraph.t A) (g0 g : StateGraph.t) :
  preserves graph_ok m -> graph_ok g0 ->
  MultiPhaseStateGraph.run_local m g0 = Ret g -> graph_ok g.
Proof.
  intros Hm H0. unfold MultiPhaseStateGraph.run_local. specialize (Hm g0 H0).
  destruct (m g0) as [[a| |] g1]; try discriminate. intros [= <-]. exact Hm.
Qed.

Lemma load_phase_wf (stod : string -> outcome double) (pj : json) :
  preserves MP_wf (MultiPhaseStateGraph.load_phase stod pj).
Proof.
  intros mp Hwf. unfold MultiPhaseStateGraph.load_phase, mbind, lift, modify.
  destruct (x <- Json.at_ "id" pj ;; Json.get_string x) as [id| |]; try exact Hwf.
  case_bool_decide as Hdup; [exact Hwf|].
  assert (Hnone : MultiPhaseStateGraph.phase_index_ mp !! id = None)
    by (destruct (MultiPhaseStateGraph.phase_index_ mp !! id) eqn:E;
        [destruct Hdup; eauto|reflexivity]).
  destruct (MultiPhaseStateGraph.run_local _ _) as [g| |] eqn:Hg; try exact Hwf.
  apply run_local_ok in Hg; [|apply load_graph_ok|apply graph_ok_empty].
  destruct (if Json.contains "initial_state" pj then _ else _) as [init| |]; try exact Hwf.
  cbn [snd]. apply MP_wf_push; [exact Hwf|exact Hnone|].
  destruct (negb _); [apply setInitialState_ok, Hg|exact Hg].
Qed.

Lemma load_phase_edge_wf (stod : string -> outcome double) (fe : json) :
  preserves MP_wf (MultiPhaseStateGraph.load_phase_edge stod fe).
Proof.
  intros mp Hwf. unfold MultiPhaseStateGraph.load_phase_edge, mbind, lift.
  destruct (DefaultPhaseEdge.from_json stod fe) as [edge| |] eqn:He; try exact Hwf.
  pose proof (phase_edge_from_json_valid stod fe edge He) as Hvalid.
  destruct (MultiPhaseStateGraph.phase_index_ mp !! DefaultPhaseEdge.from edge)
    as [fi|] eqn:Hf; [|exact Hwf].
  destruct (MultiPhaseStateGraph.phase_index_ mp !! DefaultPhaseEdge.to edge)
    as [ti|] eqn:Ht; [|exact Hwf].
  cbn. pose proof (MP_index_in_range mp _ _ Hwf Hf) as Hlt.
  destruct Hwf as [H1 H2 H3 H4 H5 H6 H7]. rewrite <- H2 in Hlt.
  destruct (lookup_lt_is_Some_2 _ _ Hlt) as [a Ha]. rewrite Ha. cbn.
  split; cbn; try assumption.
  - rewrite length_insert. exact H2.
  - intros j pe Hpe.
    destruct (decide (j < length (MultiPhaseStateGraph.phase_edges_ mp))%nat) as [Hj|Hj].
    + rewrite lookup_app_l in Hpe by exact Hj. eauto.
    + rewrite lookup_app_r in Hpe by lia.
      destruct (j - length (MultiPhaseStateGraph.phase_edges_ mp))%nat as [|k];
        [|destruct k; discriminate].
      injection Hpe as <-. split; [eauto|split; [eauto|exact Hvalid]].
  - intros i a' j Ha' Hj. destruct (decide (fi = i)) as [<-|Hne].
    + rewrite list_lookup_insert_eq in Ha' by exact Hlt.
      injection Ha' as <-. apply elem_of_app in Hj as [Hj|Hj].
      * destruct (H6 fi a j Ha Hj) as (pe & Hpe & Hf'). exists pe. split; [|exact Hf'].
        rewrite lookup_app_l by (eapply lookup_lt_Some, Hpe). exact Hpe.
      * apply list_elem_of_singleton in Hj as ->. exists edge. split; [|exact Hf].
        rewrite lookup_app_r by lia. rewrite Nat.sub_diag. reflexivity.
    + rewrite list_lookup_insert_ne in Ha' by exact Hne.
      destruct (H6 i a' j Ha' Hj) as (pe & Hpe & Hf'). exists pe. split; [|exact Hf'].
      rewrite lookup_app_l by (eapply lookup_lt_Some, Hpe). exact Hpe.
Qed.

Lemma first_phase_wf :
  preserves MP_wf
    (fun mp =>
       match MultiPhaseStateGraph.phases_ mp with
       | [] => (Ret tt, mp)
       | p :: _ =>
           (_ <~ modify (MultiPhaseStateGraph.set_current_phase (Some O)) ;;
            if negb (StateGraph.hasCurrentState (MultiPhaseStateGraph.Phase.graph p)) &&
               negb (String.eqb (MultiPhaseStateGraph.Phase.initial_state p) "")
            then _ <~ MultiPhaseStateGraph.on_graph O
                        (StateGraph.setInitialState
                           (MultiPhaseStateGraph.Phase.initial_state p)) ;;
                 mret tt
            else mret tt) mp
       end).
Proof.
  intros mp Hwf. destruct (MultiPhaseStateGraph.phases_ mp) as [|p ps] eqn:Hps; [exact Hwf|].
  assert (Hwf1 : MP_wf (MultiPhaseStateGraph.set_current_phase (Some O) mp))
    by (apply set_current_phase_wf; [exact Hwf|rewrite Hps; cbn; lia]).
  unfold mbind at 1, modify. cbv beta iota.
  destruct (_ && _); [|exact Hwf1].
  refine (preserves_mbind MP_wf _ _ _ _ _ Hwf1);
    [apply on_graph_wf, setInitialState_ok|intros _; apply preserves_mret].
Qed.

Lemma MP_loadFromJson_wf (stod : string -> outcome double)
    (opened : option (outcome json)) (mp : MultiPhaseStateGraph.t) :
  MP_wf (snd (MultiPhaseStateGraph.loadFromJson stod opened mp)).
Proof.
  unfold MultiPhaseStateGraph.loadFromJson. unfold mbind at 1.
  unfold MultiPhaseStateGraph.clear at 1, modify. cbv beta iota.
  generalize MP_wf_empty. generalize MultiPhaseStateGraph.empty. 
  change (preserves MP_wf
    match opened with
    | None => mret false
    | Some parsed =>
      j <~ lift parsed ;;
      ps <~ lift (if negb (Json.contains "phases" j) then Throw Missing_phases_array
                  else x <- Json.at_ "phases" j ;;
                       if negb (Json.is_array x) then Throw Missing_phases_array
                       else Ret x) ;;
      _ <~ for_each (MultiPhaseStateGraph.load_phase stod) (Json.elements ps) ;;
      _ <~ (if Json.contains "phase_edges" j then
              es <~ lift (Json.at_ "phase_edges" j) ;;
              for_each (MultiPhaseStateGraph.load_phase_edge stod) (Json.elements es)
            else mret tt) ;;
      _ <~ (fun mp =>
              match MultiPhaseStateGraph.phases_ mp with
              | [] => (Ret tt, mp)
              | p :: _ =>
                  (_ <~ modify (MultiPhaseStateGraph.set_current_phase (Some O)) ;;
                   if negb (StateGraph.hasCurrentState (MultiPhaseStateGraph.Phase.graph p)) &&
                      negb (String.eqb (MultiPhaseStateGraph.Phase.initial_state p) "")
                   then _ <~ MultiPhaseStateGraph.on_graph O
                               (StateGraph.setInitialState
                                  (MultiPhaseStateGraph.Phase.initial_state p)) ;;
                        mret tt
                   else mret tt) mp
              end) ;;
      mret true
    end).
  destruct opened as [parsed|]; [|apply preserves_mret].
  apply preserves_mbind; [apply preserves_lift|]. intros j.
  apply preserves_mbind; [apply preserves_lift|]. intros ps.
  apply preserves_mbind; [apply for_each_preserves, load_phase_wf|]. intros _.
  apply preserves_mbind.
  - destruct (Json.contains "phase_edges" j); [|apply preserves_mret].
    apply preserves_mbind; [apply preserves_lift|]. intros es.
    apply for_each_preserves, load_phase_edge_wf.
  - intros _. apply preserves_mbind; [apply first_phase_wf|]. intros _. apply preserves_mret.
Qed.

Lemma setInitialPhase_wf (id : string) :
  preserves MP_wf (MultiPhaseStateGraph.setInitialPhase id).
Proof.
  intros mp Hwf. unfold MultiPhaseStateGraph.setInitialPhase.
  destruct (MultiPhaseStateGraph.phase_index_ mp !! id) as [t|] eqn:Ht; [|exact Hwf].
  pose proof (set_current_phase_wf t mp Hwf (MP_index_in_range _ _ _ Hwf Ht)) as Hwf1.
  unfold mbind at 1, modify. cbv beta iota.
  refine (preserves_mbind MP_wf _ _ _ _ _ Hwf1); [apply preserves_const|].
  intros p. apply preserves_mbind; [|intros _; apply preserves_mret].
  destruct (negb _); [apply on_graph_wf, setInitialState_ok|apply preserves_mret].
Qed.

Lemma setCurrentVarMP_wf (k : string) (v : Value) : preserves MP_wf (setCurrentVarMP k v).
Proof.
  intros mp Hwf. unfold setCurrentVarMP.
  destruct (MultiPhaseStateGraph.current_phase_ mp) as [i|]; [|exact Hwf].
  apply on_graph_wf; [apply setCurrentVar_ok|exact Hwf].
Qed.

Lemma loaded_wf (mp : MultiPhaseStateGraph.t) : loaded mp -> MP_wf mp.
Proof.
  induction 1.
  - apply MP_wf_empty.
  - apply MP_loadFromJson_wf.
  - apply setInitialPhase_wf; assumption.
  - apply setCurrentVarMP_wf; assumption.
  - apply MP_step_wf; assumption.
  - apply MP_wf_empty.
Qed.

Lemma graph_step_throw_eval (g : StateGraph.t) (x : error) :
  graph_ok g -> fst (StateGraph.step g) = Throw x -> is_eval_error x = true.
Proof.
  intros [Hwf Hc]. rewrite step_cases.
  destruct (StateGraph.current_index_ g) as [c|]; [|discriminate].
  destruct (StateGraph.nodes_ g !! c) as [cur|]; [|discriminate].
  destruct (StateGraph.adjacency_ g !! c) as [adj|]; [|discriminate].
  destruct (StateGraph.step_loop cur adj g) as [o g'] eqn:E. cbn. intros ->.
  destruct (step_loop_throw_origin cur adj g g' x E) as (j & e & _ & He & Hev).
  unfold DefaultEdge.evaluate in Hev.
  destruct (DefaultEdge.compiled e) as [cond|] eqn:Hcond; [|discriminate].
  destruct (eval_valid_throw cur cond (Hc j e cond He Hcond)) as [H _]. apply H, Hev.
Qed.

Lemma with_phase_graph_current (i : nat) (g : StateGraph.t) (mp : MultiPhaseStateGraph.t) :
  MultiPhaseStateGraph.current_phase_ (with_phase_graph i g mp) =
  MultiPhaseStateGraph.current_phase_ mp.
Proof.
  unfold with_phase_graph. destruct (MultiPhaseStateGraph.phases_ mp !! i); reflexivity.
Qed.

Lemma switch_phase_returns (pe : DefaultPhaseEdge.t) (mp : MultiPhaseStateGraph.t) (t : nat) :
  MP_wf mp ->
  MultiPhaseStateGraph.phase_index_ mp !! DefaultPhaseEdge.to pe = Some t ->
  exists mp', MultiPhaseStateGraph.switch_phase pe mp = (Ret tt, mp') /\
              MultiPhaseStateGraph.current_phase_ mp' = Some t.
Proof.
  intros Hwf Ht. unfold MultiPhaseStateGraph.switch_phase. rewrite Ht.
  destruct (mwf_index mp Hwf _ _ Ht) as (p & Hp & _).
  unfold mbind at 1, modify. cbv beta iota.
  unfold mbind at 1, MultiPhaseStateGraph.phase_at, at_index.
  cbn [MultiPhaseStateGraph.phases_ MultiPhaseStateGraph.set_current_phase].
  rewrite Hp. destruct (_ && _); [|eexists; split; reflexivity].
  unfold mbind. rewrite (on_graph_eq t _ p) by exact Hp.
  unfold StateGraph.setInitialState.
  destruct (StateGraph.node_index_ _ !! _); cbn [fst snd];
    (eexists; split; [reflexivity|]); rewrite with_phase_graph_current; reflexivity.
Qed.

Lemma phase_loop_cases (cur : DefaultNode.t) (adj : list nat)
    (mp : MultiPhaseStateGraph.t) :
  MP_wf mp ->
  (forall j, j ∈ adj ->
     exists pe, MultiPhaseStateGraph.phase_edges_ mp !! j = Some pe) ->
  match MultiPhaseStateGraph.phase_loop cur adj mp with
  | (Ret changed, mp') =>
      if changed then is_Some (MultiPhaseStateGraph.current_phase_ mp') else mp' = mp
  | (Throw x, _) => is_eval_error x = true
  | (Undefined, _) => False
  end.
Proof.
  intros Hwf. induction adj as [|j adj IH]; intros Hadj;
    cbn [MultiPhaseStateGraph.phase_loop]; [reflexivity|].
  destruct (Hadj j) as [pe Hpe]; [left|].
  unfold mbind at 1, at_index. rewrite Hpe.
  unfold mbind at 1, lift.
  destruct (mwf_edges mp Hwf j pe Hpe) as (_ & [t Ht] & Hvalid).
  unfold DefaultPhaseEdge.evaluate.
  destruct (DefaultPhaseEdge.compiled pe) as [c|] eqn:Hc.
  - destruct (eval c cur) as [[|]| x |] eqn:Hev.
    + destruct (switch_phase_returns pe mp t Hwf Ht) as (mp' & Hsw & Hcur).
      unfold mbind. rewrite Hsw. cbn. rewrite Hcur. eauto.
    + apply IH. intros k Hk. apply Hadj. right. exact Hk.
    + destruct (eval_valid_throw cur c (Hvalid c eq_refl)) as [H _]. apply H, Hev.
    + destruct (eval_defined cur c) as [Hd _]. apply Hd, Hev.
  - apply IH. intros k Hk. apply Hadj. right. exact Hk.
Qed.

Lemma currentNode_returns (g : StateGraph.t) :
  StateGraph_wf g -> StateGraph.hasCurrentState g = true ->
  exists n, StateGraph.currentNode g = Ret n.
Proof.
  intros Hwf. unfold StateGraph.hasCurrentState, StateGraph.currentNode, at_index.
  destruct (StateGraph.current_index_ g) as [i|] eqn:Hi; [|discriminate]. intros _.
  destruct (lookup_lt_is_Some_2 _ _ (wf_current g Hwf i Hi)) as [n Hn].
  rewrite Hn. eauto.
Qed.

Lemma currentStateId_defined (g : StateGraph.t) :
  StateGraph_wf g -> StateGraph.currentStateId g <> Undefined.
Proof.
  intros Hwf. unfold StateGraph.currentStateId, at_index.
  destruct (StateGraph.current_index_ g) as [i|] eqn:Hi; [|discriminate].
  destruct (lookup_lt_is_Some_2 _ _ (wf_current g Hwf i Hi)) as [n Hn].
  rewrite Hn. discriminate.
Qed.

Lemma MP_step_cases (mp : MultiPhaseStateGraph.t) :
  MP_wf mp ->
  match MultiPhaseStateGraph.step mp with
  | (Ret None, mp') => MultiPhaseStateGraph.current_phase_ mp = None /\ mp' = mp
  | (Ret (Some r), mp') =>
      MultiPhaseStateGraph.currentPhaseId mp' =
        (Ret (MultiPhaseStateGraph.phase_id r), mp') /\
      MultiPhaseStateGraph.currentStateId mp' =
        (Ret (MultiPhaseStateGraph.state_id r), mp') /\
      (MultiPhaseStateGraph.phase_changed r = false ->
       MultiPhaseStateGraph.current_phase_ mp' = MultiPhaseStateGraph.current_phase_ mp)
  | (Throw x, _) => x = No_current_state \/ is_eval_error x = true
  | (Undefined, _) => False
  end.
Proof.
  intros Hwf. unfold MultiPhaseStateGraph.step.
  destruct (MultiPhaseStateGraph.current_phase_ mp) as [ci|] eqn:Hc; [|split; reflexivity].
  destruct (lookup_lt_is_Some_2 _ _ (mwf_current mp Hwf ci Hc)) as [ph Hph].
  destruct (mwf_graphs mp Hwf ci ph Hph) as [Hgwf Hgc].
  unfold mbind at 1, MultiPhaseStateGraph.phase_at. unfold at_index at 1. rewrite Hph.
  unfold mbind at 1, lift.
  destruct (StateGraph.currentStateId (MultiPhaseStateGraph.Phase.graph ph))
    as [prev| x |] eqn:Hprev;
    [|left; eapply currentStateId_throw, Hprev
     |eapply currentStateId_defined; [exact Hgwf|exact Hprev]].
  pose proof (StateGraph_step_has_current _ (currentStateId_has_current _ _ Hprev)) as Hhas.
  pose proof (step_ok _ (conj Hgwf Hgc)) as Hok1.
  pose proof (step_wf_facts _ Hgwf) as (_ & Hdef & _).
  pose proof (fun x => graph_step_throw_eval (MultiPhaseStateGraph.Phase.graph ph) x
                         (conj Hgwf Hgc)) as Hthrow.
  unfold mbind at 1. rewrite (on_graph_eq ci _ ph mp Hph).
  pose proof (MP_wf_with_graph ci _ mp Hwf Hok1) as Hwf1.
  pose proof (with_phase_graph_lookup ci
                (snd (StateGraph.step (MultiPhaseStateGraph.Phase.graph ph))) ph mp Hph) as Hph1.
  pose proof (with_phase_graph_current ci
                (snd (StateGraph.step (MultiPhaseStateGraph.Phase.graph ph))) mp) as Hc1.
  rewrite Hc in Hc1.
  revert Hwf1 Hph1 Hc1.
  generalize (with_phase_graph ci
                (snd (StateGraph.step (MultiPhaseStateGraph.Phase.graph ph))) mp).
  revert Hhas Hok1 Hdef Hthrow.
  generalize (snd (StateGraph.step (MultiPhaseStateGraph.Phase.graph ph))).
  destruct (fst (StateGraph.step (MultiPhaseStateGraph.Phase.graph ph))) as [ns| x |];
    intros g1 Hhas Hok1 Hdef Hthrow mp1 Hwf1 Hph1 Hc1;
    [|right; apply Hthrow; reflexivity|apply Hdef; reflexivity].
  unfold mbind at 1. rewrite (on_graph_eq ci _ _ mp1 Hph1). cbn [fst snd].
  rewrite (with_phase_graph_same ci _ mp1 Hph1).
  cbn [MultiPhaseStateGraph.Phase.graph MultiPhaseStateGraph.Phase.set_graph].
  destruct (currentNode_returns g1 (proj1 Hok1) Hhas) as [curNode ->].
  unfold mbind at 1. unfold at_index at 1.
  assert (Hlt : (ci < length (MultiPhaseStateGraph.phase_adj_ mp1))%nat)
    by (rewrite (mwf_adjacency mp1 Hwf1); eapply lookup_lt_Some, Hph1).
  destruct (lookup_lt_is_Some_2 _ _ Hlt) as [adj Hadj]. rewrite Hadj.
  pose proof (phase_loop_cases curNode adj mp1 Hwf1) as Hloop.
  pose proof (phase_loop_wf curNode adj mp1 Hwf1) as Hwf2.
  unfold mbind at 1.
  destruct (MultiPhaseStateGraph.phase_loop curNode adj mp1) as [[changed| x |] mp2];
    cbn [snd] in Hwf2.
  - assert (Hcur2 : exists t, MultiPhaseStateGraph.current_phase_ mp2 = Some t /\
                              (changed = false -> t = ci)).
    { destruct changed.
      - destruct Hloop as [t Ht].
        { intros j Hj. destruct (mwf_adj_edges mp1 Hwf1 ci adj j Hadj Hj) as (pe & Hpe & _).
          eauto. }
        exists t. split; [exact Ht|discriminate].
      - rewrite Hloop.
        + exists ci. split; [exact Hc1|reflexivity].
        + intros j Hj. destruct (mwf_adj_edges mp1 Hwf1 ci adj j Hadj Hj) as (pe & Hpe & _).
          eauto. }
    destruct Hcur2 as (t & Ht & Hsame).
    destruct (lookup_lt_is_Some_2 _ _ (mwf_current mp2 Hwf2 t Ht)) as [p2 Hp2].
    assert (Hpid : MultiPhaseStateGraph.currentPhaseId mp2 =
                   (Ret (MultiPhaseStateGraph.Phase.id p2), mp2)).
    { unfold MultiPhaseStateGraph.currentPhaseId. rewrite Ht.
      unfold mbind, MultiPhaseStateGraph.phase_at, at_index. rewrite Hp2. reflexivity. }
    assert (Hsid : MultiPhaseStateGraph.currentStateId mp2 =
                   (StateGraph.currentStateId (MultiPhaseStateGraph.Phase.graph p2), mp2)).
    { unfold MultiPhaseStateGraph.currentStateId. rewrite Ht.
      unfold mbind, MultiPhaseStateGraph.phase_at, at_index. rewrite Hp2. reflexivity. }
    unfold mbind at 1. rewrite Hpid. unfold mbind. rewrite Hsid.
    destruct (StateGraph.currentStateId (MultiPhaseStateGraph.Phase.graph p2))
      as [sid| x |] eqn:Es.
    + cbn. split; [exact Hpid|]. split; [rewrite Hsid; try rewrite Es; reflexivity|].
      intros Hch. rewrite Ht, (Hsame Hch). reflexivity.
    + left. eapply currentStateId_throw, Es.
    + eapply currentStateId_defined; [|exact Es]. eapply mwf_graphs; eassumption.
  - right. apply Hloop.
    intros j Hj. destruct (mwf_adj_edges mp1 Hwf1 ci adj j Hadj Hj) as (pe & Hpe & _). eauto.
  - apply Hloop.
    intros j Hj. destruct (mwf_adj_edges mp1 Hwf1 ci adj j Hadj Hj) as (pe & Hpe & _). eauto.
Qed.

(** ** Loading *)

Lemma mbind_ret_inv {S A B : Type} (m : M S A) (k : A -> M S B) (s s' : S) (b0 : B) :
  mbind m k s = (Ret b0, s') ->
  exists a s1, m s = (Ret a, s1) /\ k a s1 = (Ret b0, s').
Proof.
  unfold mbind. destruct (m s) as [[a| x |] s1]; try discriminate. eauto.
Qed.

Lemma add_nodes_ret (l : list json) (g g' : StateGraph.t) :
  for_each (fun nj => n <~ lift (NodeJson.from_json nj) ;; StateGraph.addNode n) l g =
    (Ret tt, g') ->
  exists ns, Forall2 (fun nj n => NodeJson.from_json nj = Ret n) l ns /\
             StateGraph.nodes_ g' = (StateGraph.nodes_ g ++ ns)%list /\
             StateGraph.edges_ g' = StateGraph.edges_ g /\
             StateGraph.current_index_ g' = StateGraph.current_index_ g.
Proof.
  revert g. induction l as [|nj l IH]; intros g; cbn [for_each].
  - intros [= <-]. exists []. rewrite app_nil_r. auto.
  - intros H. apply mbind_ret_inv in H as ([] & g1 & H1 & H2).
    apply mbind_ret_inv in H1 as (n & g0 & Hn & Hadd).
    unfold lift in Hn. injection Hn as Hn <-.
    unfold StateGraph.addNode in Hadd. case_bool_decide; [discriminate|].
    injection Hadd as <-. destruct (IH _ H2) as (ns & Hns & Hnodes & Hedges & Hcur).
    exists (n :: ns). cbn in *. rewrite Hnodes, <- app_assoc. auto.
Qed.

Lemma add_edges_ret (stod : string -> outcome double) (l : list json)
    (g g' : StateGraph.t) :
  for_each (fun ej => e <~ lift (DefaultEdge.from_json stod ej) ;; StateGraph.addEdge e) l g =
    (Ret tt, g') ->
  exists es, Forall2 (fun ej e => DefaultEdge.from_json stod ej = Ret e) l es /\
             StateGraph.edges_ g' = (StateGraph.edges_ g ++ es)%list /\
             StateGraph.nodes_ g' = StateGraph.nodes_ g /\
             StateGraph.current_index_ g' = StateGraph.current_index_ g.
Proof.
  revert g. induction l as [|ej l IH]; intros g; cbn [for_each].
  - intros [= <-]. exists []. rewrite app_nil_r. auto.
  - intros H. apply mbind_ret_inv in H as ([] & g1 & H1 & H2).
    apply mbind_ret_inv in H1 as (e & g0 & He & Hadd).
    unfold lift in He. injection He as He <-.
    unfold StateGraph.addEdge in Hadd.
    destruct (StateGraph.node_index_ g !! DefaultEdge.from e) as [fi|]; [|discriminate].
    destruct (StateGraph.node_index_ g !! DefaultEdge.to e) as [ti|]; [|discriminate].
    cbn in Hadd. destruct (StateGraph.adjacency_ g !! fi) as [a|]; [|discriminate].
    injection Hadd as <-. destruct (IH _ H2) as (es & Hes & Hedges & Hnodes & Hcur).
    exists (e :: es). cbn in *. rewrite Hedges, <- app_assoc. auto.
Qed.

Lemma loadFromJson_visits (stod : string -> outcome double)
    (opened : option (outcome json)) (g0 g : StateGraph.t) :
  StateGraph.loadFromJson stod opened g0 = (Ret true, g) ->
  exists j ns es,
    opened = Some (Ret j) /\
    Json.at_ "nodes" j = Ret ns /\ Json.at_ "edges" j = Ret es /\
    Forall2 (fun nj n => NodeJson.from_json nj = Ret n)
            (Json.elements ns) (StateGraph.nodes_ g) /\
    Forall2 (fun ej e => DefaultEdge.from_json stod ej = Ret e)
            (Json.elements es) (StateGraph.edges_ g) /\
    StateGraph.currentNode g =
      match StateGraph.nodes_ g with
      | [] => Throw No_current_state
      | n :: _ => Ret n
      end.
Proof.
  unfold StateGraph.loadFromJson. destruct opened as [parsed|]; [|discriminate].
  intros H. apply mbind_ret_inv in H as (j & g1 & Hj & H).
  unfold lift in Hj. injection Hj as -> <-.
  apply mbind_ret_inv in H as ([] & g2 & Hclear & H).
  unfold StateGraph.clear, modify in Hclear. injection Hclear as <-.
  apply mbind_ret_inv in H as (ns & g3 & Hns & H).
  unfold lift in Hns. injection Hns as Hns <-.
  apply mbind_ret_inv in H as ([] & g4 & Hnodes & H).
  apply mbind_ret_inv in H as (es & g5 & Hes & H).
  unfold lift in Hes. injection Hes as Hes <-.
  apply mbind_ret_inv in H as ([] & g6 & Hedges & H).
  apply mbind_ret_inv in H as ([] & g7 & Hcur & H).
  unfold mret in H. injection H as <-.
  unfold modify in Hcur. injection Hcur as <-.
  destruct (add_nodes_ret _ _ _ Hnodes) as (nl & Hnl & Hn4 & He4 & Hc4).
  destruct (add_edges_ret _ _ _ _ Hedges) as (el & Hel & He6 & Hn6 & Hc6).
  cbn in Hn4, He4, Hc4. rewrite He4 in He6. cbn in He6. rewrite Hn4 in Hn6.
  rewrite Hc4 in Hc6.
  exists j, ns, es. split; [reflexivity|]. split; [exact Hns|]. split; [exact Hes|].
  destruct (StateGraph.nodes_ g6) as [|n l] eqn:E6.
  - rewrite E6, He6. rewrite <- Hn6 in Hnl. split; [exact Hnl|]. split; [exact Hel|].
    unfold StateGraph.currentNode. rewrite Hc6. reflexivity.
  - cbn. rewrite E6, He6. rewrite <- Hn6 in Hnl. split; [exact Hnl|].
    split; [exact Hel|]. reflexivity.
Qed.

(** X17: when [StateGraph::loadFromJson] returns true, whatever the graph
    held before, its nodes are what [from_json] makes of the elements the
    loop over [nodes] of the document visits, one after the other, and its
    edges those of [edges]: the elements of an array in the order of the
    array (the values of an object in the order of their keys).  The first
    node is current; with no node, no node is current. *)
Theorem StateGraph_loadFromJson_loads (stod : string -> outcome double)
    (opened : option (outcome json)) (g0 g : StateGraph.t) :
  StateGraph.loadFromJson stod opened g0 = (Ret true, g) ->
  exists j ns es,
    opened = Some (Ret j) /\
    Json.at_ "nodes" j = Ret ns /\ Json.at_ "edges" j = Ret es /\
    Forall2 (fun nj n => NodeJson.from_json nj = Ret n)
            (Json.elements ns) (StateGraph.nodes_ g) /\
    Forall2 (fun ej e => DefaultEdge.from_json stod ej = Ret e)
            (Json.elements es) (StateGraph.edges_ g) /\
    (forall l, ns = JArray l ->
       Forall2 (fun nj n => NodeJson.from_json nj = Ret n) l (StateGraph.nodes_ g)) /\
    (forall l, es = JArray l ->
       Forall2 (fun ej e => DefaultEdge.from_json stod ej = Ret e) l
               (StateGraph.edges_ g)) /\
    (forall m, ns = JObject m ->
       Forall2 (fun nj n => NodeJson.from_json nj = Ret n)
               (map snd (Json.members m)) (StateGraph.nodes_ g) /\
       Sorted.StronglySorted (fun a b0 => String.compare a b0 = Lt)
                             (map fst (Json.members m))) /\
    StateGraph.currentNode g =
      match StateGraph.nodes_ g with
      | [] => Throw No_current_state
      | n :: _ => Ret n
      end.
Proof.
  intros H. destruct (loadFromJson_visits stod opened g0 g H)
    as (j & ns & es & Ho & Hns & Hes & Hn & He & Hc).
  exists j, ns, es. split; [exact Ho|]. split; [exact Hns|]. split; [exact Hes|].
  split; [exact Hn|]. split; [exact He|].
  split; [intros l ->; exact Hn|]. split; [intros l ->; exact He|].
  split; [|exact Hc]. intros m ->. split; [exact Hn|apply members_sorted].
Qed.

Lemma addNode_current (n : DefaultNode.t) (g : StateGraph.t) :
  StateGraph.current_index_ (snd (StateGraph.addNode n g)) = StateGraph.current_index_ g.
Proof. unfold StateGraph.addNode. case_bool_decide; reflexivity. Qed.

Lemma addEdge_current (e : DefaultEdge.t) (g : StateGraph.t) :
  StateGraph.current_index_ (snd (StateGraph.addEdge e g)) = StateGraph.current_index_ g.
Proof.
  unfold StateGraph.addEdge.
  destruct (StateGraph.node_index_ g !! DefaultEdge.from e) as [fi|]; [|reflexivity].
  destruct (StateGraph.node_index_ g !! DefaultEdge.to e); [|reflexivity].
  cbn. destruct (StateGraph.adjacency_ g !! fi); reflexivity.
Qed.

Lemma load_graph_no_current (stod : string -> outcome double) (pj : json) :
  preserves (fun g => StateGraph.current_index_ g = None)
            (MultiPhaseStateGraph.load_graph stod pj).
Proof.
  unfold MultiPhaseStateGraph.load_graph. apply preserves_mbind.
  - destruct (Json.contains "nodes" pj); [|apply preserves_mret].
    apply preserves_mbind; [apply preserves_lift|]. intros ns.
    apply for_each_preserves. intros nj. apply preserves_mbind; [apply preserves_lift|].
    intros n g Hg. rewrite addNode_current. exact Hg.
  - intros _. destruct (Json.contains "edges" pj); [|apply preserves_mret].
    apply preserves_mbind; [apply preserves_lift|]. intros es.
    apply for_each_preserves. intros ej. apply preserves_mbind; [apply preserves_lift|].
    intros e g Hg. rewrite addEdge_current. exact Hg.
Qed.

Lemma load_phase_loading (stod : string -> outcome double) (pj : json) :
  preserves loading (MultiPhaseStateGraph.load_phase stod pj).
Proof.
  intros mp Hl. unfold MultiPhaseStateGraph.load_phase, mbind, lift, modify.
  destruct (x <- Json.at_ "id" pj ;; Json.get_string x) as [id| |]; try exact Hl.
  case_bool_decide as Hdup; [exact Hl|].
  destruct (MultiPhaseStateGraph.run_local _ _) as [g| |] eqn:Hg; try exact Hl.
  assert (Hnone : StateGraph.current_index_ g = None).
  { unfold MultiPhaseStateGraph.run_local in Hg.
    pose proof (load_graph_no_current stod pj StateGraph.empty eq_refl) as H.
    destruct (MultiPhaseStateGraph.load_graph stod pj StateGraph.empty) as [[a| |] g1];
      try discriminate. injection Hg as <-. exact H. }
  destruct (if Json.contains "initial_state" pj then _ else _) as [init| |]; try exact Hl.
  cbn [snd]. destruct Hl as [Hcur Hph]. split; [exact Hcur|]. cbn.
  intros i p Hp.
  destruct (decide (i < length (MultiPhaseStateGraph.phases_ mp))%nat) as [Hlt|Hge].
  - rewrite lookup_app_l in Hp by exact Hlt. eapply Hph, Hp.
  - rewrite lookup_app_r in Hp by lia.
    destruct (i - length (MultiPhaseStateGraph.phases_ mp))%nat as [|k];
      [|destruct k; discriminate].
    injection Hp as <-. unfold initial_current. cbn.
    destruct (String.eqb init "") eqn:Ei; cbn; [exact Hnone|].
    unfold StateGraph.setInitialState.
    destruct (StateGraph.node_index_ g !! init) as [k|] eqn:Ek; cbn; congruence.
Qed.

Lemma load_phase_edge_loading (stod : string -> outcome double) (fe : json) :
  preserves loading (MultiPhaseStateGraph.load_phase_edge stod fe).
Proof.
  intros mp Hl. unfold MultiPhaseStateGraph.load_phase_edge, mbind, lift.
  destruct (DefaultPhaseEdge.from_json stod fe) as [edge| |]; try exact Hl.
  destruct (MultiPhaseStateGraph.phase_index_ mp !! DefaultPhaseEdge.from edge)
    as [fi|]; [|exact Hl].
  destruct (MultiPhaseStateGraph.phase_index_ mp !! DefaultPhaseEdge.to edge);
    [|exact Hl].
  cbn. destruct (MultiPhaseStateGraph.phase_adj_ mp !! fi); exact Hl.
Qed.

Lemma preserves_run {S A : Type} (P : S -> Prop) (m : M S A) (s s' : S) (o : outcome A) :
  preserves P m -> P s -> m s = (o, s') -> P s'.
Proof. intros Hm Hs E. specialize (Hm s Hs). rewrite E in Hm. exact Hm. Qed.

Lemma preserves_and {S A : Type} (P Q : S -> Prop) (m : M S A) :
  preserves P m -> preserves Q m -> preserves (fun s => P s /\ Q s) m.
Proof. intros HP HQ s [Hp Hq]. split; [apply HP, Hp|apply HQ, Hq]. Qed.

Lemma first_phase_current (mp1 mp : MultiPhaseStateGraph.t)
    (p : MultiPhaseStateGraph.Phase.t) (ps : list MultiPhaseStateGraph.Phase.t) :
  MultiPhaseStateGraph.phases_ mp1 = p :: ps ->
  initial_current p ->
  (_ <~ modify (MultiPhaseStateGraph.set_current_phase (Some O)) ;;
   if negb (StateGraph.hasCurrentState (MultiPhaseStateGraph.Phase.graph p)) &&
      negb (String.eqb (MultiPhaseStateGraph.Phase.initial_state p) "")
   then _ <~ MultiPhaseStateGraph.on_graph O
               (StateGraph.setInitialState (MultiPhaseStateGraph.Phase.initial_state p)) ;;
        mret tt
   else mret tt) mp1 = (Ret tt, mp) ->
  mp = MultiPhaseStateGraph.set_current_phase (Some O) mp1.
Proof.
  intros Hps Hinit. unfold mbind at 1, modify. cbv beta iota.
  unfold initial_current, StateGraph.hasCurrentState in *.
  destruct (String.eqb (MultiPhaseStateGraph.Phase.initial_state p) "") eqn:Ei.
  - rewrite andb_false_r. intros [= <-]. reflexivity.
  - destruct (StateGraph.current_index_ (MultiPhaseStateGraph.Phase.graph p)) as [k|] eqn:Ek;
      cbn [negb andb]; [intros [= <-]; reflexivity|].
    assert (Hp : MultiPhaseStateGraph.phases_
                   (MultiPhaseStateGraph.set_current_phase (Some O) mp1) !! O = Some p)
      by (cbn; rewrite Hps; reflexivity).
    unfold mbind. rewrite (on_graph_eq O _ p _ Hp).
    unfold StateGraph.setInitialState. rewrite <- Hinit. cbn [fst snd].
    rewrite (with_phase_graph_same O p _ Hp). intros [= <-]. reflexivity.
Qed.

Lemma MP_loadFromJson_first (stod : string -> outcome double)
    (opened : option (outcome json)) (mp0 mp : MultiPhaseStateGraph.t) :
  MultiPhaseStateGraph.loadFromJson stod opened mp0 = (Ret true, mp) ->
  match MultiPhaseStateGraph.phases_ mp with
  | [] => MultiPhaseStateGraph.current_phase_ mp = None
  | p :: _ =>
      MultiPhaseStateGraph.current_phase_ mp = Some O /\ initial_current p /\
      StateGraph_wf (MultiPhaseStateGraph.Phase.graph p)
  end.
Proof.
  intros H. pose proof (MP_loadFromJson_wf stod opened mp0) as Hwf. rewrite H in Hwf.
  cbn [snd] in Hwf. revert H.
  unfold MultiPhaseStateGraph.loadFromJson. intros H.
  apply mbind_ret_inv in H as ([] & s1 & Hclear & H).
  unfold MultiPhaseStateGraph.clear, modify in Hclear. injection Hclear as <-.
  destruct opened as [parsed|]; [|discriminate].
  apply mbind_ret_inv in H as (j & s2 & Hj & H). unfold lift in Hj. injection Hj as -> <-.
  apply mbind_ret_inv in H as (ps & s3 & Hps & H). unfold lift in Hps.
  injection Hps as Hps <-.
  apply mbind_ret_inv in H as ([] & s4 & Hphases & H).
  apply mbind_ret_inv in H as ([] & s5 & Hedges & H).
  apply mbind_ret_inv in H as ([] & s6 & Hfirst & H).
  unfold mret in H. injection H as <-.
  assert (H0 : loading MultiPhaseStateGraph.empty)
    by (split; [reflexivity|intros i p Hp; cbn in Hp; rewrite lookup_nil in Hp; discriminate]).
  pose proof (preserves_run loading _ _ _ _
                (for_each_preserves loading _ _ (load_phase_loading stod)) H0 Hphases) as H4.
  assert (H5 : loading s5).
  { destruct (Json.contains "phase_edges" j).
    - apply mbind_ret_inv in Hedges as (es & s' & Hes & Hedges).
      unfold lift in Hes. injection Hes as _ <-.
      exact (preserves_run loading _ _ _ _
               (for_each_preserves loading _ _ (load_phase_edge_loading stod)) H4 Hedges).
    - unfold mret in Hedges. injection Hedges as <-. exact H4. }
  destruct H5 as [Hcur5 Hinit5].
  destruct (MultiPhaseStateGraph.phases_ s5) as [|p l] eqn:E5.
  - assert (s6 = s5) as -> by congruence. rewrite E5. exact Hcur5.
  - apply (first_phase_current s5 s6 p l E5) in Hfirst;
      [|apply (Hinit5 O); reflexivity].
    subst s6. cbn. rewrite E5. split; [reflexivity|].
    split; [apply (Hinit5 O); reflexivity|].
    apply (mwf_graphs _ Hwf O p). cbn. rewrite E5. reflexivity.
Qed.

(** X18: when the multi-phase [loadFromJson] returns true, the first phase
    of the document is current.  Its current state is the one its
    [initial_state] names; when the phase has no [initial_state], or one
    that names no node of the phase, the phase has no current state and
    [currentStateId] throws.  (The node-level loader makes the first node
    current instead.)  Without phases no phase is current. *)
Theorem load_makes_first_phase_current (stod : string -> outcome double)
    (opened : option (outcome json)) (mp0 mp : MultiPhaseStateGraph.t) :
  MultiPhaseStateGraph.loadFromJson stod opened mp0 = (Ret true, mp) ->
  match MultiPhaseStateGraph.phases_ mp with
  | [] => MultiPhaseStateGraph.currentPhaseId mp = (Throw No_current_phase, mp)
  | p :: _ =>
      MultiPhaseStateGraph.currentPhaseId mp =
        (Ret (MultiPhaseStateGraph.Phase.id p), mp) /\
      MultiPhaseStateGraph.currentStateId mp =
        (if String.eqb (MultiPhaseStateGraph.Phase.initial_state p) ""
         then Throw No_current_state
         else match StateGraph.node_index_ (MultiPhaseStateGraph.Phase.graph p)
                      !! MultiPhaseStateGraph.Phase.initial_state p with
              | Some _ => Ret (MultiPhaseStateGraph.Phase.initial_state p)
              | None => Throw No_current_state
              end, mp)
  end.
Proof.
  intros H. apply MP_loadFromJson_first in H.
  destruct (MultiPhaseStateGraph.phases_ mp) as [|p l] eqn:E.
  - unfold MultiPhaseStateGraph.currentPhaseId. rewrite H. reflexivity.
  - destruct H as (Hc & Hinit & Hwf).
    unfold MultiPhaseStateGraph.currentPhaseId, MultiPhaseStateGraph.currentStateId.
    rewrite Hc. unfold mbind, MultiPhaseStateGraph.phase_at, at_index, lift, mret.
    rewrite E. cbn [lookup list_lookup]. split; [reflexivity|].
    unfold StateGraph.currentStateId. unfold initial_current in Hinit. rewrite Hinit.
    destruct (String.eqb (MultiPhaseStateGraph.Phase.initial_state p) ""); [reflexivity|].
    destruct (StateGraph.node_index_ (MultiPhaseStateGraph.Phase.graph p)
                !! MultiPhaseStateGraph.Phase.initial_state p) as [k|] eqn:Ek; [|reflexivity].
    destruct (wf_index _ Hwf _ _ Ek) as (n & Hn & Hid).
    unfold at_index. rewrite Hn. cbn. rewrite Hid. reflexivity.
Qed.

(** X19: [setInitialPhase] with an id that names no phase returns false
    and changes nothing.  With the id of a phase it returns true and makes
    that phase current; when the [initial_state] of the phase names one of
    its nodes, that node becomes its current state, whatever state the
    phase was in. *)
Theorem setInitialPhase_cases (id : string) (mp : MultiPhaseStateGraph.t) :
  loaded mp ->
  match MultiPhaseStateGraph.phase_index_ mp !! id with
  | None => MultiPhaseStateGraph.setInitialPhase id mp = (Ret false, mp)
  | Some i =>
      exists mp' p,
        MultiPhaseStateGraph.phases_ mp !! i = Some p /\
        MultiPhaseStateGraph.setInitialPhase id mp = (Ret true, mp') /\
        MultiPhaseStateGraph.currentPhaseId mp' = (Ret id, mp') /\
        (String.eqb (MultiPhaseStateGraph.Phase.initial_state p) "" = false ->
         is_Some (StateGraph.node_index_ (MultiPhaseStateGraph.Phase.graph p)
                    !! MultiPhaseStateGraph.Phase.initial_state p) ->
         MultiPhaseStateGraph.currentStateId mp' =
           (Ret (MultiPhaseStateGraph.Phase.initial_state p), mp'))
  end.
Proof.
  intros Hl. pose proof (loaded_wf mp Hl) as Hwf.
  destruct (MultiPhaseStateGraph.phase_index_ mp !! id) as [i|] eqn:Hi.
  - destruct (mwf_index mp Hwf id i Hi) as (p & Hp & Hid).
    destruct (mwf_graphs mp Hwf i p Hp) as [Hgwf _].
    unfold MultiPhaseStateGraph.setInitialPhase. rewrite Hi.
    unfold mbind at 1, modify. cbv beta iota.
    unfold mbind at 1, MultiPhaseStateGraph.phase_at. unfold at_index at 1.
    cbn [MultiPhaseStateGraph.phases_ MultiPhaseStateGraph.set_current_phase].
    rewrite Hp.
    assert (Hp1 : MultiPhaseStateGraph.phases_
                    (MultiPhaseStateGraph.set_current_phase (Some i) mp) !! i = Some p)
      by exact Hp.
    destruct (String.eqb (MultiPhaseStateGraph.Phase.initial_state p) "") eqn:Ei;
      cbn [negb].
    + eexists _, p. split; [reflexivity|]. split; [reflexivity|].
      split; [|congruence].
      unfold MultiPhaseStateGraph.currentPhaseId. cbn.
      unfold mbind, MultiPhaseStateGraph.phase_at, at_index. cbn. rewrite Hp, Hid.
      reflexivity.
    + unfold mbind. rewrite (on_graph_eq i _ p _ Hp1).
      unfold StateGraph.setInitialState.
      destruct (StateGraph.node_index_ (MultiPhaseStateGraph.Phase.graph p)
                  !! MultiPhaseStateGraph.Phase.initial_state p) as [k|] eqn:Ek;
        cbn [fst snd].
      * eexists _, p. split; [reflexivity|]. split; [reflexivity|].
        pose proof (with_phase_graph_lookup i
          (StateGraph.set_current_index (Some k) (MultiPhaseStateGraph.Phase.graph p))
          p _ Hp1) as Hp2.
        unfold MultiPhaseStateGraph.currentPhaseId, MultiPhaseStateGraph.currentStateId.
        rewrite with_phase_graph_current. cbn [MultiPhaseStateGraph.current_phase_
          MultiPhaseStateGraph.set_current_phase].
        unfold mbind, MultiPhaseStateGraph.phase_at, at_index, lift, mret.
        rewrite Hp2. cbn. rewrite Hid. split; [reflexivity|]. intros _ _.
        destruct (wf_index _ Hgwf _ _ Ek) as (n & Hn & Hnid).
        unfold StateGraph.currentStateId, at_index. cbn. rewrite Hn. cbn. rewrite Hnid.
        reflexivity.
      * eexists _, p. split; [reflexivity|]. split; [reflexivity|].
        rewrite (with_phase_graph_same i p _ Hp1).
        split; [|intros _ [? ?]; congruence].
        unfold MultiPhaseStateGraph.currentPhaseId. cbn.
        unfold mbind, MultiPhaseStateGraph.phase_at, at_index. cbn. rewrite Hp, Hid.
        reflexivity.
  - unfold MultiPhaseStateGraph.setInitialPhase. rewrite Hi. reflexivity.
Qed.

(** ** What a hierarchical step leaves as it is *)

Lemma same_but_vars_refl (n : DefaultNode.t) : same_but_vars n n.
Proof. repeat split. Qed.

Lemma same_but_vars_trans (n1 n2 n3 : DefaultNode.t) :
  same_but_vars n1 n2 -> same_but_vars n2 n3 -> same_but_vars n1 n3.
Proof. unfold same_but_vars. intros (? & ? & ?) (? & ? & ?). repeat split; congruence. Qed.

Lemma graph_static_refl (g : StateGraph.t) : graph_static g g.
Proof.
  split; [reflexivity|split; [reflexivity|]]. intros i n Hn. exists n.
  split; [exact Hn|apply same_but_vars_refl].
Qed.

Lemma graph_static_trans (g1 g2 g3 : StateGraph.t) :
  graph_static g1 g2 -> graph_static g2 g3 -> graph_static g1 g3.
Proof.
  intros (E1 & A1 & N1) (E2 & A2 & N2). split; [congruence|split; [congruence|]].
  intros i n Hn. destruct (N1 i n Hn) as (n2 & Hn2 & S1).
  destruct (N2 i n2 Hn2) as (n3 & Hn3 & S2). exists n3.
  split; [exact Hn3|eapply same_but_vars_trans; eassumption].
Qed.

Lemma step_static (g : StateGraph.t) : graph_static g (snd (StateGraph.step g)).
Proof.
  rewrite step_cases.
  destruct (StateGraph.current_index_ g) as [c|]; [|apply graph_static_refl].
  destruct (StateGraph.nodes_ g !! c) as [cur|]; [|apply graph_static_refl].
  destruct (StateGraph.adjacency_ g !! c) as [adj|]; [|apply graph_static_refl].
  destruct (step_loop_frame cur adj g) as (H1 & H2 & H3).
  split; [exact H1|split; [exact H2|]]. intros i n Hi.
  destruct (H3 i n Hi) as (n' & Hn' & Hs & _). eauto.
Qed.

Lemma setInitialState_static (id : string) (g : StateGraph.t) :
  graph_static g (snd (StateGraph.setInitialState id g)).
Proof.
  unfold StateGraph.setInitialState.
  destruct (StateGraph.node_index_ g !! id); [|apply graph_static_refl].
  split; [reflexivity|split; [reflexivity|]]. intros i n0 Hn. exists n0.
  split; [exact Hn|apply same_but_vars_refl].
Qed.

Lemma MP_static_refl (mp : MultiPhaseStateGraph.t) : MP_static mp mp.
Proof.
  split; [reflexivity|split; [reflexivity|split; [reflexivity|]]].
  intros i p Hp. exists p. split; [exact Hp|]. split; [reflexivity|].
  split; [reflexivity|apply graph_static_refl].
Qed.

Lemma MP_static_trans (m1 m2 m3 : MultiPhaseStateGraph.t) :
  MP_static m1 m2 -> MP_static m2 m3 -> MP_static m1 m3.
Proof.
  intros (I1 & E1 & A1 & P1) (I2 & E2 & A2 & P2).
  split; [congruence|split; [congruence|split; [congruence|]]].
  intros i p Hp. destruct (P1 i p Hp) as (p2 & Hp2 & Hid1 & Hin1 & G1).
  destruct (P2 i p2 Hp2) as (p3 & Hp3 & Hid2 & Hin2 & G2). exists p3.
  split; [exact Hp3|]. split; [congruence|]. split; [congruence|].
  eapply graph_static_trans; eassumption.
Qed.

Lemma preserves_static {A : Type} (m : M MultiPhaseStateGraph.t A) :
  (forall s, MP_static s (snd (m s))) ->
  forall mp0, preserves (MP_static mp0) m.
Proof. intros H mp0 s Hs. eapply MP_static_trans; [exact Hs|apply H]. Qed.

Lemma on_graph_static {A : Type} (i : nat) (m : M StateGraph.t A)
    (mp0 : MultiPhaseStateGraph.t) :
  (forall g, graph_static g (snd (m g))) ->
  preserves (MP_static mp0) (MultiPhaseStateGraph.on_graph i m).
Proof.
  intros Hm. apply preserves_static. intros s.
  destruct (MultiPhaseStateGraph.phases_ s !! i) as [ph|] eqn:Hph.
  - rewrite (on_graph_eq i m ph s Hph). cbn [snd].
    split; [|split; [|split]];
      try (unfold with_phase_graph; rewrite Hph; reflexivity).
    intros k p Hp. destruct (decide (i = k)) as [<-|Hne].
    + rewrite (with_phase_graph_lookup i _ ph s Hph). eexists. split; [reflexivity|].
      assert (p = ph) as -> by congruence. cbn. split; [reflexivity|].
      split; [reflexivity|apply Hm].
    + rewrite (with_phase_graph_lookup_ne i k _ s Hne). exists p.
      split; [exact Hp|]. split; [reflexivity|]. split; [reflexivity|apply graph_static_refl].
  - unfold MultiPhaseStateGraph.on_graph. rewrite Hph. apply MP_static_refl.
Qed.

Lemma set_current_phase_static (c : option nat) (mp : MultiPhaseStateGraph.t) :
  MP_static mp (MultiPhaseStateGraph.set_current_phase c mp).
Proof.
  split; [reflexivity|split; [reflexivity|split; [reflexivity|]]].
  intros i p Hp. exists p. split; [exact Hp|]. split; [reflexivity|].
  split; [reflexivity|apply graph_static_refl].
Qed.

Lemma switch_phase_static (pe : DefaultPhaseEdge.t) (mp0 : MultiPhaseStateGraph.t) :
  preserves (MP_static mp0) (MultiPhaseStateGraph.switch_phase pe).
Proof.
  intros mp H. unfold MultiPhaseStateGraph.switch_phase.
  destruct (MultiPhaseStateGraph.phase_index_ mp !! DefaultPhaseEdge.to pe) as [t|];
    [|exact H].
  pose proof (MP_static_trans _ _ _ H (set_current_phase_static (Some t) mp)) as H1.
  unfold mbind at 1, modify. cbv beta iota.
  refine (preserves_mbind (MP_static mp0) _ _ _ _ _ H1); [apply preserves_const|].
  intros p. destruct (_ && _); [|apply preserves_mret].
  apply preserves_mbind; [apply on_graph_static, setInitialState_static|].
  intros _. apply preserves_mret.
Qed.

Lemma phase_loop_static (cur : DefaultNode.t) (adj : list nat)
    (mp0 : MultiPhaseStateGraph.t) :
  preserves (MP_static mp0) (MultiPhaseStateGraph.phase_loop cur adj).
Proof.
  induction adj as [|j adj IH]; cbn [MultiPhaseStateGraph.phase_loop].
  - apply preserves_mret.
  - apply preserves_mbind; [apply preserves_const|]. intros pe.
    apply preserves_mbind; [apply preserves_lift|]. intros [|]; [|exact IH].
    apply preserves_mbind; [apply switch_phase_static|]. intros _. apply preserves_mret.
Qed.

(** X20: a hierarchical step moves the current phase and the current
    states and writes vars, and nothing else, however it ends: the phase
    index, the phase edges and their adjacency lists are as before, every
    phase keeps its position, id and initial state, and in the graph of
    every phase the edges and adjacency lists are as before and every node
    keeps its position, id, params and properties. *)
Theorem MP_step_static (mp : MultiPhaseStateGraph.t) :
  MP_static mp (snd (MultiPhaseStateGraph.step mp)).
Proof.
  unfold MultiPhaseStateGraph.step.
  destruct (MultiPhaseStateGraph.current_phase_ mp) as [ci|]; [|apply MP_static_refl].
  generalize (MP_static_refl mp). generalize mp at 2 4. revert mp. intros mp0.
  change (preserves (MP_static mp0)
    (phase <~ MultiPhaseStateGraph.phase_at ci ;;
     prevState <~ lift (StateGraph.currentStateId (MultiPhaseStateGraph.Phase.graph phase)) ;;
     ns <~ MultiPhaseStateGraph.on_graph ci StateGraph.step ;;
     curNode <~ MultiPhaseStateGraph.on_graph ci (fun g => (StateGraph.currentNode g, g)) ;;
     adj <~ (fun mp1 => (at_index (MultiPhaseStateGraph.phase_adj_ mp1) ci, mp1)) ;;
     changed <~ MultiPhaseStateGraph.phase_loop curNode adj ;;
     pid <~ MultiPhaseStateGraph.currentPhaseId ;;
     sid <~ MultiPhaseStateGraph.currentStateId ;;
     mret (Some (MultiPhaseStateGraph.mkStepResult changed
                   (match ns with Some _ => true | None => false end) pid sid)))).
  apply preserves_mbind; [apply preserves_const|]. intros phase.
  apply preserves_mbind; [apply preserves_lift|]. intros prev.
  apply preserves_mbind; [apply on_graph_static, step_static|]. intros ns.
  apply preserves_mbind; [apply on_graph_static; intros g; apply graph_static_refl|].
  intros curNode.
  apply preserves_mbind; [apply preserves_const|]. intros adj.
  apply preserves_mbind; [apply phase_loop_static|]. intros changed.
  apply preserves_mbind; [intros s Hs; rewrite currentPhaseId_same; exact Hs|]. intros pid.
  apply preserves_mbind; [intros s Hs; rewrite MP_currentStateId_same; exact Hs|]. intros sid.
  apply preserves_mret.
Qed.

(** X21: in every multi-phase graph a program reaches through the member
    functions, phase ids are unique, every phase edge joins two phases,
    the adjacency list of a phase holds phase edges that leave it, the
    current phase is one of the phases, and the graph of every phase is
    well formed. *)
Theorem loaded_invariant (mp : MultiPhaseStateGraph.t) :
  loaded mp ->
  (forall i j p q,
     MultiPhaseStateGraph.phases_ mp !! i = Some p ->
     MultiPhaseStateGraph.phases_ mp !! j = Some q ->
     MultiPhaseStateGraph.Phase.id p = MultiPhaseStateGraph.Phase.id q -> i = j) /\
  (forall k pe, MultiPhaseStateGraph.phase_edges_ mp !! k = Some pe ->
     exists fi ti pf pt,
       MultiPhaseStateGraph.phase_index_ mp !! DefaultPhaseEdge.from pe = Some fi /\
       MultiPhaseStateGraph.phases_ mp !! fi = Some pf /\
       MultiPhaseStateGraph.Phase.id pf = DefaultPhaseEdge.from pe /\
       MultiPhaseStateGraph.phase_index_ mp !! DefaultPhaseEdge.to pe = Some ti /\
       MultiPhaseStateGraph.phases_ mp !! ti = Some pt /\
       MultiPhaseStateGraph.Phase.id pt = DefaultPhaseEdge.to pe) /\
  (forall i a k, MultiPhaseStateGraph.phase_adj_ mp !! i = Some a -> k ∈ a ->
     exists pe p, MultiPhaseStateGraph.phase_edges_ mp !! k = Some pe /\
                  MultiPhaseStateGraph.phases_ mp !! i = Some p /\
                  DefaultPhaseEdge.from pe = MultiPhaseStateGraph.Phase.id p) /\
  (forall i, MultiPhaseStateGraph.current_phase_ mp = Some i ->
     is_Some (MultiPhaseStateGraph.phases_ mp !! i) /\
     is_Some (MultiPhaseStateGraph.phase_adj_ mp !! i)) /\
  (forall i p, MultiPhaseStateGraph.phases_ mp !! i = Some p ->
     StateGraph_wf (MultiPhaseStateGraph.Phase.graph p)).
Proof.
  intros Hl. pose proof (loaded_wf mp Hl) as Hwf. split; [|split; [|split; [|split]]].
  - intros i j p q Hp Hq Hid.
    pose proof (mwf_indexed mp Hwf i p Hp) as Hi.
    pose proof (mwf_indexed mp Hwf j q Hq) as Hj. congruence.
  - intros k pe Hpe. destruct (mwf_edges mp Hwf k pe Hpe) as ([fi Hf] & [ti Ht] & _).
    destruct (mwf_index mp Hwf _ _ Hf) as (pf & Hpf & Hidf).
    destruct (mwf_index mp Hwf _ _ Ht) as (pt & Hpt & Hidt).
    exists fi, ti, pf, pt. auto 10.
  - intros i a k Ha Hk. destruct (mwf_adj_edges mp Hwf i a k Ha Hk) as (pe & Hpe & Hf).
    destruct (mwf_index mp Hwf _ _ Hf) as (p & Hp & Hid). exists pe, p. auto.
  - intros i Hc. pose proof (mwf_current mp Hwf i Hc) as Hlt. split.
    + apply lookup_lt_is_Some_2, Hlt.
    + apply lookup_lt_is_Some_2. rewrite (mwf_adjacency mp Hwf). exact Hlt.
  - intros i p Hp. eapply mwf_graphs; eassumption.
Qed.

(** X22: on a multi-phase graph a program reaches through the member
    functions, [step] reads no vector out of range and never throws
    [Phase edge to unknown phase].  When it returns nothing, no phase
    was current and the graph is unchanged; a result it returns
    carries the ids [currentPhaseId] and [currentStateId] give after the
    step, and with [phase_changed] false the current phase is the same; an
    exception is [No current state] or an evaluation error of a
    condition. *)
Theorem loaded_step_outcomes (mp : MultiPhaseStateGraph.t) :
  loaded mp ->
  match MultiPhaseStateGraph.step mp with
  | (Ret None, mp') => MultiPhaseStateGraph.current_phase_ mp = None /\ mp' = mp
  | (Ret (Some r), mp') =>
      MultiPhaseStateGraph.currentPhaseId mp' =
        (Ret (MultiPhaseStateGraph.phase_id r), mp') /\
      MultiPhaseStateGraph.currentStateId mp' =
        (Ret (MultiPhaseStateGraph.state_id r), mp') /\
      (MultiPhaseStateGraph.phase_changed r = false ->
       MultiPhaseStateGraph.current_phase_ mp' = MultiPhaseStateGraph.current_phase_ mp)
  | (Throw x, _) => x = No_current_state \/ is_eval_error x = true
  | (Undefined, _) => False
  end.
Proof. intros Hl. apply MP_step_cases, loaded_wf, Hl. Qed.

(** ** The theorems on the sample configurations *)

Lemma built_builtAB : built Scenario.builtAB.
Proof.
  unfold Scenario.builtAB.
  apply built_setInitialState, built_addEdge, built_addNode, built_addNode, built_empty.
Defined.

Lemma loaded_mpMain : loaded Sample.mpMain.
Proof.
  unfold Sample.mpMain. apply loaded_loadFromJson.
Defined.

Lemma built_graph_invariant_witness :
  built Scenario.builtAB /\
  forall i j n m,
    StateGraph.nodes_ Scenario.builtAB !! i = Some n ->
    StateGraph.nodes_ Scenario.builtAB !! j = Some m ->
    DefaultNode.id n = DefaultNode.id m -> i = j.
Proof.
  split; [exact built_builtAB|].
  exact (proj1 (built_graph_invariant Scenario.builtAB built_builtAB)).
Defined.

Lemma built_step_defined_witness :
  built Scenario.builtAB /\ fst (StateGraph.step Scenario.builtAB) <> Undefined.
Proof.
  split; [exact built_builtAB|].
  exact (proj1 (built_step_defined Scenario.builtAB built_builtAB)).
Defined.

Lemma addEdge_on_built_witness :
  built Scenario.builtAB /\
  exists g1, StateGraph.addEdge Sample.edge2 Scenario.builtAB = (Ret tt, g1) /\
             StateGraph.edges_ g1 !! 1%nat = Some Sample.edge2.
Proof.
  split; [exact built_builtAB|].
  destruct (addEdge_on_built Sample.edge2 Scenario.builtAB built_builtAB)
    as [[H _]|(g1 & H & _ & _ & He & _)].
  - vm_compute in H. discriminate.
  - exists g1. split; [exact H|exact He].
Defined.

Lemma setInitialState_spec_witness :
  built Scenario.builtAB /\
  StateGraph.setInitialState "B" Scenario.builtAB =
    (Ret true, StateGraph.set_current_index (Some 1%nat) Scenario.builtAB) /\
  StateGraph.setInitialState "C" Scenario.builtAB = (Ret false, Scenario.builtAB).
Proof.
  split; [exact built_builtAB|]. split.
  - destruct (setInitialState_spec "B" Scenario.builtAB built_builtAB)
      as [[H _]|(i & n & Hi & _ & H & _)].
    + vm_compute in H. discriminate.
    + vm_compute in Hi. injection Hi as <-. exact H.
  - destruct (setInitialState_spec "C" Scenario.builtAB built_builtAB)
      as [[_ H]|(i & n & Hi & _)].
    + exact H.
    + vm_compute in Hi. discriminate.
Defined.

Lemma StateGraph_loadFromJson_loads_witness :
  StateGraph.loadFromJson stod_short (Some (Ret Scenario.docGraph)) StateGraph.empty =
    (Ret true, Scenario.graphLoaded) /\
  exists n l, StateGraph.nodes_ Scenario.graphLoaded = n :: l /\
              StateGraph.currentNode Scenario.graphLoaded = Ret n.
Proof.
  assert (H : StateGraph.loadFromJson stod_short (Some (Ret Scenario.docGraph))
                StateGraph.empty = (Ret true, Scenario.graphLoaded))
    by (vm_compute; reflexivity).
  split; [exact H|].
  destruct (StateGraph_loadFromJson_loads _ _ _ _ H)
    as (j & ns & es & _ & _ & _ & _ & _ & _ & _ & _ & Hc).
  destruct (StateGraph.nodes_ Scenario.graphLoaded) as [|n l] eqn:E.
  - vm_compute in E. discriminate E.
  - exists n, l. split; [reflexivity|exact Hc].
Defined.

Lemma next_lexeme_witness :
  Lexer.next "  foo bar" = Ret (Token.mk ID "foo", " bar") /\
  exists ws, all_chars isspace ws = true /\
             "  foo bar" = (ws ++ lexeme (Token.mk ID "foo") ++ " bar")%string.
Proof.
  assert (H : Lexer.next "  foo bar" = Ret (Token.mk ID "foo", " bar"))
    by (vm_compute; reflexivity).
  split; [exact H|]. exact (proj1 (next_lexeme _ _ _ H)).
Defined.

Lemma string_literal_lexing_witness :
  all_chars not_dquote "a b" = true /\
  Lexer.next (String dquote ("a b" ++ String dquote " x")) =
    Ret (Token.mk STR "a b", " x").
Proof.
  split; [reflexivity|].
  exact (proj1 (string_literal_lexing "a b" " x" eq_refl)).
Defined.

Lemma leading_space_ignored_witness :
  all_chars isspace "  " = true /\
  compileExpression stod_short ("  " ++ "x < 1") = compileExpression stod_short "x < 1".
Proof.
  split; [reflexivity|]. exact (leading_space_ignored stod_short "  " "x < 1" eq_refl).
Defined.

Lemma blank_expression_rejected_witness :
  all_chars isspace "   " = true /\
  compileExpression stod_short "   " = Throw Unexpected_token_in_primary.
Proof.
  split; [reflexivity|]. exact (blank_expression_rejected stod_short "   " eq_refl).
Defined.

Lemma identifier_expression_witness :
  is_identifier "properties.name" = true /\
  (e <- compileExpression stod_short "properties.name" ;; eval e Sample.nodeA) = Ret true /\
  (e <- compileExpression stod_short "x" ;; eval e Sample.nodeA) = Ret false.
Proof.
  split; [reflexivity|]. split.
  - apply (proj2 (identifier_expression stod_short "properties.name" Sample.nodeA eq_refl)
             (Some (VString "TestNode"))).
    left. exists "name". split; reflexivity.
  - apply (proj2 (identifier_expression stod_short "x" Sample.nodeA eq_refl)
             (Some (VInt 0))).
    right. split; [intros rest; discriminate|reflexivity].
Defined.

Lemma compiled_expression_errors_witness :
  compileExpression stod_short "flag" = Ret (Sample.leaf_ident "flag") /\
  ((exists v, eval (Sample.leaf_ident "flag") Sample.nodeA = Ret v) \/
   (exists x, eval (Sample.leaf_ident "flag") Sample.nodeA = Throw x /\
              is_eval_error x = true)).
Proof.
  assert (H : compileExpression stod_short "flag" = Ret (Sample.leaf_ident "flag"))
    by (vm_compute; reflexivity).
  split; [exact H|].
  exact (compiled_expression_errors stod_short "flag" _ Sample.nodeA H).
Defined.

Lemma node_from_json_vars_witness :
  NodeJson.from_json (Sample.node_doc "Idle" Scenario.idleVars) = Ret Scenario.nodeIdle /\
  DefaultNode.getVar "count" Scenario.nodeIdle = Some (VInt 0) /\
  DefaultNode.getVar "mask" Scenario.nodeIdle = Some (VInt (18446744073709551615 - 2 ^ 64)) /\
  DefaultNode.getVar "other" Scenario.nodeIdle = None.
Proof.
  assert (H : NodeJson.from_json (Sample.node_doc "Idle" Scenario.idleVars) =
              Ret Scenario.nodeIdle) by (vm_compute; reflexivity).
  assert (Hv : Json.at_ "vars" (Sample.node_doc "Idle" Scenario.idleVars) =
               Ret (JObject Scenario.idleVars)) by reflexivity.
  assert (Hnd : NoDup (map fst Scenario.idleVars)).
  { repeat (apply NoDup_cons; split;
            [intros Hin; repeat (apply elem_of_cons in Hin as [Hin|Hin];
                                 [discriminate Hin|]); inversion Hin|]).
    apply NoDup_nil_2. }
  destruct (node_from_json_vars _ _ _ H Hv Hnd) as (_ & Hsmall & Hbig & _ & _ & _ & Hnone).
  split; [exact H|]. split; [|split].
  - apply (Hsmall "count" 0); [reflexivity|lia].
  - apply (Hbig "mask" 18446744073709551615); [reflexivity|lia].
  - apply (Hnone "other"). reflexivity.
Defined.

Lemma load_makes_first_phase_current_witness :
  MultiPhaseStateGraph.loadFromJson stod_short (Some (Ret Sample.docMain))
    MultiPhaseStateGraph.empty = (Ret true, Sample.mpMain) /\
  MultiPhaseStateGraph.currentPhaseId Sample.mpMain = (Ret "Main", Sample.mpMain) /\
  MultiPhaseStateGraph.currentStateId Sample.mpMain = (Ret "Idle", Sample.mpMain).
Proof.
  assert (H : MultiPhaseStateGraph.loadFromJson stod_short (Some (Ret Sample.docMain))
                MultiPhaseStateGraph.empty = (Ret true, Sample.mpMain))
    by (vm_compute; reflexivity).
  split; [exact H|].
  pose proof (load_makes_first_phase_current _ _ _ _ H) as Hf.
  destruct (MultiPhaseStateGraph.phases_ Sample.mpMain) as [|p l] eqn:E.
  - vm_compute in E. discriminate E.
  - vm_compute in E. injection E as <- _. exact Hf.
Defined.

Lemma setInitialPhase_cases_witness :
  loaded Sample.mpMain /\
  MultiPhaseStateGraph.setInitialPhase "Nowhere" Sample.mpMain = (Ret false, Sample.mpMain) /\
  exists mp', MultiPhaseStateGraph.setInitialPhase "Recovery" Sample.mpMain = (Ret true, mp') /\
              MultiPhaseStateGraph.currentPhaseId mp' = (Ret "Recovery", mp').
Proof.
  split; [exact loaded_mpMain|]. split.
  - exact (setInitialPhase_cases "Nowhere" Sample.mpMain loaded_mpMain).
  - pose proof (setInitialPhase_cases "Recovery" Sample.mpMain loaded_mpMain) as H.
    destruct (MultiPhaseStateGraph.phase_index_ Sample.mpMain !! "Recovery") as [i|] eqn:E.
    + destruct H as (mp' & p & _ & Hs & Hid & _). exists mp'. split; [exact Hs|exact Hid].
    + vm_compute in E. discriminate E.
Defined.

Lemma loaded_invariant_witness :
  loaded Sample.mpMain /\
  forall i, MultiPhaseStateGraph.current_phase_ Sample.mpMain = Some i ->
    is_Some (MultiPhaseStateGraph.phases_ Sample.mpMain !! i) /\
    is_Some (MultiPhaseStateGraph.phase_adj_ Sample.mpMain !! i).
Proof.
  split; [exact loaded_mpMain|].
  exact (proj1 (proj2 (proj2 (proj2 (loaded_invariant Sample.mpMain loaded_mpMain))))).
Defined.

Lemma loaded_step_outcomes_witness :
  loaded Sample.mpMain /\
  MultiPhaseStateGraph.currentStateId (snd (MultiPhaseStateGraph.step Sample.mpMain)) =
    (Ret "Active", snd (MultiPhaseStateGraph.step Sample.mpMain)).
Proof.
  split; [exact loaded_mpMain|].
  pose proof (loaded_step_outcomes Sample.mpMain loaded_mpMain) as H.
  destruct (MultiPhaseStateGraph.step Sample.mpMain) as [[[r|]| x |] mp'] eqn:E.
  - destruct H as (_ & Hs & _). cbn [snd]. rewrite Hs.
    assert (Hr : fst (MultiPhaseStateGraph.step Sample.mpMain) = Ret (Some r))
      by (rewrite E; reflexivity).
    vm_compute in Hr. injection Hr as <-. reflexivity.
  - assert (Hr : fst (MultiPhaseStateGraph.step Sample.mpMain) = Ret None)
      by (rewrite E; reflexivity).
    vm_compute in Hr. discriminate.
  - assert (Hr : fst (MultiPhaseStateGraph.step Sample.mpMain) = Throw x)
      by (rewrite E; reflexivity).
    vm_compute in Hr. discriminate.
  - destruct H.
Defined.

Lemma step_action_scope_witness :
  StateGraph.nodes_ Sample.graphAB !! 1%nat = Some Sample.nodeB /\
  exists n', StateGraph.nodes_ (snd (StateGraph.step Sample.graphAB)) !! 1%nat = Some n' /\
             same_but_vars Sample.nodeB n'.
Proof.
  split; [reflexivity|].
  destruct (step_action_scope Sample.graphAB) as (_ & _ & H).
  destruct (H 1%nat Sample.nodeB eq_refl) as (n' & Hn' & Hs & _).
  exists n'. split; [exact Hn'|exact Hs].
Defined.

Lemma short_circuit_witness :
  eval (Sample.leaf_bool false) Sample.nodeA = Ret false /\
  eval (CMP ">" (Sample.leaf_ident "missing") (Sample.leaf_num 0)) Sample.nodeA =
    Throw (Unknown_var "missing") /\
  eval (AND (Sample.leaf_bool false)
            (CMP ">" (Sample.leaf_ident "missing") (Sample.leaf_num 0))) Sample.nodeA =
    Ret false.
Proof.
  split; [reflexivity|]. split; [vm_compute; reflexivity|].
  exact (proj1 (short_circuit (Sample.leaf_bool false)
                  (CMP ">" (Sample.leaf_ident "missing") (Sample.leaf_num 0))
                  Sample.nodeA) eq_refl).
Defined.

Lemma comparison_laws_witness :
  is_ordering_text "<" = true /\
  is_numeric (VInt 1) && is_numeric (VString "s") = false /\
  compare "<" (VInt 1) (VString "s") = Throw Non_numeric.
Proof.
  split; [reflexivity|]. split; [reflexivity|].
  destruct (comparison_laws (VInt 1) (VString "s")) as (_ & _ & _ & _ & _ & H).
  exact (proj2 (H "<" eq_refl) eq_refl).
Defined.

Lemma setVar_getVar_witness :
  "x" <> "k" /\
  DefaultNode.getVar "x" (DefaultNode.setVar "k" (VInt 1) Sample.nodeA) = Some (VInt 0).
Proof.
  split; [discriminate|].
  destruct (setVar_getVar "k" (VInt 1) Sample.nodeA) as (_ & _ & H & _).
  rewrite (H "x"); [reflexivity|discriminate].
Defined.

Lemma MP_step_static_witness :
  MultiPhaseStateGraph.phase_edges_ (snd (MultiPhaseStateGraph.step Sample.mpMain)) =
  MultiPhaseStateGraph.phase_edges_ Sample.mpMain.
Proof.
  exact (proj1 (proj2 (MP_step_static Sample.mpMain))).
Defined.

(** An object under [nodes] is visited in the order of its keys, not in
    the order of the document. *)
Example loadFromJson_object_nodes :
  map DefaultNode.id
    (StateGraph.nodes_
       (snd (StateGraph.loadFromJson stod_short
               (Some (Ret (JObject
                  [("nodes", JObject [("second", Sample.node_doc "Z" []);
                                      ("first", Sample.node_doc "A" [])]);
                   ("edges", JArray [])])))
               StateGraph.empty))) = ["A"; "Z"].
Proof. vm_compute. reflexivity. Qed.
